(** * f18: module files and control-flow lowering

    A shallow embedding of two parts of the f18 Fortran front end:

    - [lib/semantics/mod-file.cc]: the module-file writer and reader
      (checksum header, touch-free rewrite, symbol collection, path search);
    - the FIR lowering ([afforestation.cc], [lib/FIR/builder.h],
      [basicblock.cc]): the linearizer that flattens a subprogram into linear
      operations, and the builder that turns them into basic blocks.

    Conventions.  A [std::string] is a [list ascii]; a 64-bit or 32-bit
    unsigned integer is an [N] with its wrap-around written out; [std::map]
    is a [gmap]; a pointer to a heap object is an index into an arena ([nat])
    and a nullable pointer is an [option].  A failed [CHECK], a call to
    [common::die] and undefined behaviour (dereferencing [end()] or a null
    pointer) all stop the computation: the functions below return [None]
    there. *)

From Stdlib Require Import NArith ZArith Ascii String List Lia.
From stdpp Require Import base option list gmap strings sorting.

Set Warnings "-register-all".
Local Open Scope N_scope.

(** ** Strings *)

Abbreviation std_string := (list ascii) (only parsing).

Definition str (s : string) : std_string := list_ascii_of_string s.

Definition newline : ascii := ascii_of_N 10.

(** [header.compare(0, n, magic) == 0] with [n = strlen(magic)]: the first
    [n] characters of [header] (fewer when it is shorter) equal [magic]. *)
Definition starts_with (prefix s : std_string) : bool :=
  bool_decide (take (length prefix) s = prefix).

(** [std::getline]: the characters up to the first newline, and what follows
    that newline. *)
Fixpoint getline (s : std_string) : std_string * std_string :=
  match s with
  | [] => ([], [])
  | c :: rest =>
      if bool_decide (c = newline) then ([], rest)
      else let '(line, tail) := getline rest in (c :: line, tail)
  end.

(** ** Module files: [lib/semantics/mod-file.cc] *)

Module ModFile.

(** The extension used for module files. *)
Definition extension : std_string := str ".mod".
(** The initial characters of a file that identify it as a .mod file. *)
Definition magic : std_string := str "!mod$ v1 sum:".

(** *** [CheckSum] *)

Definition uint64_max_plus_1 : N := 2 ^ 64.

(** One iteration of the hashing loop:
    [hash ^= c & 0xff; hash *= 0x100000001b3;] on a [std::uint64_t]. *)
Definition hash_step (hash : N) (c : ascii) : N :=
  (N.lxor hash (N.land (N_of_ascii c) 0xff) * 0x100000001b3)
    mod uint64_max_plus_1.

Definition hash_loop (contents : std_string) : N :=
  fold_left hash_step contents 0xcbf29ce484222325.

Definition digits : std_string := str "0123456789abcdef".

(** [for (size_t i{16}; hash != 0; hash >>= 4) result[--i] = digits[hash & 0xf];]
    The recursion is on the index [i].  A 64-bit [hash] is zero after sixteen
    shifts, so the index cannot run below zero; the model leaves [result] as
    it is there. *)
Fixpoint digit_loop (i : nat) (hash : N) (result : std_string) : std_string :=
  if hash =? 0 then result
  else match i with
       | O => result
       | S i' =>
           digit_loop i' (N.shiftr hash 4)
             (<[i' := nth (N.to_nat (N.land hash 0xf)) digits "0"%char]> result)
       end.

Definition CheckSum (contents : std_string) : std_string :=
  digit_loop 16 (hash_loop contents) (replicate 16 "0"%char).

Definition GetHeader (all : std_string) : std_string :=
  magic ++ CheckSum all.

(** *** The header as the format description words it

    The 64-bit FNV-1a hash: start from the offset basis, and for each byte
    XOR it into the hash, then multiply by the FNV prime modulo 2^64. *)
Definition fnv1a64 (body : std_string) : N :=
  fold_left (fun h c => (N.lxor h (N_of_ascii c) * 0x100000001b3) mod 2 ^ 64)
    body 0xcbf29ce484222325.

(** The lowercase hexadecimal digit of a value below sixteen. *)
Definition lower_hex_digit (d : N) : ascii :=
  if d <? 10 then ascii_of_N (48 + d) else ascii_of_N (87 + d).

(** Sixteen hexadecimal digits, most significant first, zero-padded. *)
Definition hex16 (h : N) : std_string :=
  map (fun k => lower_hex_digit ((h / 16 ^ N.of_nat k) mod 16))
    (rev (seq 0 16)).

(** *** The file system seen by the writer and the reader

    A file system maps a path to the bytes of the file there.  Every [stat]
    and every [open] is recorded, with its mode, in [fs_trace], and so is
    every write.  Permissions and device errors are not modelled: opening an
    existing file succeeds, and so does creating one. *)

Record OpenMode := { ios_in : bool; ios_out : bool }.

(** [std::ios::in | std::ios::out]: an existing file is opened for reading
    and writing, its contents kept. *)
Definition in_out : OpenMode := {| ios_in := true; ios_out := true |}.
(** [std::ios::out]: the file is created, or truncated when it exists. *)
Definition out_only : OpenMode := {| ios_in := false; ios_out := true |}.
(** [std::ifstream]'s mode. *)
Definition in_only : OpenMode := {| ios_in := true; ios_out := false |}.

Inductive FsEvent :=
| EvStat (path : std_string)
| EvOpen (path : std_string) (mode : OpenMode)
| EvWrite (path : std_string) (data : std_string).

Record FileSystem := {
  fs_files : gmap (list ascii) (list ascii);
  fs_trace : list FsEvent
}.

Definition fs_log (e : FsEvent) (fs : FileSystem) : FileSystem :=
  {| fs_files := fs_files fs; fs_trace := fs_trace fs ++ [e] |}.

Definition fs_store (path data : std_string) (fs : FileSystem) : FileSystem :=
  {| fs_files := <[path := data]> (fs_files fs);
     fs_trace := fs_trace fs ++ [EvWrite path data] |}.

(** [stat(path.c_str(), &statbuf) == 0 ? statbuf.st_size : 0]. *)
Definition GetFileSize (path : std_string) (fs : FileSystem)
  : nat * FileSystem :=
  (match fs_files fs !! path with
   | Some data => length data
   | None => 0%nat
   end, fs_log (EvStat path) fs).

(** A stream opened for reading: the characters not yet read, or [None]
    when the open failed (every [get] on it then fails). *)
Definition open_existing (path : std_string) (mode : OpenMode)
  (fs : FileSystem) : option std_string * FileSystem :=
  (fs_files fs !! path, fs_log (EvOpen path mode) fs).

(** The loop [for i < expected.size(): if (!stream.get(c) || c != expected[i])
    return false]: the rest of the stream when every character matched. *)
Fixpoint get_expected (expected stream : std_string) : option std_string :=
  match expected with
  | [] => Some stream
  | e :: expected' =>
      match stream with
      | [] => None
      | c :: stream' =>
          if bool_decide (c = e) then get_expected expected' stream' else None
      end
  end.

(** Return true if the stream matches what we would write for the mod file. *)
Definition FileContentsMatch (stream : option std_string)
  (header contents : std_string) : bool :=
  match stream with
  | None => false
  | Some s =>
      match get_expected header s with
      | None => false
      | Some s1 =>
          match s1 with
          | [] => false
          | c :: s2 =>
              if bool_decide (c = newline) then
                match get_expected contents s2 with
                | None => false
                | Some s3 => match s3 with [] => true | _ :: _ => false end
                end
              else false
          end
      end
  end.

(** Write the module file at path, prepending header. Return false on error.

    In the first branch the stream stays open on the existing file;
    [seekp(0)] and the insertion overwrite it from its first byte.  A stream
    whose open failed writes nothing and [fail()] holds on it. *)
Definition WriteFile (path contents : std_string) (fs : FileSystem)
  : bool * FileSystem :=
  let header := GetHeader contents in
  let '(size, fs) := GetFileSize path fs in
  let data := header ++ newline :: contents in
  if bool_decide (size = (length header + 1 + length contents)%nat) then
    let '(stream, fs) := open_existing path in_out fs in
    if FileContentsMatch stream header contents then (true, fs)
    else
      match stream with
      | Some old => (true, fs_store path (data ++ drop (length data) old) fs)
      | None => (false, fs)
      end
  else
    let fs := fs_log (EvOpen path out_only) fs in
    (true, fs_store path data fs).

(** An event that opens [path] with [std::ios::out] in its mode. *)
Definition opens_for_write (path : std_string) (e : FsEvent) : Prop :=
  match e with
  | EvOpen p mode => p = path /\ ios_out mode = true
  | _ => False
  end.

(** An event that writes to [path]. *)
Definition writes_to (path : std_string) (e : FsEvent) : Prop :=
  match e with
  | EvWrite p _ => p = path
  | _ => False
  end.

(** *** Symbols and scopes

    Symbols and scopes live in two arenas; a [Symbol *] or [Scope *] is an
    index into them.  [SourceName] is a [parser::CharBlock]: where the name
    starts in the cooked source ([begin()]) and its characters.  Of a
    symbol's details only what this file reads is kept. *)

Abbreviation SymbolRef := nat (only parsing).
Abbreviation ScopeRef := nat (only parsing).

Record SourceName := { sn_begin : nat; ToString : list ascii }.

Record Symbol := {
  sym_name : SourceName;
  sym_scope : option ScopeRef;         (* Symbol::scope() *)
  sym_ModFile : bool;                  (* Symbol::Flag::ModFile *)
  sym_ParentComp : bool;               (* Symbol::Flag::ParentComp *)
  sym_isNamelist : bool                (* has<NamelistDetails>() *)
}.

Record Scope := {
  scope_symbol : option SymbolRef;     (* Scope::symbol() *)
  scope_symbols : list (list ascii * SymbolRef);      (* name -> symbol *)
  scope_commonBlocks : list (list ascii * SymbolRef); (* commonBlocks() *)
  scope_chars : list ascii             (* set_chars *)
}.

(** [scope.find(name)]: the symbol stored under [name], if any. *)
Fixpoint scope_find (name : std_string) (l : list (list ascii * SymbolRef))
  : option SymbolRef :=
  match l with
  | [] => None
  | (n, symbol) :: rest =>
      if bool_decide (n = name) then Some symbol else scope_find name rest
  end.

(** *** [CollectSymbols] *)

(** [std::sort(first, last, comp)] leaves a permutation of the range in which
    no element is [comp]-before one that precedes it; the order among
    elements equivalent under [comp] is unspecified.  The model sorts by
    merging, on the relation "[y] is not [comp]-before [x]". *)
Definition std_sort {A} (comp : A -> A -> bool) (l : list A) : list A :=
  @merge_sort A (fun x y => comp y x = false)
    (fun x y => decide (comp y x = false)) l.

Section CollectSymbols.
Variable symbolAt : SymbolRef -> Symbol.

(** The comparison passed to [std::sort]. *)
Definition symbol_before (x y : SymbolRef) : bool :=
  let xIsNml := sym_isNamelist (symbolAt x) in
  let yIsNml := sym_isNamelist (symbolAt y) in
  if negb (eqb xIsNml yIsNml) then negb xIsNml && yIsNml
  else (sn_begin (sym_name (symbolAt x)) <? sn_begin (sym_name (symbolAt y)))%nat.

(** The state of the two loops: the set [symbols] that prevents duplicates
    and the vector [sorted]. *)
Definition collect_insert (symbol : SymbolRef)
  (acc : gset SymbolRef * list SymbolRef) : gset SymbolRef * list SymbolRef :=
  if decide (symbol ∈ acc.1) then acc
  else ({[symbol]} ∪ acc.1, acc.2 ++ [symbol]).

Definition collect_scope_symbol (acc : gset SymbolRef * list SymbolRef)
  (pair : list ascii * SymbolRef) : gset SymbolRef * list SymbolRef :=
  if sym_ParentComp (symbolAt pair.2) then acc else collect_insert pair.2 acc.

Definition collect_common_block (acc : gset SymbolRef * list SymbolRef)
  (pair : list ascii * SymbolRef) : gset SymbolRef * list SymbolRef :=
  collect_insert pair.2 acc.

(** Collect the symbols of this scope sorted by their original order, not
    name.  Namelists are an exception: they are sorted after other symbols. *)
Definition CollectSymbols (scope : Scope) : list SymbolRef :=
  let acc := fold_left collect_scope_symbol (scope_symbols scope) (∅, []) in
  let acc := fold_left collect_common_block (scope_commonBlocks scope) acc in
  std_sort symbol_before acc.2.

End CollectSymbols.

(** *** The reader *)

(** A [parser::Message]: where it points, its text, whether it is an error
    ([_err_en_US]) and the messages attached to it. *)
Inductive Message :=
| Msg (at_ : SourceName) (text : list ascii) (isError : bool)
      (attachments : list Message).

Definition msg_text (m : Message) : list ascii :=
  match m with Msg _ text _ _ => text end.
Definition msg_isError (m : Message) : bool :=
  match m with Msg _ _ isError _ => isError end.
Definition msg_attachments (m : Message) : list Message :=
  match m with Msg _ _ _ attachments => attachments end.

Record SemanticsContext := {
  searchDirectories : list (list ascii);
  scopes : list Scope;
  symbols : list Symbol;
  messages : list Message;
  fileSystem : FileSystem
}.

(** [context_.globalScope()]: the global scope is the first scope of the
    arena. *)
Definition globalScope : ScopeRef := 0%nat.

Definition Say (m : Message) (ctx : SemanticsContext) : SemanticsContext :=
  {| searchDirectories := searchDirectories ctx;
     scopes := scopes ctx;
     symbols := symbols ctx;
     messages := messages ctx ++ [m];
     fileSystem := fileSystem ctx |}.

Definition with_fileSystem (fs : FileSystem) (ctx : SemanticsContext)
  : SemanticsContext :=
  {| searchDirectories := searchDirectories ctx;
     scopes := scopes ctx;
     symbols := symbols ctx;
     messages := messages ctx;
     fileSystem := fs |}.

(** [parser::ToLowerCaseLetter], declared in [parser/characters.h]: an
    upper-case letter becomes the lower-case one, other characters stay. *)
Definition ToLowerCaseLetter (c : ascii) : ascii :=
  let n := N_of_ascii c in
  if (65 <=? n) && (n <=? 90) then ascii_of_N (n + 32) else c.

Definition PutLower (s : std_string) : std_string := map ToLowerCaseLetter s.

(** Construct the path to a module file. ancestorName not empty means
    submodule. *)
Definition ModFilePath (dir : std_string) (name : SourceName)
  (ancestorName : std_string) : std_string :=
  (if bool_decide (dir = str ".") then [] else dir ++ str "/")
  ++ (match ancestorName with
      | [] => []
      | _ :: _ => PutLower ancestorName ++ str "-"
      end)
  ++ PutLower (ToString name) ++ extension.

(** [std::strerror(errno)] after opening a path that does not exist. *)
Definition strerror_ENOENT : std_string := str "No such file or directory".

(** The loop of [FindModFile] over the search directories: the path of the
    first acceptable candidate, the attachments collected so far, and the
    file system with the opens recorded. *)
Fixpoint FindModFile_loop (dirs : list (list ascii)) (name : SourceName)
  (ancestor : std_string) (attachments : list Message) (fs : FileSystem)
  : option (list ascii) * list Message * FileSystem :=
  match dirs with
  | [] => (None, attachments, fs)
  | dir :: dirs' =>
      let path := ModFilePath dir name ancestor in
      let '(ifstream, fs) := open_existing path in_only fs in
      match ifstream with
      | None =>
          FindModFile_loop dirs' name ancestor
            (attachments
               ++ [Msg name (path ++ str ": " ++ strerror_ENOENT) false []])
            fs
      | Some data =>
          if starts_with magic (getline data).1 then
            (Some path, attachments, fs)
          else
            FindModFile_loop dirs' name ancestor
              (attachments
                 ++ [Msg name (path ++ str ": Not a valid module file")
                       false []])
              fs
      end
  end.

Definition cannot_find_text (name : SourceName) (ancestor : std_string)
  : std_string :=
  match ancestor with
  | [] => str "Cannot find module file for '" ++ ToString name ++ str "'"
  | _ :: _ =>
      str "Cannot find module file for submodule '" ++ ToString name
      ++ str "' of module '" ++ ancestor ++ str "'"
  end.

Definition FindModFile (name : SourceName) (ancestor : std_string)
  (ctx : SemanticsContext) : option (list ascii) * SemanticsContext :=
  let '(found, attachments, fs) :=
    FindModFile_loop (searchDirectories ctx) name ancestor []
      (fileSystem ctx) in
  let ctx := with_fileSystem fs ctx in
  match found with
  | Some path => (Some path, ctx)
  | None =>
      (None, Say (Msg name (cannot_find_text name ancestor) true attachments)
               ctx)
  end.

(** [VerifyHeader]: a [std::fstream] on the path (its default mode is
    [in | out]), the first line, the sixteen characters after the magic
    against the checksum of everything after that line. *)
Definition VerifyHeader (path : std_string) (fs : FileSystem)
  : bool * FileSystem :=
  let '(stream, fs) := open_existing path in_out fs in
  let '(header, rest) := getline (default [] stream) in
  (if starts_with magic header then
     bool_decide (take 16 (drop (length magic) header) = CheckSum rest)
   else false, fs).

(** What the reader uses of a parsed module file: its program units, and
    for a submodule the parent named in [submodule(ancestor:parent)]. *)
Inductive ProgramUnit :=
| ModuleUnit
| SubmoduleUnit (parent : option SourceName)
| OtherUnit.

Record Parsing := {
  parsing_messages : list Message;
  consumedWholeFile : bool;
  parseTree : option (list ProgramUnit);
  cooked : list ascii
}.

(** program was read from a .mod file for a submodule; return the name of
    the submodule's parent submodule, nullptr if none.  The outer [None] is
    the failed [CHECK] or the failed [std::get]. *)
Definition GetSubmoduleParent (program : list ProgramUnit)
  : option (option SourceName) :=
  match program with
  | [SubmoduleUnit parent] => Some parent
  | _ => None
  end.

(** How a call ends: with a value and the context it leaves, by a failed
    check or undefined behaviour, or with the recursion budget of the model
    used up. *)
Inductive Outcome (A : Type) :=
| Done (a : A) (ctx : SemanticsContext)
| Died
| OutOfFuel.
Arguments Done {A} a ctx.
Arguments Died {A}.
Arguments OutOfFuel {A}.

Section Reader.
(** The collaborators of the reader, outside this file: the parser run on
    the bytes of a path (with [isModuleFile] set), name resolution, and
    [Scope::FindSubmodule]. *)
Variable Parse : option (list ascii) -> Parsing.
Variable ResolveNames : SemanticsContext -> list ProgramUnit -> SemanticsContext.
Variable FindSubmodule : SemanticsContext -> ScopeRef -> list ascii -> option ScopeRef.

(** [scope->name()]: the name of the symbol the scope belongs to. *)
Definition scope_name (ctx : SemanticsContext) (scope : ScopeRef)
  : option SourceName :=
  s ← scopes ctx !! scope;
  symbol ← scope_symbol s;
  sym_name <$> symbols ctx !! symbol.

Definition find_in (ctx : SemanticsContext) (scope : ScopeRef)
  (name : SourceName) : option (option SymbolRef) :=
  s ← scopes ctx !! scope;
  Some (scope_find (ToString name) (scope_symbols s)).

Definition set_ModFile (symbol : Symbol) : Symbol :=
  {| sym_name := sym_name symbol; sym_scope := sym_scope symbol;
     sym_ModFile := true; sym_ParentComp := sym_ParentComp symbol;
     sym_isNamelist := sym_isNamelist symbol |}.

Definition set_chars (chars : list ascii) (scope : Scope) : Scope :=
  {| scope_symbol := scope_symbol scope;
     scope_symbols := scope_symbols scope;
     scope_commonBlocks := scope_commonBlocks scope;
     scope_chars := chars |}.

(** The part of [Read] after a path was found and its header verified:
    parse, pick the parent scope, resolve names, and mark the module. *)
Definition Read_parsed
  (Read : SourceName -> option ScopeRef -> SemanticsContext
          -> Outcome (option ScopeRef))
  (name : SourceName) (ancestor : option ScopeRef) (path : std_string)
  (ctx : SemanticsContext) : Outcome (option ScopeRef) :=
  let fs := fs_log (EvOpen path in_only) (fileSystem ctx) in
  let parsing := Parse (fs_files fs !! path) in
  let ctx := with_fileSystem fs ctx in
  match parsing_messages parsing, consumedWholeFile parsing, parseTree parsing
  with
  | [], true, Some tree =>
      let resolve (parentScope : option ScopeRef) (ctx : SemanticsContext) :=
        let ctx := ResolveNames ctx tree in
        match parentScope with
        | None => Died
        | Some parentScope =>
            match find_in ctx parentScope name with
            | None => Died
            | Some None => Done None ctx
            | Some (Some modSymbol) =>
                match symbols ctx !! modSymbol with
                | None => Died
                | Some symbol =>
                    match sym_scope symbol with
                    | None => Died
                    | Some scope =>
                        Done (Some scope)
                          {| searchDirectories := searchDirectories ctx;
                                                     scopes :=
                               alter (set_chars (cooked parsing)) scope
                                 (scopes ctx);
                             symbols := alter set_ModFile modSymbol
                                          (symbols ctx);
                             messages := messages ctx;
                             fileSystem := fileSystem ctx |}
                    end
                end
            end
        end in
      match ancestor with
      | None => resolve (Some globalScope) ctx
      | Some anc =>
          match GetSubmoduleParent tree with
          | None => Died
          | Some (Some parent) =>
              match Read parent ancestor ctx with
              | Done parentScope ctx => resolve parentScope ctx
              | Died => Died
              | OutOfFuel => OutOfFuel
              end
          | Some None => resolve (Some anc) ctx
          end
      end
  | _, _, _ =>
      Done None
        (Say (Msg name
                (str "Module file for '" ++ ToString name
                 ++ str "' is corrupt: " ++ path) true []) ctx)
  end.

(** The part of [Read] after the module was not found among the loaded
    ones: search the directories, then verify the header of the file
    found. *)
Definition Read_search
  (Read : SourceName -> option ScopeRef -> SemanticsContext
          -> Outcome (option ScopeRef))
  (name : SourceName) (ancestor : option ScopeRef) (ancestorName : std_string)
  (ctx : SemanticsContext) : Outcome (option ScopeRef) :=
  let '(path, ctx) := FindModFile name ancestorName ctx in
  match path with
  | None => Done None ctx
  | Some path =>
      let '(ok, fs) := VerifyHeader path (fileSystem ctx) in
      let ctx := with_fileSystem fs ctx in
      if ok then Read_parsed Read name ancestor path ctx
      else
        Done None
          (Say (Msg name
                  (str "Module file for '" ++ ToString name
                   ++ str "' has invalid checksum: " ++ path) true []) ctx)
  end.

Definition Read_body
  (Read : SourceName -> option ScopeRef -> SemanticsContext
          -> Outcome (option ScopeRef))
  (name : SourceName) (ancestor : option ScopeRef) (ctx : SemanticsContext)
  : Outcome (option ScopeRef) :=
  match ancestor with
  | Some anc =>
      match FindSubmodule ctx anc (ToString name) with
      | Some scope => Done (Some scope) ctx
      | None =>
          match scope_name ctx anc with
          | None => Died
          | Some ancestorName =>
              Read_search Read name ancestor (ToString ancestorName) ctx
          end
      end
  | None =>
      match find_in ctx globalScope name with
      | None => Died
      | Some (Some it) =>
          match symbols ctx !! it with
          | None => Died
          | Some symbol => Done (sym_scope symbol) ctx
          end
      | Some None => Read_search Read name ancestor [] ctx
      end
  end.

(** [ModFileReader::Read].  It calls itself for the parent of a submodule;
    [fuel] bounds the depth of those calls. *)
Fixpoint Read (fuel : nat) (name : SourceName) (ancestor : option ScopeRef)
  (ctx : SemanticsContext) : Outcome (option ScopeRef) :=
  match fuel with
  | O => OutOfFuel
  | S fuel' => Read_body (Read fuel') name ancestor ctx
  end.

End Reader.

End ModFile.

(** ** The parse tree read by the lowering

    What the linearizer and the builder read of [parser::] nodes.  A
    [parser::Label] is a [std::uint64_t].  The address of a [parser::Name]
    or of a [parser::NonLabelDoStmt] is a number ([NameRef], [DoRef]): the
    code compares and keys them as pointers.  Expressions are left out. *)

Module parser.

Abbreviation Label := N (only parsing).
Abbreviation NameRef := nat (only parsing).
Abbreviation DoRef := nat (only parsing).
Abbreviation SymbolPtr := nat (only parsing).

(** The specifiers of an I/O statement that [GetErr], [GetEor] and [GetEnd]
    look for. *)
Inductive IoSpec :=
| ErrLabel (v : Label)
| EorLabel (v : Label)
| EndLabel (v : Label)
| OtherSpec.

Inductive IoStmtKind :=
| ReadStmt | WriteStmt | WaitStmt | OpenStmt | CloseStmt | BackspaceStmt
| EndfileStmt | RewindStmt | FlushStmt | InquireStmt.

(** Image control and the like: statements that the linearizer passes on as
    they are and that the action handler turns into one runtime call. *)
Inductive RuntimeStmtKind :=
| EventPostStmt | EventWaitStmt | FormTeamStmt | LockStmt | PauseStmt
| SyncAllStmt | SyncImagesStmt | SyncMemoryStmt | SyncTeamStmt | UnlockStmt.

Inductive ActionStmt :=
| AllocateStmt (allocations : nat)
| AssignmentStmt
| CallStmt (altReturns : list Label)     (* the labels of its [*label] arguments *)
| ContinueStmt
| CycleStmt (v : option NameRef)
| DeallocateStmt (objects : nat)
| ExitStmt (v : option NameRef)
| FailImageStmt
| GotoStmt (v : Label)
| IfStmt
| IoStmt (kind : IoStmtKind) (specs : list IoSpec)
| InquireIolength                        (* INQUIRE(IOLENGTH=...) *)
| NullifyStmt (objects : nat)
| PointerAssignmentStmt
| PrintStmt
| ReturnStmt
| RuntimeStmt (kind : RuntimeStmtKind)
| StopStmt
| WhereStmt
| ForallStmt
| ComputedGotoStmt (labels : list Label)
| ArithmeticIfStmt (l1 l2 l3 : Label)
| AssignStmt (symbol : SymbolPtr) (label : Label)
| AssignedGotoStmt (symbol : SymbolPtr) (labels : list Label).

Inductive LoopControl :=
| LoopBounds           (* DO i = e1, e2 [, e3] *)
| While                (* DO WHILE (e) *)
| Concurrent.          (* DO CONCURRENT *)

Inductive CaseValueRange :=
| CaseValue
| Range (lower upper : bool).

Inductive CaseSelector :=
| CaseRanges (ranges : list CaseValueRange)
| CaseDefault.

Inductive Rank := RankExpr | RankStar | RankDefault.
Inductive Guard := GuardTypeSpec | GuardDerivedTypeSpec | GuardDefault.

(** An element of a [parser::Block].  Each construct carries the optional
    construct name of its first statement and the blocks that the analyzer
    walks; a statement that is not an action statement (FORMAT, DATA, ...)
    only matters through its label.  Inside WHERE and FORALL the analyzer
    meets no action statement: their bodies are kept as the labels of the
    statements in them. *)
Inductive ExecutionPartConstruct :=
| Statement (label : option Label) (statement : ActionStmt)
| OtherStatement (label : option Label)
| AssociateConstruct (name : option NameRef) (associations : nat)
    (block : list ExecutionPartConstruct)
| BlockConstruct (name : option NameRef) (block : list ExecutionPartConstruct)
| CaseConstruct (name : option NameRef)
    (cases : list (CaseSelector * list ExecutionPartConstruct))
| ChangeTeamConstruct (name : option NameRef)
    (block : list ExecutionPartConstruct)
| CriticalConstruct (name : option NameRef)
    (block : list ExecutionPartConstruct)
| DoConstruct (doStmt : DoRef) (name : option NameRef)
    (control : option LoopControl) (block : list ExecutionPartConstruct)
| IfConstruct (name : option NameRef) (block : list ExecutionPartConstruct)
    (elseIfs : list (list ExecutionPartConstruct))
    (elseBlock : option (list ExecutionPartConstruct))
| SelectRankConstruct (name : option NameRef)
    (cases : list (Rank * list ExecutionPartConstruct))
| SelectTypeConstruct (name : option NameRef)
    (cases : list (Guard * list ExecutionPartConstruct))
| WhereConstruct (name : option NameRef) (labels : list (option Label))
| ForallConstruct (name : option NameRef) (labels : list (option Label)).

End parser.

(** ** The IR: [lib/FIR/basicblock.cc], [lib/FIR/builder.h] *)

Module FIR.

Abbreviation BlockRef := nat (only parsing).
Abbreviation RegionRef := nat (only parsing).

Inductive InputOutputCallType :=
| InputOutputCallBackspace | InputOutputCallClose | InputOutputCallEndfile
| InputOutputCallFlush | InputOutputCallInquire | InputOutputCallOpen
| InputOutputCallPrint | InputOutputCallRead | InputOutputCallRewind
| InputOutputCallWait | InputOutputCallWrite.

Inductive RuntimeCallType :=
| RuntimeCallFailImage | RuntimeCallStop | RuntimeCallPause
| RuntimeCallFormTeam | RuntimeCallEventPost | RuntimeCallEventWait
| RuntimeCallSyncAll | RuntimeCallSyncImages | RuntimeCallSyncMemory
| RuntimeCallSyncTeam | RuntimeCallLock | RuntimeCallUnlock.

Inductive SwitchKind := Switch | SwitchCase | SwitchType | SwitchRank.

(** The statements the builder creates.  Operands that are expressions or
    other statements are left out; the blocks a statement refers to are
    kept. *)
Inductive Statement :=
| AllocateInsn
| DeallocateInsn
| ApplyExprStmt
| LocateExprStmt
| LoadInsn
| StoreInsn (block : option BlockRef)   (* the block stored by ASSIGN, if any *)
| CallStmt
| IncrementStmt
| DoConditionStmt
| IORuntimeStmt (call : InputOutputCallType)
| RuntimeStmt (call : RuntimeCallType)
| DisassociateInsn
| BranchStmt (block : BlockRef)
| ConditionalBranchStmt (trueBlock falseBlock : BlockRef)
| IndirectBranchStmt (targets : list BlockRef)
| SwitchStmt (kind : SwitchKind) (defaultCase : BlockRef) (rest : list BlockRef)
| ReturnStmt
| UnreachableStmt.

(** [std::is_base_of_v<TerminatorStmt_impl, ...>]. *)
Definition isTerminator (s : Statement) : bool :=
  match s with
  | BranchStmt _ | ConditionalBranchStmt _ _ | IndirectBranchStmt _
  | SwitchStmt _ _ _ | ReturnStmt | UnreachableStmt => true
  | _ => false
  end.

(** Modelled from the spec: [succ_blocks()] of each terminator is declared in
    [statements.h], which is not among the sources.  A branch has its
    target, a conditional branch its two targets, an indirect branch its
    target list, a switch its default and then the block of each case, a
    return and an unreachable none. *)
Definition succ_blocks (s : Statement) : list BlockRef :=
  match s with
  | BranchStmt block => [block]
  | ConditionalBranchStmt trueBlock falseBlock => [trueBlock; falseBlock]
  | IndirectBranchStmt targets => targets
  | SwitchStmt _ defaultCase rest => defaultCase :: rest
  | _ => []
  end.

Record BasicBlock := {
  parent : RegionRef;
  statementList_ : list Statement;
  preds_ : list BlockRef
}.

Record Region := { enclosing : option RegionRef }.

(** [BasicBlock::BasicBlock(parentRegion)]: an empty block of the region. *)
Definition new_block (parentRegion : RegionRef) : BasicBlock :=
  {| parent := parentRegion; statementList_ := []; preds_ := [] |}.

(** [BasicBlock::insertBefore(stmt, nullptr)]: at the end of the block. *)
Definition push_back (stmt : Statement) (block : BasicBlock) : BasicBlock :=
  {| parent := parent block;
     statementList_ := statementList_ block ++ [stmt];
     preds_ := preds_ block |}.

(** [BasicBlock::addPred]. *)
Definition addPred (bb : BlockRef) (block : BasicBlock) : BasicBlock :=
  if decide (bb ∈ preds_ block) then block
  else {| parent := parent block;
          statementList_ := statementList_ block;
          preds_ := preds_ block ++ [bb] |}.

(** [BasicBlock::terminator()]: the last statement when it is a
    terminator. *)
Definition terminator (block : BasicBlock) : option Statement :=
  match last (statementList_ block) with
  | Some stmt => if isTerminator stmt then Some stmt else None
  | None => None
  end.

End FIR.

(** ** A state monad with failure

    The lowering threads mutable state through many calls and can stop at
    a failed check.  [StateM S A] is a computation on a state [S] that
    returns an [A] or stops ([None]). *)

Definition StateM (S A : Type) : Type := S -> option (A * S).

Definition ret {S A} (a : A) : StateM S A := fun st => Some (a, st).
Definition bind {S A B} (m : StateM S A) (f : A -> StateM S B) : StateM S B :=
  fun st => match m st with
            | Some (a, st') => f a st'
            | None => None
            end.
(** A failed [CHECK], [SEMANTICS_FAILED], [WRONG_PATH], or undefined
    behaviour. *)
Definition die {S A} : StateM S A := fun _ => None.
Definition gets {S A} (f : S -> A) : StateM S A := fun st => Some (f st, st).
Definition modify {S} (f : S -> S) : StateM S unit := fun st => Some (tt, f st).

Notation "x <~ m ;; k" := (bind m (fun x => k))
  (at level 100, m at next level, right associativity).
Notation "m ;;; k" := (bind m (fun _ => k))
  (at level 100, right associativity).

(** The elements of a container, handled in order. *)
Fixpoint for_each {S A} (f : A -> StateM S unit) (l : list A) : StateM S unit :=
  match l with
  | [] => ret tt
  | a :: l' => f a ;;; for_each f l'
  end.

Fixpoint map_each {S A B} (f : A -> StateM S B) (l : list A)
  : StateM S (list B) :=
  match l with
  | [] => ret []
  | a :: l' => b <~ f a ;; bs <~ map_each f l' ;; ret (b :: bs)
  end.

(** ** The linearizer and the builder of the control-flow graph *)

Module Afforestation.

Abbreviation LinearLabelRef := N (only parsing).
(** [constexpr LinearLabelRef unspecifiedLabel{~0u}]. *)
Definition unspecifiedLabel : N := 0xffffffff.
Definition unsigned_max_plus_1 : N := 2 ^ 32.

(** *** Linear operations *)

Inductive GotoSource := CycleStmt | ExitStmt | GotoStmt | LinearArtificial.
Inductive ReturnSource := FailImageStmt | ReturnStmt | StopStmt.

Inductive ConditionSource :=
| IfThenStmt
| ElseIfStmt
| IfStmt
| NonLabelDoStmt (doStmt : parser.DoRef) (control : option parser.LoopControl).

Inductive SwitchSource :=
| CallStmt
| ComputedGotoStmt
| ArithmeticIfStmt
| CaseConstruct (selectors : list parser.CaseSelector)
| SelectRankConstruct (ranks : list parser.Rank)
| SelectTypeConstruct (guards : list parser.Guard).

(** [CONSTRUCT_TYPES], each with what the builder reads of the construct. *)
Inductive Construct :=
| AssociateConstruct (associations : nat)
| BlockConstruct
| CaseConstructC
| ChangeTeamConstruct
| CriticalConstruct
| DoConstruct (doStmt : parser.DoRef) (control : option parser.LoopControl)
| IfConstruct
| SelectRankConstructC
| SelectTypeConstructC
| WhereConstruct
| ForallConstruct
| CompilerDirective
| OpenMPConstruct
| OpenMPEndLoopDirective.

Inductive LinearOp :=
| LinearLabel (label_ : LinearLabelRef)
| LinearGoto (u : GotoSource) (target : LinearLabelRef)
| LinearReturn (u : ReturnSource)
| LinearConditionalGoto (u : ConditionSource)
    (trueLabel falseLabel : LinearLabelRef)
| LinearSwitchingIO (u : parser.IoStmtKind) (next : LinearLabelRef)
    (errLabel eorLabel endLabel : option LinearLabelRef)
| LinearSwitch (u : SwitchSource) (refs : list LinearLabelRef)
| LinearAction (v : parser.ActionStmt)
| LinearBeginConstruct (u : Construct)
| LinearEndConstruct (u : Construct)
| LinearIndirectGoto (symbol : parser.SymbolPtr)
    (labelRefs : list LinearLabelRef)
| LinearDoIncrement (doStmt : parser.DoRef)
| LinearDoCompare (doStmt : parser.DoRef).

(** *** [AnalysisData] *)

(** [referenced] holds the labels whose bit is set; [counter] is an
    [unsigned]. *)
Record LinearLabelBuilder := {
  referenced : gset N;
  counter : N
}.

(** [assignMap] maps a symbol to a [std::set<parser::Label>], kept as the
    ascending list that iterating over the set yields. *)
Record AnalysisData := {
  labelMap : gmap N N;
  nameStack : list (option nat * N * N);
  labelBuilder : LinearLabelBuilder;
  assignMap : gmap nat (list N)
}.

Definition with_labelBuilder (b : LinearLabelBuilder) (ad : AnalysisData)
  : AnalysisData :=
  {| labelMap := labelMap ad; nameStack := nameStack ad; labelBuilder := b;
     assignMap := assignMap ad |}.
Definition with_labelMap (m : gmap N N) (ad : AnalysisData) : AnalysisData :=
  {| labelMap := m; nameStack := nameStack ad;
     labelBuilder := labelBuilder ad; assignMap := assignMap ad |}.
Definition with_nameStack (s : list (option nat * N * N)) (ad : AnalysisData)
  : AnalysisData :=
  {| labelMap := labelMap ad; nameStack := s;
     labelBuilder := labelBuilder ad; assignMap := assignMap ad |}.
Definition with_assignMap (m : gmap nat (list N)) (ad : AnalysisData)
  : AnalysisData :=
  {| labelMap := labelMap ad; nameStack := nameStack ad;
     labelBuilder := labelBuilder ad; assignMap := m |}.

Definition empty_AnalysisData : AnalysisData :=
  {| labelMap := ∅; nameStack := [];
     labelBuilder := {| referenced := ∅; counter := 0 |};
     assignMap := ∅ |}.

(** [LinearLabelBuilder::getNext]. *)
Definition getNext (b : LinearLabelBuilder) : N * LinearLabelBuilder :=
  let next := counter b in
  (next, {| referenced := referenced b ∖ {[next]};
            counter := (next + 1) mod unsigned_max_plus_1 |}).

Definition setReferenced_in (label : N) (b : LinearLabelBuilder)
  : LinearLabelBuilder :=
  {| referenced := {[label]} ∪ referenced b; counter := counter b |}.

Abbreviation Analysis := (StateM AnalysisData) (only parsing).

(** [BuildNewLabel]: [LinearLabel{ad.labelBuilder}]. *)
Definition BuildNewLabel : Analysis N :=
  fun ad => let '(next, b) := getNext (labelBuilder ad) in
            Some (next, with_labelBuilder b ad).

Definition setReferenced (label : N) : Analysis unit :=
  modify (fun ad => with_labelBuilder (setReferenced_in label (labelBuilder ad)) ad).

(** [std::set::insert] on the ascending list. *)
Fixpoint set_insert (x : N) (s : list N) : list N :=
  match s with
  | [] => [x]
  | y :: s' =>
      if x <? y then x :: y :: s'
      else if x =? y then y :: s'
      else y :: set_insert x s'
  end.

(** [ad.assignMap[symbol].insert(label)]. *)
Definition AddAssign (symbol : nat) (label : N) : Analysis unit :=
  modify (fun ad =>
    with_assignMap
      (<[symbol := set_insert label (default [] (assignMap ad !! symbol))]>
         (assignMap ad)) ad).

(** [GetAssign]: [operator[]] creates the entry of a symbol that has none,
    and each [parser::Label] is converted to an [unsigned]. *)
Definition GetAssign (symbol : nat) : Analysis (list N) :=
  fun ad =>
    let labels := default [] (assignMap ad !! symbol) in
    Some (map (fun lab => lab mod unsigned_max_plus_1) labels,
          with_assignMap (<[symbol := labels]> (assignMap ad)) ad).

Definition FetchLabel (label : N) : Analysis N :=
  iter <~ gets (fun ad => labelMap ad !! label) ;;
  match iter with
  | None =>
      ll <~ BuildNewLabel ;;
      setReferenced ll ;;;
      modify (fun ad => with_labelMap (<[label := ll]> (labelMap ad)) ad) ;;;
      ret ll
  | Some ll => ret ll
  end.

(** [ControlFlowAnalyzer::findLabel]. *)
Definition findLabel (lab : N) : Analysis LinearOp :=
  iter <~ gets (fun ad => labelMap ad !! lab) ;;
  match iter with
  | None =>
      ll <~ BuildNewLabel ;;
      modify (fun ad => with_labelMap (<[lab := ll]> (labelMap ad)) ad) ;;;
      ret (LinearLabel ll)
  | Some ll => ret (LinearLabel ll)
  end.

(** [FindStack]: the innermost entry whose name pointer is [key]. *)
Fixpoint FindStack_from_top (stack : list (option nat * N * N))
  (key : option nat) : option (option nat * N * N) :=
  match stack with
  | [] => None
  | entry :: rest =>
      if bool_decide (entry.1.1 = key) then Some entry
      else FindStack_from_top rest key
  end.

Definition FindStack (key : option nat) : Analysis (option nat * N * N) :=
  stack <~ gets nameStack ;;
  match FindStack_from_top (rev stack) key with
  | Some entry => ret entry
  | None => die          (* SEMANTICS_FAILED("construct name not on stack") *)
  end.

Fixpoint GetErr_in (specs : list parser.IoSpec) : N :=
  match specs with
  | [] => 0
  | parser.ErrLabel v :: _ => v
  | _ :: rest => GetErr_in rest
  end.
Fixpoint GetEor_in (specs : list parser.IoSpec) : N :=
  match specs with
  | [] => 0
  | parser.EorLabel v :: _ => v
  | _ :: rest => GetEor_in rest
  end.
Fixpoint GetEnd_in (specs : list parser.IoSpec) : N :=
  match specs with
  | [] => 0
  | parser.EndLabel v :: _ => v
  | _ :: rest => GetEnd_in rest
  end.

Definition GetErr (kind : parser.IoStmtKind) (specs : list parser.IoSpec) : N :=
  GetErr_in specs.

(** Only READ, WRITE and WAIT are searched for EOR= and END=. *)
Definition GetEor (kind : parser.IoStmtKind) (specs : list parser.IoSpec) : N :=
  match kind with
  | parser.ReadStmt | parser.WriteStmt | parser.WaitStmt => GetEor_in specs
  | _ => 0
  end.
Definition GetEnd (kind : parser.IoStmtKind) (specs : list parser.IoSpec) : N :=
  match kind with
  | parser.ReadStmt | parser.WriteStmt | parser.WaitStmt => GetEnd_in specs
  | _ => 0
  end.

(** [if (lab) ref = FetchLabel(ad, lab).get()]. *)
Definition fetch_if_present (lab : N) : Analysis (option N) :=
  if lab =? 0 then ret None else ref <~ FetchLabel lab ;; ret (Some ref).

Definition errLabelSpec (kind : parser.IoStmtKind) (specs : list parser.IoSpec)
  (ec : parser.ActionStmt) : Analysis (list LinearOp) :=
  let errLab := GetErr kind specs in
  if errLab =? 0 then ret [LinearAction ec]
  else
    errRef <~ FetchLabel errLab ;;
    next <~ BuildNewLabel ;;
    ret [LinearSwitchingIO kind next (Some errRef) None None; LinearLabel next].

Definition threeLabelSpec (kind : parser.IoStmtKind)
  (specs : list parser.IoSpec) (ec : parser.ActionStmt)
  : Analysis (list LinearOp) :=
  let errLab := GetErr kind specs in
  let eorLab := GetEor kind specs in
  let endLab := GetEnd kind specs in
  if (errLab =? 0) && (eorLab =? 0) && (endLab =? 0) then ret [LinearAction ec]
  else
    errRef <~ fetch_if_present errLab ;;
    eorRef <~ fetch_if_present eorLab ;;
    endRef <~ fetch_if_present endLab ;;
    next <~ BuildNewLabel ;;
    ret [LinearSwitchingIO kind next errRef eorRef endRef; LinearLabel next].

Definition toLabelRef (labels : list N) : Analysis (list N) :=
  map_each FetchLabel labels.

(** [NearestEnclosingDoConstruct]: the third component of the innermost
    entry that has one. *)
Fixpoint NearestEnclosingDoConstruct_from_top
  (stack : list (option nat * N * N)) : option N :=
  match stack with
  | [] => None
  | entry :: rest =>
      let labelReference := entry.2 in
      if bool_decide (labelReference <> unspecifiedLabel) then
        Some labelReference
      else NearestEnclosingDoConstruct_from_top rest
  end.

Definition NearestEnclosingDoConstruct : Analysis N :=
  stack <~ gets nameStack ;;
  match NearestEnclosingDoConstruct_from_top (rev stack) with
  | Some labelReference => ret labelReference
  | None => die               (* SEMANTICS_FAILED("CYCLE|EXIT not in loop") *)
  end.

(** [LinearOp::Build]: the operations of one action statement. *)
Definition Build (ec : parser.ActionStmt) : Analysis (list LinearOp) :=
  match ec with
  | parser.CallStmt altReturns =>
      match altReturns with
      | _ :: _ =>
          next <~ BuildNewLabel ;;
          labels <~ toLabelRef altReturns ;;
          ret [LinearSwitch CallStmt (labels ++ [next]); LinearLabel next]
      | [] => ret [LinearAction ec]
      end
  | parser.AssignStmt symbol label =>
      AddAssign symbol label ;;; ret [LinearAction ec]
  | parser.CycleStmt v =>
      target <~ match v with
                | Some name => entry <~ FindStack (Some name) ;; ret entry.2
                | None => NearestEnclosingDoConstruct
                end ;;
      ret [LinearGoto CycleStmt target]
  | parser.ExitStmt v =>
      target <~ match v with
                | Some name => entry <~ FindStack (Some name) ;; ret entry.1.2
                | None => NearestEnclosingDoConstruct
                end ;;
      ret [LinearGoto ExitStmt target]
  | parser.GotoStmt v =>
      target <~ FetchLabel v ;; ret [LinearGoto GotoStmt target]
  | parser.FailImageStmt => ret [LinearReturn FailImageStmt]
  | parser.ReturnStmt => ret [LinearReturn ReturnStmt]
  | parser.StopStmt => ret [LinearAction ec; LinearReturn StopStmt]
  | parser.IoStmt kind specs =>
      match kind with
      | parser.ReadStmt | parser.WriteStmt | parser.WaitStmt =>
          threeLabelSpec kind specs ec
      | _ => errLabelSpec kind specs ec
      end
  | parser.InquireIolength => die     (* std::get of the other alternative *)
  | parser.ComputedGotoStmt labels =>
      next <~ BuildNewLabel ;;
      refs <~ toLabelRef labels ;;
      ret [LinearSwitch ComputedGotoStmt (refs ++ [next]); LinearLabel next]
  | parser.ArithmeticIfStmt l1 l2 l3 =>
      refs <~ toLabelRef [l1; l2; l3] ;;
      ret [LinearSwitch ArithmeticIfStmt refs]
  | parser.AssignedGotoStmt symbol labels =>
      refs <~ toLabelRef labels ;;
      ret [LinearIndirectGoto symbol refs]
  | parser.IfStmt =>
      then_ <~ BuildNewLabel ;;
      endif <~ BuildNewLabel ;;
      ret [LinearConditionalGoto IfStmt then_ endif; LinearLabel then_;
           LinearAction ec; LinearLabel endif]
  | _ => ret [LinearAction ec]
  end.

(** *** [ControlFlowAnalyzer] *)

(** [GetLabelRef(const LinearLabel &)]: marks the label referenced. *)
Definition GetLabelRef (label : N) : Analysis N :=
  setReferenced label ;;; ret label.

Definition push_name (name : option nat) (exit_ increment : N) : Analysis unit :=
  modify (fun ad => with_nameStack (nameStack ad ++ [(name, exit_, increment)]) ad).
Definition pop_name : Analysis unit :=
  modify (fun ad => with_nameStack (removelast (nameStack ad)) ad).

(** [Pre(const parser::Statement<A> &)] for the label of a statement. *)
Definition statement_label (label : option N) : Analysis (list LinearOp) :=
  match label with
  | Some lab => op <~ findLabel lab ;; ret [op]
  | None => ret []
  end.

Fixpoint labels_only (labels : list (option N)) : Analysis (list LinearOp) :=
  match labels with
  | [] => ret []
  | l :: rest =>
      ops <~ statement_label l ;; more <~ labels_only rest ;; ret (ops ++ more)
  end.

(** [Walk] over one element of a block, with the [Pre] functions of the
    analyzer.  The operations come back in the order in which the code
    appends them to [linearOps]. *)
Fixpoint Walk (c : parser.ExecutionPartConstruct) : Analysis (list LinearOp) :=
  let WalkBlock :=
    fix WalkBlock (block : list parser.ExecutionPartConstruct)
      : Analysis (list LinearOp) :=
      match block with
      | [] => ret []
      | c :: rest => ops <~ Walk c ;; more <~ WalkBlock rest ;; ret (ops ++ more)
      end in
  let linearConstruct (construct : Construct) (name : option nat)
        (block : list parser.ExecutionPartConstruct) :=
    label <~ BuildNewLabel ;;
    ref <~ GetLabelRef label ;;
    push_name name ref unspecifiedLabel ;;;
    body <~ WalkBlock block ;;
    pop_name ;;;
    ret (LinearBeginConstruct construct :: body
         ++ [LinearLabel label; LinearEndConstruct construct]) in
  let Multiway {A} (construct : Construct) (source : list A -> SwitchSource)
        (name : option nat)
        (cases : list (A * list parser.ExecutionPartConstruct)) :=
    exitLab <~ BuildNewLabel ;;
    ref <~ GetLabelRef exitLab ;;
    push_name name ref unspecifiedLabel ;;;
    body <~
      match cases with
      | [] => ret []
      | _ :: _ =>
          toLabels <~ map_each (fun _ => BuildNewLabel) cases ;;
          targets <~ map_each GetLabelRef toLabels ;;
          blocks <~
            (fix case_blocks
               (cases : list (A * list parser.ExecutionPartConstruct))
               (toLabels : list N) : Analysis (list LinearOp) :=
               match cases, toLabels with
               | caseBlock :: cases', toLabel :: toLabels' =>
                   ops <~ WalkBlock caseBlock.2 ;;
                   more <~ case_blocks cases' toLabels' ;;
                   ret (LinearLabel toLabel :: ops
                        ++ LinearGoto LinearArtificial exitLab :: more)
               | _, _ => ret []
               end) cases toLabels ;;
          ret (LinearSwitch (source (map fst cases)) targets :: blocks)
      end ;;
    pop_name ;;;
    ret (LinearBeginConstruct construct :: body
         ++ [LinearLabel exitLab; LinearEndConstruct construct]) in
  match c with
  | parser.Statement label statement =>
      ops <~ statement_label label ;;
      more <~ Build statement ;;
      ret (ops ++ more)
  | parser.OtherStatement label => statement_label label
  | parser.AssociateConstruct name associations block =>
      linearConstruct (AssociateConstruct associations) name block
  | parser.ChangeTeamConstruct name block =>
      linearConstruct ChangeTeamConstruct name block
  | parser.CriticalConstruct name block =>
      linearConstruct CriticalConstruct name block
  | parser.BlockConstruct name block =>
      label <~ BuildNewLabel ;;
      ref <~ GetLabelRef label ;;
      push_name name ref unspecifiedLabel ;;;
      body <~ WalkBlock block ;;
      pop_name ;;;
      ret (LinearBeginConstruct BlockConstruct :: body
           ++ [LinearEndConstruct BlockConstruct; LinearLabel label])
  | parser.DoConstruct doStmt name control block =>
      backedgeLab <~ BuildNewLabel ;;
      incrementLab <~ BuildNewLabel ;;
      entryLab <~ BuildNewLabel ;;
      exitLab <~ BuildNewLabel ;;
      exitOpRef <~ GetLabelRef exitLab ;;
      incrementRef <~ GetLabelRef incrementLab ;;
      push_name name exitOpRef incrementRef ;;;
      backedgeRef <~ GetLabelRef backedgeLab ;;
      entryRef <~ GetLabelRef entryLab ;;
      body <~ WalkBlock block ;;
      incrementRef' <~ GetLabelRef incrementLab ;;
      pop_name ;;;
      ret ([LinearBeginConstruct (DoConstruct doStmt control);
            LinearGoto LinearArtificial backedgeRef;
            LinearLabel incrementLab;
            LinearDoIncrement doStmt;
            LinearLabel backedgeLab;
            LinearDoCompare doStmt;
            LinearConditionalGoto (NonLabelDoStmt doStmt control)
              entryRef exitOpRef;
            LinearLabel entryLab]
           ++ body
           ++ [LinearGoto LinearArtificial incrementRef';
               LinearEndConstruct (DoConstruct doStmt control);
               LinearLabel exitLab])
  | parser.IfConstruct name block elseIfs elseBlock =>
      thenLab <~ BuildNewLabel ;;
      elseLab <~ BuildNewLabel ;;
      exitLab <~ BuildNewLabel ;;
      exitRef <~ GetLabelRef exitLab ;;
      push_name name exitRef unspecifiedLabel ;;;
      thenRef <~ GetLabelRef thenLab ;;
      elseRef <~ GetLabelRef elseLab ;;
      body <~ WalkBlock block ;;
      exitOpRef <~ GetLabelRef exitLab ;;
      rest <~
        (fix else_ifs (elseIfs : list (list parser.ExecutionPartConstruct))
           (elseLab : N) : Analysis (list LinearOp) :=
           match elseIfs with
           | [] =>
               ops <~ match elseBlock with
                      | Some block => WalkBlock block
                      | None => ret []
                      end ;;
               ret (LinearLabel elseLab :: ops)
           | elseIfBlock :: elseIfs' =>
               newThenLab <~ BuildNewLabel ;;
               newElseLab <~ BuildNewLabel ;;
               newThenRef <~ GetLabelRef newThenLab ;;
               newElseRef <~ GetLabelRef newElseLab ;;
               ops <~ WalkBlock elseIfBlock ;;
               more <~ else_ifs elseIfs' newElseLab ;;
               ret ([LinearLabel elseLab;
                     LinearConditionalGoto ElseIfStmt newThenRef newElseRef;
                     LinearLabel newThenLab]
                    ++ ops ++ LinearGoto LinearArtificial exitOpRef :: more)
           end) elseIfs elseLab ;;
      pop_name ;;;
      ret ([LinearBeginConstruct IfConstruct;
            LinearConditionalGoto IfThenStmt thenRef elseRef;
            LinearLabel thenLab]
           ++ body ++ LinearGoto LinearArtificial exitOpRef :: rest
           ++ [LinearGoto LinearArtificial exitOpRef; LinearLabel exitLab;
               LinearEndConstruct IfConstruct])
  | parser.CaseConstruct name cases =>
      Multiway CaseConstructC CaseConstruct name cases
  | parser.SelectRankConstruct name cases =>
      Multiway SelectRankConstructC SelectRankConstruct name cases
  | parser.SelectTypeConstruct name cases =>
      Multiway SelectTypeConstructC SelectTypeConstruct name cases
  | parser.WhereConstruct name labels =>
      label <~ BuildNewLabel ;;
      ref <~ GetLabelRef label ;;
      push_name name ref unspecifiedLabel ;;;
      body <~ labels_only labels ;;
      pop_name ;;;
      ret (LinearBeginConstruct WhereConstruct :: body
           ++ [LinearLabel label; LinearEndConstruct WhereConstruct])
  | parser.ForallConstruct name labels =>
      label <~ BuildNewLabel ;;
      ref <~ GetLabelRef label ;;
      push_name name ref unspecifiedLabel ;;;
      body <~ labels_only labels ;;
      pop_name ;;;
      ret (LinearBeginConstruct ForallConstruct :: body
           ++ [LinearLabel label; LinearEndConstruct ForallConstruct])
  end.

(** [Walk] over the body of a subprogram. *)
Fixpoint WalkAll (block : list parser.ExecutionPartConstruct)
  : Analysis (list LinearOp) :=
  match block with
  | [] => ret []
  | c :: rest => ops <~ Walk c ;; more <~ WalkAll rest ;; ret (ops ++ more)
  end.

(** *** [FortranIRLowering]: from linear operations to basic blocks *)

(** A deferred edge: the data bound into one closure of
    [controlFlowEdgesToAdd_].  [block] is the insertion point at the time
    of queueing; of the values of a switch only their number matters
    here. *)
Inductive Closure :=
| BranchArc (block : option nat) (dest : LinearLabelRef)
| ConditionalArc (block : option nat) (trueDest falseDest : LinearLabelRef)
| SwitchArc (kind : FIR.SwitchKind) (block : option nat)
    (defaultDest : LinearLabelRef) (values : nat) (labels : list LinearLabelRef)
| IndirectArc (block : option nat) (fixme : list LinearLabelRef).

Definition closure_block (arc : Closure) : option nat :=
  match arc with
  | BranchArc block _ | ConditionalArc block _ _ | SwitchArc _ block _ _ _
  | IndirectArc block _ => block
  end.

(** The procedure under construction (arenas of blocks and regions), the
    builder's cursor, and the members of [FortranIRLowering].  [doMap_]
    keeps the keys of the DO contexts. *)
Record FortranIRLowering := {
  blocks : list FIR.BasicBlock;
  regions : list FIR.Region;
  cursorRegion_ : option nat;
  cursorBlock_ : option nat;
  blockMap_ : gmap N (option nat);
  controlFlowEdgesToAdd_ : list Closure;
  doMap_ : gset nat;
  analysis : AnalysisData
}.

Definition with_blocks (b : list FIR.BasicBlock) (st : FortranIRLowering) :=
  {| blocks := b; regions := regions st; cursorRegion_ := cursorRegion_ st;
     cursorBlock_ := cursorBlock_ st; blockMap_ := blockMap_ st;
     controlFlowEdgesToAdd_ := controlFlowEdgesToAdd_ st;
     doMap_ := doMap_ st; analysis := analysis st |}.
Definition with_regions (r : list FIR.Region) (st : FortranIRLowering) :=
  {| blocks := blocks st; regions := r; cursorRegion_ := cursorRegion_ st;
     cursorBlock_ := cursorBlock_ st; blockMap_ := blockMap_ st;
     controlFlowEdgesToAdd_ := controlFlowEdgesToAdd_ st;
     doMap_ := doMap_ st; analysis := analysis st |}.
Definition with_cursor (r b : option nat) (st : FortranIRLowering) :=
  {| blocks := blocks st; regions := regions st; cursorRegion_ := r;
     cursorBlock_ := b; blockMap_ := blockMap_ st;
     controlFlowEdgesToAdd_ := controlFlowEdgesToAdd_ st;
     doMap_ := doMap_ st; analysis := analysis st |}.
Definition with_blockMap (m : gmap N (option nat)) (st : FortranIRLowering) :=
  {| blocks := blocks st; regions := regions st;
     cursorRegion_ := cursorRegion_ st; cursorBlock_ := cursorBlock_ st;
     blockMap_ := m; controlFlowEdgesToAdd_ := controlFlowEdgesToAdd_ st;
     doMap_ := doMap_ st; analysis := analysis st |}.
Definition with_edges (e : list Closure) (st : FortranIRLowering) :=
  {| blocks := blocks st; regions := regions st;
     cursorRegion_ := cursorRegion_ st; cursorBlock_ := cursorBlock_ st;
     blockMap_ := blockMap_ st; controlFlowEdgesToAdd_ := e;
     doMap_ := doMap_ st; analysis := analysis st |}.
Definition with_doMap (d : gset nat) (st : FortranIRLowering) :=
  {| blocks := blocks st; regions := regions st;
     cursorRegion_ := cursorRegion_ st; cursorBlock_ := cursorBlock_ st;
     blockMap_ := blockMap_ st;
     controlFlowEdgesToAdd_ := controlFlowEdgesToAdd_ st;
     doMap_ := d; analysis := analysis st |}.
Definition with_analysis (a : AnalysisData) (st : FortranIRLowering) :=
  {| blocks := blocks st; regions := regions st;
     cursorRegion_ := cursorRegion_ st; cursorBlock_ := cursorBlock_ st;
     blockMap_ := blockMap_ st;
     controlFlowEdgesToAdd_ := controlFlowEdgesToAdd_ st;
     doMap_ := doMap_ st; analysis := a |}.

Abbreviation Lowering := (StateM FortranIRLowering) (only parsing).

(** A computation on the [AnalysisData &] that the lowering holds. *)
Definition on_analysis {A} (m : StateM AnalysisData A) : Lowering A :=
  fun st => match m (analysis st) with
            | Some (a, ad) => Some (a, with_analysis ad st)
            | None => None
            end.

(** **** [FIRBuilder] *)

Definition GetInsertionPoint : Lowering (option nat) := gets cursorBlock_.
Definition GetCurrentRegion : Lowering (option nat) := gets cursorRegion_.
Definition SetCurrentRegion (region : option nat) : Lowering unit :=
  modify (fun st => with_cursor region (cursorBlock_ st) st).
Definition ClearInsertionPoint : Lowering unit :=
  modify (fun st => with_cursor (cursorRegion_ st) None st).

(** [cursorBlock_ = bb; cursorRegion_ = bb->getParent();] *)
Definition SetInsertionPoint (bb : option nat) : Lowering unit :=
  fun st =>
    match bb with
    | None => None
    | Some b =>
        match blocks st !! b with
        | None => None
        | Some block => Some (tt, with_cursor (Some (FIR.parent block)) bb st)
        end
    end.

(** [BasicBlock::Create(region)]. *)
Definition CreateBlock (region : option nat) : Lowering nat :=
  fun st =>
    match region with
    | None => None
    | Some r =>
        Some (length (blocks st),
              with_blocks (blocks st ++ [FIR.new_block r]) st)
    end.

(** [Region::Create(parent, scope, enclosing)]. *)
Definition Region_Create (outer : option nat) : Lowering nat :=
  fun st =>
    Some (length (regions st),
          with_regions (regions st ++ [{| FIR.enclosing := outer |}]) st).

(** [Insert]: [CHECK(GetInsertionPoint())], then the statement is appended
    to the block of the cursor. *)
Definition Insert (s : FIR.Statement) : Lowering unit :=
  fun st =>
    match cursorBlock_ st with
    | None => None
    | Some b =>
        match blocks st !! b with
        | None => None
        | Some _ =>
            Some (tt, with_blocks (alter (FIR.push_back s) b (blocks st)) st)
        end
    end.

(** [block->addPred(GetInsertionPoint())]. *)
Definition addPred_of_cursor (block : nat) : Lowering unit :=
  fun st =>
    match cursorBlock_ st, blocks st !! block with
    | Some c, Some _ =>
        Some (tt, with_blocks (alter (FIR.addPred c) block (blocks st)) st)
    | _, _ => None
    end.

Definition InsertTerminator (s : FIR.Statement) : Lowering unit :=
  Insert s ;;; for_each addPred_of_cursor (FIR.succ_blocks s).

Definition CreateAlloc := Insert FIR.AllocateInsn.
Definition CreateDealloc := Insert FIR.DeallocateInsn.
Definition CreateExpr := Insert FIR.ApplyExprStmt.
Definition CreateAddr := Insert FIR.LocateExprStmt.
Definition CreateLoad := Insert FIR.LoadInsn.
Definition CreateStore := Insert (FIR.StoreInsn None).
Definition CreateStoreBlock (value : nat) := Insert (FIR.StoreInsn (Some value)).
Definition CreateCall := Insert FIR.CallStmt.
Definition CreateIncrement := Insert FIR.IncrementStmt.
Definition CreateDoCondition := Insert FIR.DoConditionStmt.
Definition CreateIOCall (c : FIR.InputOutputCallType) := Insert (FIR.IORuntimeStmt c).
Definition CreateRuntimeCall (c : FIR.RuntimeCallType) := Insert (FIR.RuntimeStmt c).
Definition CreateNullify := Insert FIR.DisassociateInsn.

(** The targets of a terminator are [BasicBlock *]: a null one is
    dereferenced by [addPred]. *)
Definition CreateBranch (block : option nat) : Lowering unit :=
  match block with
  | Some b => InsertTerminator (FIR.BranchStmt b)
  | None => die
  end.
Definition CreateConditionalBranch (trueBlock falseBlock : option nat)
  : Lowering unit :=
  match trueBlock, falseBlock with
  | Some t, Some f => InsertTerminator (FIR.ConditionalBranchStmt t f)
  | _, _ => die
  end.
(** [sequence l]: the blocks when none of them is null. *)
Fixpoint non_null (l : list (option nat)) : option (list nat) :=
  match l with
  | [] => Some []
  | Some b :: l' => (fun bs => b :: bs) <$> non_null l'
  | None :: _ => None
  end.
Definition CreateIndirectBr (targets : list (option nat)) : Lowering unit :=
  match non_null targets with
  | Some bs => InsertTerminator (FIR.IndirectBranchStmt bs)
  | None => die
  end.
Definition CreateSwitchOf (kind : FIR.SwitchKind) (defaultCase : option nat)
  (rest : list (option nat)) : Lowering unit :=
  match defaultCase, non_null rest with
  | Some d, Some bs => InsertTerminator (FIR.SwitchStmt kind d bs)
  | _, _ => die
  end.
Definition CreateReturn := InsertTerminator FIR.ReturnStmt.
Definition CreateUnreachable := InsertTerminator FIR.UnreachableStmt.

(** **** Regions and the cursor *)

Definition CheckInsertionPoint : Lowering unit :=
  cursor <~ GetInsertionPoint ;;
  match cursor with
  | Some _ => ret tt
  | None =>
      region <~ GetCurrentRegion ;;
      block <~ CreateBlock region ;;
      SetInsertionPoint (Some block)
  end.

Definition EnterRegion : Lowering unit :=
  region <~ GetCurrentRegion ;;
  match region with
  | None => die                           (* region->getParent() *)
  | Some _ =>
      newRegion <~ Region_Create region ;;
      block <~ CreateBlock (Some newRegion) ;;
      CheckInsertionPoint ;;;
      CreateBranch (Some block) ;;;
      SetInsertionPoint (Some block)
  end.

Definition ExitRegion : Lowering unit :=
  region <~ GetCurrentRegion ;;
  match region with
  | None => die
  | Some r =>
      found <~ gets (fun st => regions st !! r) ;;
      match found with
      | None => die
      | Some reg => SetCurrentRegion (FIR.enclosing reg)
      end
  end.

(** **** The label map and the deferred edges *)

(** [blockMap_.insert({label, block})]: an entry that exists is kept. *)
Definition blockMap_insert (label : N) (block : option nat) : Lowering unit :=
  modify (fun st =>
    match blockMap_ st !! label with
    | Some _ => st
    | None => with_blockMap (<[label := block]> (blockMap_ st)) st
    end).

Definition blockMap_find (label : N) : Lowering (option (option nat)) :=
  gets (fun st => blockMap_ st !! label).

(** [controlFlowEdgesToAdd_.emplace_back(std::bind(...,
    builder_->GetInsertionPoint(), ...))]. *)
Definition enqueue (arc : option nat -> Closure) : Lowering unit :=
  modify (fun st =>
    with_edges (controlFlowEdgesToAdd_ st ++ [arc (cursorBlock_ st)]) st).

(** [map.find(lab)->second] for each label: undefined when a label is
    missing. *)
Definition find_all (labels : list N) : Lowering (list (option nat)) :=
  map_each (fun lab =>
    found <~ blockMap_find lab ;;
    match found with Some block => ret block | None => die end) labels.

Definition AddOrQueueBranch (dest : N) : Lowering unit :=
  iter <~ blockMap_find dest ;;
  match iter with
  | Some block => CreateBranch block
  | None => enqueue (fun block => BranchArc block dest)
  end.

Definition AddOrQueueCGoto (trueBlock falseBlock : N) : Lowering unit :=
  trueIter <~ blockMap_find trueBlock ;;
  falseIter <~ blockMap_find falseBlock ;;
  match trueIter, falseIter with
  | Some t, Some f => CreateConditionalBranch t f
  | _, _ => enqueue (fun block => ConditionalArc block trueBlock falseBlock)
  end.

(** The scan of [AddOrQueueSwitch] over the labels: the blocks found, or
    [None] at the first label without a block. *)
Fixpoint known_blocks (m : gmap N (option nat)) (labels : list N)
  : option (list (option nat)) :=
  match labels with
  | [] => Some []
  | lab :: labels' =>
      match m !! lab with
      | None => None
      | Some block => (fun bs => block :: bs) <$> known_blocks m labels'
      end
  end.

Definition AddOrQueueSwitch (kind : FIR.SwitchKind) (defaultLabel : N)
  (values : nat) (labels : list N) : Lowering unit :=
  defaultIter <~ blockMap_find defaultLabel ;;
  match defaultIter with
  | None => enqueue (fun block => SwitchArc kind block defaultLabel values labels)
  | Some defaultBlock =>
      if bool_decide (values = length labels) then
        m <~ gets blockMap_ ;;
        match known_blocks m labels with
        | None =>
            enqueue (fun block => SwitchArc kind block defaultLabel values labels)
        | Some cases => CreateSwitchOf kind defaultBlock cases
        end
      else die                       (* CHECK(values.size() == labels.size()) *)
  end.

Definition AddOrQueueIGoto (symbol : nat) (labels : list N) : Lowering unit :=
  useLabels <~ match labels with
               | [] => on_analysis (GetAssign symbol)
               | _ :: _ => ret labels
               end ;;
  m <~ gets blockMap_ ;;
  match known_blocks m useLabels with
  | None => enqueue (fun block => IndirectArc block useLabels)
  | Some blocks => CreateIndirectBr blocks
  end.

(** One closure of [controlFlowEdgesToAdd_], called with the label map. *)
Definition run_closure (arc : Closure) : Lowering unit :=
  match arc with
  | BranchArc block dest =>
      SetInsertionPoint block ;;;
      found <~ blockMap_find dest ;;
      match found with
      | None => die                  (* CHECK(map.find(dest) != map.end()) *)
      | Some target => CreateBranch target
      end
  | ConditionalArc block trueDest falseDest =>
      SetInsertionPoint block ;;;
      t <~ blockMap_find trueDest ;;
      f <~ blockMap_find falseDest ;;
      match t, f with
      | Some t, Some f => CreateConditionalBranch t f
      | _, _ => die
      end
  | SwitchArc kind block defaultDest values labels =>
      SetInsertionPoint block ;;;
      (if bool_decide (length labels <= values)%nat then ret tt
       else die) ;;;                 (* [*valiter++] past the end *)
      cases <~ find_all labels ;;
      d <~ blockMap_find defaultDest ;;
      match d with
      | None => die
      | Some defaultBlock => CreateSwitchOf kind defaultBlock cases
      end
  | IndirectArc block _ =>
      SetInsertionPoint block ;;; CreateIndirectBr []
  end.

Definition DrawRemainingArcs : Lowering unit :=
  arcs <~ gets controlFlowEdgesToAdd_ ;;
  for_each run_closure arcs.

(** **** Action statements *)

Fixpoint repeat_n {S} (n : nat) (m : StateM S unit) : StateM S unit :=
  match n with
  | O => ret tt
  | S n' => m ;;; repeat_n n' m
  end.

Definition InputOutputCall (kind : parser.IoStmtKind) : FIR.InputOutputCallType :=
  match kind with
  | parser.ReadStmt => FIR.InputOutputCallRead
  | parser.WriteStmt => FIR.InputOutputCallWrite
  | parser.WaitStmt => FIR.InputOutputCallWait
  | parser.OpenStmt => FIR.InputOutputCallOpen
  | parser.CloseStmt => FIR.InputOutputCallClose
  | parser.BackspaceStmt => FIR.InputOutputCallBackspace
  | parser.EndfileStmt => FIR.InputOutputCallEndfile
  | parser.RewindStmt => FIR.InputOutputCallRewind
  | parser.FlushStmt => FIR.InputOutputCallFlush
  | parser.InquireStmt => FIR.InputOutputCallInquire
  end.

Definition RuntimeCall (kind : parser.RuntimeStmtKind) : FIR.RuntimeCallType :=
  match kind with
  | parser.EventPostStmt => FIR.RuntimeCallEventPost
  | parser.EventWaitStmt => FIR.RuntimeCallEventWait
  | parser.FormTeamStmt => FIR.RuntimeCallFormTeam
  | parser.LockStmt => FIR.RuntimeCallLock
  | parser.PauseStmt => FIR.RuntimeCallPause
  | parser.SyncAllStmt => FIR.RuntimeCallSyncAll
  | parser.SyncImagesStmt => FIR.RuntimeCallSyncImages
  | parser.SyncMemoryStmt => FIR.RuntimeCallSyncMemory
  | parser.SyncTeamStmt => FIR.RuntimeCallSyncTeam
  | parser.UnlockStmt => FIR.RuntimeCallUnlock
  end.

Definition handleActionStatement (stmt : parser.ActionStmt) : Lowering unit :=
  match stmt with
  | parser.AllocateStmt allocations => repeat_n allocations CreateAlloc
  | parser.AssignmentStmt => CreateExpr ;;; CreateAddr ;;; CreateStore
  | parser.CallStmt _ => CreateCall
  | parser.DeallocateStmt objects => repeat_n objects CreateDealloc
  | parser.FailImageStmt => CreateRuntimeCall FIR.RuntimeCallFailImage
  | parser.IoStmt kind _ => CreateIOCall (InputOutputCall kind)
  | parser.InquireIolength => CreateIOCall FIR.InputOutputCallInquire
  | parser.NullifyStmt objects => repeat_n objects (CreateAddr ;;; CreateNullify)
  | parser.PointerAssignmentStmt => CreateAddr ;;; CreateAddr ;;; CreateStore
  | parser.PrintStmt => CreateIOCall FIR.InputOutputCallPrint
  | parser.RuntimeStmt kind => CreateRuntimeCall (RuntimeCall kind)
  | parser.StopStmt => CreateRuntimeCall FIR.RuntimeCallStop
  | parser.WhereStmt => ret tt
  | parser.ForallStmt => ret tt
  | parser.AssignStmt _ label =>
      CreateAddr ;;;
      ref <~ on_analysis (FetchLabel label) ;;
      found <~ blockMap_find ref ;;
      match found with
      | Some (Some block) => CreateStoreBlock block
      | Some None => CreateStore
      | None => die                  (* blockMap_.find(...)->second *)
      end
  | parser.ContinueStmt | parser.CycleStmt _ | parser.ExitStmt _
  | parser.GotoStmt _ | parser.IfStmt | parser.ReturnStmt
  | parser.ComputedGotoStmt _ | parser.ArithmeticIfStmt _ _ _
  | parser.AssignedGotoStmt _ _ => die                       (* WRONG_PATH() *)
  end.

(** **** DO loops *)

Definition PushDoContext (doStmt : nat) : Lowering unit :=
  modify (fun st => with_doMap ({[doStmt]} ∪ doMap_ st) st).
Definition PopDoContext (doStmt : nat) : Lowering unit :=
  modify (fun st => with_doMap (doMap_ st ∖ {[doStmt]}) st).
(** [GetBoundsInfo]: [CHECK(false && "DO context not present")]. *)
Definition GetBoundsInfo (doStmt : nat) : Lowering unit :=
  present <~ gets (fun st => bool_decide (doStmt ∈ doMap_ st)) ;;
  if present then ret tt else die.

Definition handleLinearDoIncrement (doStmt : nat) : Lowering unit :=
  GetBoundsInfo doStmt ;;; CreateLoad ;;; CreateIncrement.
Definition handleLinearDoCompare (doStmt : nat) : Lowering unit :=
  GetBoundsInfo doStmt ;;; CreateLoad ;;; CreateDoCondition.

Definition InitiateConstruct_Do (doStmt : nat)
  (control : option parser.LoopControl) : Lowering unit :=
  match control with
  | Some parser.LoopBounds =>
      CreateAddr ;;; CreateExpr ;;; CreateExpr ;;; CreateExpr ;;;
      CreateStore ;;; PushDoContext doStmt
  | _ => ret tt
  end.

Definition FinishConstruct (doStmt : nat)
  (control : option parser.LoopControl) : Lowering unit :=
  match control with
  | Some parser.LoopBounds => PopDoContext doStmt
  | _ => ret tt
  end.

(** [BuildLoopLatchExpression]: for a counted loop the condition recorded
    in the DO context, [doMap_.find(stmt)->second.condition]. *)
Definition BuildLoopLatchExpression (doStmt : nat)
  (control : option parser.LoopControl) : Lowering unit :=
  match control with
  | Some parser.LoopBounds => GetBoundsInfo doStmt
  | _ => CreateExpr
  end.

(** **** Multiway branches *)

(** [cleanupSwitchPairs] after its [CHECK]: the label of the first default
    value becomes the default label and the pair is removed. *)
Fixpoint remove_default (isDefault : list bool) (labels : list N)
  : option (N * list bool * list N) :=
  match isDefault, labels with
  | d :: ds, l :: ls =>
      if d then Some (l, ds, ls)
      else match remove_default ds ls with
           | Some (defLab, ds', ls') => Some (defLab, d :: ds', l :: ls')
           | None => None
           end
  | _, _ => None
  end.

Definition cleanupSwitchPairs (isDefault : list bool) (labels : list N)
  : Lowering (N * nat * list N) :=
  if bool_decide (length isDefault = length labels) then
    match remove_default isDefault labels with
    | Some (defLab, ds, ls) => ret (defLab, length ds, ls)
    | None => ret (unspecifiedLabel, length isDefault, labels)
    end
  else die.

(** [buildMultiwayDefaultNext]: [labels.back()] and [labels.pop_back()]. *)
Definition buildMultiwayDefaultNext (labels : list N) : Lowering (N * list N) :=
  match last labels with
  | Some defLab => ret (defLab, removelast labels)
  | None => die
  end.

(** The [MakeAsExpr] calls of [populateSwitchValues] for one case. *)
Definition populate_case (selector : parser.CaseSelector) : Lowering bool :=
  match selector with
  | parser.CaseDefault => ret true
  | parser.CaseRanges ranges =>
      for_each (fun r =>
        match r with
        | parser.CaseValue => CreateExpr
        | parser.Range true true => CreateExpr ;;; CreateExpr
        | parser.Range true false => CreateExpr
        | parser.Range false true => CreateExpr
        | parser.Range false false => die        (* range.upper-> of nothing *)
        end) ranges ;;;
      ret false
  end.

Definition handleLinearSwitch (u : SwitchSource) (refs : list N)
  : Lowering unit :=
  match u with
  | ComputedGotoStmt =>
      CreateExpr ;;;
      args <~ buildMultiwayDefaultNext refs ;;
      AddOrQueueSwitch FIR.Switch args.1 0 args.2
  | ArithmeticIfStmt =>
      CreateExpr ;;; AddOrQueueSwitch FIR.Switch unspecifiedLabel 0 refs
  | CallStmt =>
      args <~ buildMultiwayDefaultNext refs ;;
      AddOrQueueSwitch FIR.Switch args.1 0 args.2
  | CaseConstruct selectors =>
      CreateExpr ;;;
      isDefault <~ map_each populate_case selectors ;;
      args <~ cleanupSwitchPairs isDefault refs ;;
      AddOrQueueSwitch FIR.SwitchCase args.1.1 args.1.2 args.2
  | SelectRankConstruct ranks =>
      CreateExpr ;;;
      args <~ cleanupSwitchPairs
                (map (fun r => match r with parser.RankDefault => true
                                          | _ => false end) ranks) refs ;;
      AddOrQueueSwitch FIR.SwitchRank args.1.1 args.1.2 args.2
  | SelectTypeConstruct guards =>
      CreateExpr ;;;
      args <~ cleanupSwitchPairs
                (map (fun g => match g with parser.GuardDefault => true
                                          | _ => false end) guards) refs ;;
      AddOrQueueSwitch FIR.SwitchType args.1.1 args.1.2 args.2
  end.

(** **** [ConstructFIR] *)

Definition handleBeginConstruct (u : Construct) : Lowering unit :=
  match u with
  | AssociateConstruct associations =>
      EnterRegion ;;;
      repeat_n associations (CreateExpr ;;; CreateAddr ;;; CreateStore)
  | BlockConstruct => EnterRegion
  | CaseConstructC => CreateExpr
  | ChangeTeamConstruct => EnterRegion
  | DoConstruct doStmt control =>
      EnterRegion ;;; InitiateConstruct_Do doStmt control
  | IfConstruct => CreateExpr
  | SelectRankConstructC => EnterRegion
  | SelectTypeConstructC => EnterRegion
  | WhereConstruct => CreateExpr
  | ForallConstruct | CriticalConstruct | CompilerDirective | OpenMPConstruct
  | OpenMPEndLoopDirective => ret tt
  end.

Definition handleEndConstruct (u : Construct) : Lowering unit :=
  match u with
  | BlockConstruct => ExitRegion
  | DoConstruct doStmt control => FinishConstruct doStmt control ;;; ExitRegion
  | AssociateConstruct _ => ExitRegion
  | ChangeTeamConstruct => ExitRegion
  | SelectTypeConstructC => ExitRegion
  | _ => ret tt
  end.

(** The visitor of [ConstructFIR] for every operation but
    [LinearBeginConstruct], which also looks at the operation after it. *)
Definition handleLinearOp (op : LinearOp) : Lowering unit :=
  match op with
  | LinearLabel linearLabel =>
      region <~ GetCurrentRegion ;;
      newBlock <~ CreateBlock region ;;
      blockMap_insert linearLabel (Some newBlock) ;;;
      cursor <~ GetInsertionPoint ;;
      (match cursor with
       | Some _ => CreateBranch (Some newBlock)
       | None => ret tt
       end) ;;;
      SetInsertionPoint (Some newBlock)
  | LinearGoto _ target =>
      CheckInsertionPoint ;;; AddOrQueueBranch target ;;; ClearInsertionPoint
  | LinearIndirectGoto symbol labelRefs =>
      CheckInsertionPoint ;;; AddOrQueueIGoto symbol labelRefs ;;;
      ClearInsertionPoint
  | LinearReturn u =>
      CheckInsertionPoint ;;;
      (match u with
       | FailImageStmt =>
           CreateRuntimeCall FIR.RuntimeCallFailImage ;;; CreateUnreachable
       | ReturnStmt => CreateExpr ;;; CreateReturn
       | StopStmt => CreateRuntimeCall FIR.RuntimeCallStop ;;; CreateUnreachable
       end) ;;;
      ClearInsertionPoint
  | LinearConditionalGoto u trueLabel falseLabel =>
      CheckInsertionPoint ;;;
      (match u with
       | NonLabelDoStmt doStmt control => BuildLoopLatchExpression doStmt control
       | _ => CreateExpr
       end) ;;;
      AddOrQueueCGoto trueLabel falseLabel ;;;
      ClearInsertionPoint
  | LinearSwitchingIO _ next _ _ _ =>
      CheckInsertionPoint ;;;
      AddOrQueueSwitch FIR.Switch next 0 [] ;;;
      ClearInsertionPoint
  | LinearSwitch u refs =>
      CheckInsertionPoint ;;; handleLinearSwitch u refs ;;; ClearInsertionPoint
  | LinearAction v => CheckInsertionPoint ;;; handleActionStatement v
  | LinearDoIncrement doStmt =>
      CheckInsertionPoint ;;; handleLinearDoIncrement doStmt
  | LinearDoCompare doStmt =>
      CheckInsertionPoint ;;; handleLinearDoCompare doStmt
  | LinearBeginConstruct u => handleBeginConstruct u
  | LinearEndConstruct u => handleEndConstruct u
  end.

(** The loop of [ConstructFIR].  After a [LinearBeginConstruct] the next
    operation is inspected ([*(++next)], undefined at the end of the list):
    a label there is bound to the current insertion point and skipped. *)
Fixpoint ConstructFIR (ops : list LinearOp) : Lowering unit :=
  match ops with
  | [] => ret tt
  | LinearBeginConstruct u :: rest =>
      handleBeginConstruct u ;;;
      match rest with
      | [] => die
      | LinearLabel linearLabel :: rest' =>
          cursor <~ GetInsertionPoint ;;
          blockMap_insert linearLabel cursor ;;;
          ConstructFIR rest'
      | _ :: _ => ConstructFIR rest
      end
  | op :: rest => handleLinearOp op ;;; ConstructFIR rest
  end.

(** The state in which [ProcessRoutine] starts [ConstructFIR]: the
    procedure has its first region, the builder stands on a first block of
    it, and [ad] is what the linearizer left. *)
Definition initial_lowering (ad : AnalysisData) : FortranIRLowering :=
  {| blocks := [FIR.new_block 0];
     regions := [{| FIR.enclosing := None |}];
     cursorRegion_ := Some 0%nat;
     cursorBlock_ := Some 0%nat;
     blockMap_ := ∅;
     controlFlowEdgesToAdd_ := [];
     doMap_ := ∅;
     analysis := ad |}.

(** [ProcessRoutine], up to [Cleanup]: linearize the body, build the blocks
    and draw the deferred edges. *)
Definition ProcessRoutine (body : list parser.ExecutionPartConstruct)
  : option FortranIRLowering :=
  match WalkAll body empty_AnalysisData with
  | None => None
  | Some (linearOperations_, ad) =>
      match (ConstructFIR linearOperations_ ;;; DrawRemainingArcs)
              (initial_lowering ad) with
      | Some (_, st) => Some st
      | None => None
      end
  end.

(** The blocks that the terminator of block [a] can branch to. *)
Definition successors (st : FortranIRLowering) (a : nat) : list nat :=
  match blocks st !! a with
  | Some block =>
      match FIR.terminator block with
      | Some stmt => FIR.succ_blocks stmt
      | None => []
      end
  | None => []
  end.

Definition predecessors (st : FortranIRLowering) (b : nat) : list nat :=
  match blocks st !! b with
  | Some block => FIR.preds_ block
  | None => []
  end.

End Afforestation.

(** * Assertions and sample inputs *)

(** ** Module files *)

(** *** Hexadecimal digits by position *)

Section HexDigits.
Import ModFile.

(** [i] digits of [h], most significant first. *)
Fixpoint hexpad (i : nat) (h : N) : std_string :=
  match i with
  | O => []
  | S i' => hexpad i' (h / 16) ++ [lower_hex_digit (h mod 16)]
  end.

End HexDigits.

(** *** The touch-free sentence and a sample file system *)

Section TouchFree.
Import ModFile.

(** Formal reading of the touch-free sentence as it stands: an identical
    file makes [WriteFile] return true, leaves every file as it was, and
    adds no event that opens the path with [std::ios::out] in its mode. *)
Definition touch_free_without_open_for_write
  (path contents : std_string) (fs : FileSystem) : Prop :=
  fs_files fs !! path = Some (GetHeader contents ++ newline :: contents) ->
  let '(ok, fs') := WriteFile path contents fs in
  ok = true /\ fs_files fs' = fs_files fs /\
  Forall (fun e => ~ opens_for_write path e)
    (drop (length (fs_trace fs)) (fs_trace fs')).

Definition m_mod : std_string := str "m.mod".
Definition m_body : std_string :=
  str "module m" ++ newline :: str "end" ++ [newline].
Definition fs_with_m : FileSystem :=
  {| fs_files := {[ m_mod := GetHeader m_body ++ newline :: m_body ]};
     fs_trace := [] |}.

End TouchFree.

(** *** The order of the collected symbols *)

Section DeclarationOrder.
Import ModFile.
Variable symbolAt : SymbolRef -> Symbol.

(** [y] is not sorted before [x]: what [std::sort] guarantees of an [x]
    that precedes a [y]. *)
Definition in_order (x y : SymbolRef) : Prop := symbol_before symbolAt y x = false.

(** The accumulator of the two loops: [sorted] has no duplicate and
    [symbols] is the set of its elements. *)
Definition acc_ok (acc : gset SymbolRef * list SymbolRef) : Prop :=
  NoDup acc.2 /\ forall x, x ∈ acc.1 <-> x ∈ acc.2.

End DeclarationOrder.

(** *** A scope with a common block *)

Section CommonBlockSample.
Import ModFile.

(** The reading of the sentence as it stands on where common blocks go:
    every common-block symbol of the scope stands after every symbol that is
    not a common block. *)
Definition common_blocks_last (scope : Scope) (out : list SymbolRef) : Prop :=
  forall i j x y, out !! i = Some x -> out !! j = Some y ->
    (exists n, (n, x) ∈ scope_commonBlocks scope) ->
    ~ (exists n, (n, y) ∈ scope_commonBlocks scope) ->
    (j < i)%nat.

(** [common /blk/ x] at offset 5 followed by [integer :: y] at offset 20:
    symbol 0 is the common block, symbol 1 the object [y]. *)
Definition blk_then_y (s : SymbolRef) : Symbol :=
  match s with
  | O => {| sym_name := {| sn_begin := 5; ToString := str "blk" |};
            sym_scope := None; sym_ModFile := false; sym_ParentComp := false;
            sym_isNamelist := false |}
  | _ => {| sym_name := {| sn_begin := 20; ToString := str "y" |};
            sym_scope := None; sym_ModFile := false; sym_ParentComp := false;
            sym_isNamelist := false |}
  end.

Definition scope_blk_y : Scope :=
  {| scope_symbol := None;
     scope_symbols := [(str "y", 1%nat)];
     scope_commonBlocks := [(str "blk", 0%nat)];
     scope_chars := [] |}.

End CommonBlockSample.

(** *** The search for a module file *)

Section SearchStatements.
Import ModFile.
Variable FindSubmodule : SemanticsContext -> ScopeRef -> list ascii -> option ScopeRef.

(** The file at [path] opens and its first line begins with the magic. *)
Definition accepted (fs : FileSystem) (path : std_string) : bool :=
  match fs_files fs !! path with
  | Some data => starts_with magic (getline data).1
  | None => false
  end.

(** The module is not among the loaded ones: [Read] gets past its first
    lookups, with [ancestorName] the name it searches under. *)
Definition not_loaded (ctx : SemanticsContext) (name : SourceName)
  (ancestor : option ScopeRef) (ancestorName : std_string) : Prop :=
  match ancestor with
  | Some anc =>
      FindSubmodule ctx anc (ToString name) = None
      /\ exists n, scope_name ctx anc = Some n /\ ancestorName = ToString n
  | None =>
      find_in ctx globalScope name = Some None /\ ancestorName = []
  end.

End SearchStatements.

(** *** Modules that are loaded *)

Section LoadedStatements.
Import ModFile.

(** The module [name] is a symbol of the global scope whose scope is
    [scope]. *)
Definition global_module (ctx : SemanticsContext) (name : SourceName)
  (scope : option ScopeRef) : Prop :=
  exists it symbol,
    find_in ctx globalScope name = Some (Some it)
    /\ symbols ctx !! it = Some symbol /\ sym_scope symbol = scope.

End LoadedStatements.

(** *** Sample contexts of the reader *)

Section ReaderSamples.
Import ModFile.

(** Collaborators for the examples: a parser that reports an unreadable
    file, a resolver that changes nothing and an ancestor without
    submodules. *)
Definition no_parse (_ : option (list ascii)) : Parsing :=
  {| parsing_messages := []; consumedWholeFile := false; parseTree := None;
     cooked := [] |}.
Definition no_resolve (ctx : SemanticsContext) (_ : list ProgramUnit)
  : SemanticsContext := ctx.
Definition no_submodule (_ : SemanticsContext) (_ : ScopeRef)
  (_ : list ascii) : option ScopeRef := None.

Definition name_m : SourceName := {| sn_begin := 4; ToString := str "m" |}.

(** Two search directories, an empty global scope and no file at all. *)
Definition ctx_no_files : SemanticsContext :=
  {| searchDirectories := [str "."; str "lib"];
     scopes := [{| scope_symbol := None; scope_symbols := [];
                   scope_commonBlocks := []; scope_chars := [] |}];
     symbols := [];
     messages := [];
     fileSystem := {| fs_files := ∅; fs_trace := [] |} |}.

(** A context in which module [m] is loaded: symbol 0 of the global scope,
    with scope 1. *)
Definition ctx_with_m : SemanticsContext :=
  {| searchDirectories := [str "."];
     scopes := [{| scope_symbol := None; scope_symbols := [(str "m", 0%nat)];
                   scope_commonBlocks := []; scope_chars := [] |};
                {| scope_symbol := Some 0%nat; scope_symbols := [];
                   scope_commonBlocks := []; scope_chars := [] |}];
     symbols := [{| sym_name := name_m; sym_scope := Some 1%nat;
                    sym_ModFile := true; sym_ParentComp := false;
                    sym_isNamelist := false |}];
     messages := [];
     fileSystem := {| fs_files := ∅; fs_trace := [] |} |}.

End ReaderSamples.

(** ** Assertions on the state of a computation *)

(** A partial-correctness triple: when [m] runs from a state in [P] and
    does not stop, its result and final state are in [Q]. *)
Definition hoare {S A} (P : S -> Prop) (m : StateM S A) (Q : A -> S -> Prop)
  : Prop :=
  forall st a st', P st -> m st = Some (a, st') -> Q a st'.

(** ** The invariant of the control-flow graph under construction *)

Section GraphAssertions.
Import Afforestation.

Definition stmts_of (bl : list FIR.BasicBlock) (b : nat) : list FIR.Statement :=
  match bl !! b with
  | Some block => FIR.statementList_ block
  | None => []
  end.

Definition preds_of (bl : list FIR.BasicBlock) (b : nat) : list nat :=
  match bl !! b with
  | Some block => FIR.preds_ block
  | None => []
  end.

Definition nonterminators (l : list FIR.Statement) : Prop :=
  Forall (fun s => FIR.isTerminator s = false) l.

(** Block [b] exists and holds no terminator yet. *)
Definition unterminated (bl : list FIR.BasicBlock) (b : nat) : Prop :=
  (b < length bl)%nat /\ nonterminators (stmts_of bl b).

(** Some statement of block [a] has [b] among its successor blocks. *)
Definition has_edge (bl : list FIR.BasicBlock) (a b : nat) : Prop :=
  exists s, s ∈ stmts_of bl a /\ b ∈ FIR.succ_blocks s.

(** The blocks [bl] with the blocks [pend] still waiting for a deferred
    terminator: predecessor lists are duplicate-free and list exactly the
    blocks with an edge to the block, a terminator is the last statement of
    its block, and the waiting blocks are distinct and unterminated. *)
Record Good (bl : list FIR.BasicBlock) (pend : list nat) : Prop := {
  good_nodup : forall b, NoDup (preds_of bl b);
  good_edges : forall a b, a ∈ preds_of bl b <-> has_edge bl a b;
  good_last : forall b, nonterminators (removelast (stmts_of bl b));
  good_pend_nodup : NoDup pend;
  good_pend_open : forall b, b ∈ pend -> unterminated bl b
}.

Definition pending (st : FortranIRLowering) : list nat :=
  omap closure_block (controlFlowEdgesToAdd_ st).

(** The assertion that the handlers of [ConstructFIR] maintain.  With
    [open] the cursor, if set, stands on an unterminated block that waits
    for no deferred terminator.  [fresh] lists the blocks that were created
    but are not yet the cursor. *)
Definition Asrt (open : bool) (fresh : list nat) (st : FortranIRLowering)
  : Prop :=
  Good (blocks st) (pending st)
  /\ (open = true -> forall c, cursorBlock_ st = Some c ->
        unterminated (blocks st) c /\ (c ∉ pending st))
  /\ NoDup fresh
  /\ (forall b, b ∈ fresh ->
        unterminated (blocks st) b /\ (b ∉ pending st)
        /\ (open = true -> cursorBlock_ st <> Some b)).

(** An update that leaves the blocks, the cursor block and the deferred
    edges alone keeps every assertion. *)
Definition same_graph (st st' : FortranIRLowering) : Prop :=
  blocks st' = blocks st /\ cursorBlock_ st' = cursorBlock_ st
  /\ controlFlowEdgesToAdd_ st' = controlFlowEdgesToAdd_ st.

(** The state after [Insert s] on cursor [c], while the predecessor lists
    still miss [c] in the blocks [rem]. *)
Definition Mid (c : nat) (arcs : list Closure) (keep : list nat)
  (rem : list nat) (st : FortranIRLowering) : Prop :=
  cursorBlock_ st = Some c
  /\ controlFlowEdgesToAdd_ st = arcs
  /\ (forall b, NoDup (preds_of (blocks st) b))
  /\ (forall a b, a ∈ preds_of (blocks st) b \/ (a = c /\ b ∈ rem)
                  <-> has_edge (blocks st) a b)
  /\ (forall b, nonterminators (removelast (stmts_of (blocks st) b)))
  /\ (forall b, b ∈ keep -> unterminated (blocks st) b).

(** While [DrawRemainingArcs] runs, the closures [rem] are still to be
    called. *)
Definition Replay (rem : list Closure) (st : FortranIRLowering) : Prop :=
  Good (blocks st) (omap closure_block rem).

(** Inside a closure: the cursor stands on its block [c]. *)
Definition At (c : nat) (rem : list Closure) (st : FortranIRLowering)
  : Prop :=
  cursorBlock_ st = Some c /\ unterminated (blocks st) c
  /\ (c ∉ omap closure_block rem) /\ Replay rem st.

End GraphAssertions.

(** ** Sample procedures

    The executable parts of a few procedures, and the two stages of the
    lowering applied to them. *)

Section SampleProcedures.
Import Afforestation.

(** The linear operations of a procedure body. *)
Definition linearize (body : list parser.ExecutionPartConstruct)
  : option (list LinearOp) :=
  fst <$> WalkAll body empty_AnalysisData.

(** [ConstructFIR] on the linear operations of a body, before the deferred
    edges are drawn. *)
Definition construct (body : list parser.ExecutionPartConstruct)
  : option FortranIRLowering :=
  match WalkAll body empty_AnalysisData with
  | Some (ops, ad) => snd <$> ConstructFIR ops (initial_lowering ad)
  | None => None
  end.

(** [read(u,*,err=10,eor=20,end=30) x], then the three labelled
    statements. *)
Definition read_err_eor_end : list parser.ExecutionPartConstruct :=
  [ parser.Statement None
      (parser.IoStmt parser.ReadStmt
         [parser.OtherSpec; parser.ErrLabel 10; parser.EorLabel 20;
          parser.EndLabel 30]);
    parser.Statement (Some 10) parser.AssignmentStmt;
    parser.Statement (Some 20) parser.AssignmentStmt;
    parser.Statement (Some 30) parser.AssignmentStmt ].

Definition lowered_read_err_eor_end : FortranIRLowering :=
  default (initial_lowering empty_AnalysisData)
    (ProcessRoutine read_err_eor_end).

(** [do i = 1, n; exit; end do]. *)
Definition exit_in_do : list parser.ExecutionPartConstruct :=
  [ parser.DoConstruct 0 None (Some parser.LoopBounds)
      [parser.Statement None (parser.ExitStmt None)] ].

(** An analysis state inside one counted loop with exit label 3 and
    increment label 1. *)
Definition inside_one_loop : AnalysisData :=
  with_nameStack [(None, 3, 1)] empty_AnalysisData.

(** Two statements labelled 100 and 200, then
    [assign 100 to lbl; assign 200 to lbl; goto lbl], with 7 for the symbol
    of [lbl]. *)
Definition assign_assign_goto : list parser.ExecutionPartConstruct :=
  [ parser.Statement (Some 100) parser.AssignmentStmt;
    parser.Statement (Some 200) parser.AssignmentStmt;
    parser.Statement None (parser.AssignStmt 7 100);
    parser.Statement None (parser.AssignStmt 7 200);
    parser.Statement None (parser.AssignedGotoStmt 7 []) ].

(** [select rank (x); rank default; y = 1; end select]. *)
Definition select_rank_default : list parser.ExecutionPartConstruct :=
  [ parser.SelectRankConstruct None
      [(parser.RankDefault, [parser.Statement None parser.AssignmentStmt])] ].

(** [select type (x); class default; y = 1; end select]. *)
Definition select_type_default : list parser.ExecutionPartConstruct :=
  [ parser.SelectTypeConstruct None
      [(parser.GuardDefault, [parser.Statement None parser.AssignmentStmt])] ].

End SampleProcedures.

(** ** Module files: further assertions and sample inputs *)

Section WriterReaderStatements.
Import ModFile.

(** The events of a search: opening a file for reading only. *)
Definition opens_read_only (e : FsEvent) : Prop :=
  exists path, e = EvOpen path in_only.

(** A parser that accepts every file as one module without messages, and a
    resolver that declares module [m]: symbol 0 of the global scope, with
    scope 1. *)
Definition parse_module (data : option (list ascii)) : Parsing :=
  {| parsing_messages := []; consumedWholeFile := true;
     parseTree := Some [ModuleUnit]; cooked := default [] data |}.

Definition resolve_m (ctx : SemanticsContext) (_ : list ProgramUnit)
  : SemanticsContext :=
  {| searchDirectories := searchDirectories ctx;
     scopes := [{| scope_symbol := None; scope_symbols := [(str "m", 0%nat)];
                   scope_commonBlocks := []; scope_chars := [] |};
                {| scope_symbol := Some 0%nat; scope_symbols := [];
                   scope_commonBlocks := []; scope_chars := [] |}];
     symbols := [{| sym_name := name_m; sym_scope := Some 1%nat;
                    sym_ModFile := false; sym_ParentComp := false;
                    sym_isNamelist := false |}];
     messages := messages ctx;
     fileSystem := fileSystem ctx |}.

(** One search directory, an empty global scope, and the file [m.mod] as
    the writer leaves it. *)
Definition ctx_file_m : SemanticsContext :=
  {| searchDirectories := [str "."];
     scopes := [{| scope_symbol := None; scope_symbols := [];
                   scope_commonBlocks := []; scope_chars := [] |}];
     symbols := [];
     messages := [];
     fileSystem := fs_with_m |}.

End WriterReaderStatements.

(** ** The linearizer: further assertions *)

Section AnalysisStatements.
Import Afforestation.

(** Every linear label bound to a source label was handed out by the label
    builder, and no two source labels share a linear label. *)
Definition labels_fresh (ad : AnalysisData) : Prop :=
  (forall l r, labelMap ad !! l = Some r -> r < counter (labelBuilder ad))
  /\ (forall l1 l2 r,
        labelMap ad !! l1 = Some r -> labelMap ad !! l2 = Some r -> l1 = l2).

(** The labels assigned to a symbol by ASSIGN statements: the
    [std::set] that [assignMap] holds for it, empty without an entry. *)
Definition assigned (ad : AnalysisData) (symbol : nat) : list N :=
  default [] (assignMap ad !! symbol).

(** An analysis state inside a loop named 5 (exit label 3, increment
    label 1) that encloses a block construct named 6 (exit label 4). *)
Definition inside_named_loop : AnalysisData :=
  with_nameStack [(Some 5%nat, 3, 1); (Some 6%nat, 4, unspecifiedLabel)]
    empty_AnalysisData.

End AnalysisStatements.

(** ** The linear operations of a body: further assertions *)

Section WalkStatements.
Import Afforestation.

(** The loop of [Multiway] over the cases and the loop of the IF construct
    over its ELSE IF blocks, as [Walk] holds them inside. *)
Section MultiwayLoop.
Context {A : Type}.
Variable exitLab : N.

Fixpoint case_blocks (cases : list (A * list parser.ExecutionPartConstruct))
  (toLabels : list N) : Analysis (list LinearOp) :=
  match cases, toLabels with
  | caseBlock :: cases', toLabel :: toLabels' =>
      ops <~ WalkAll caseBlock.2 ;;
      more <~ case_blocks cases' toLabels' ;;
      ret (LinearLabel toLabel :: ops
           ++ LinearGoto LinearArtificial exitLab :: more)
  | _, _ => ret []
  end.

End MultiwayLoop.

Section ElseIfLoop.
Variable elseBlock : option (list parser.ExecutionPartConstruct).
Variable exitOpRef : N.

Fixpoint else_ifs (elseIfs : list (list parser.ExecutionPartConstruct))
  (elseLab : N) : Analysis (list LinearOp) :=
  match elseIfs with
  | [] =>
      ops <~ match elseBlock with
             | Some block => WalkAll block
             | None => ret []
             end ;;
      ret (LinearLabel elseLab :: ops)
  | elseIfBlock :: elseIfs' =>
      newThenLab <~ BuildNewLabel ;;
      newElseLab <~ BuildNewLabel ;;
      newThenRef <~ GetLabelRef newThenLab ;;
      newElseRef <~ GetLabelRef newElseLab ;;
      ops <~ WalkAll elseIfBlock ;;
      more <~ else_ifs elseIfs' newElseLab ;;
      ret ([LinearLabel elseLab;
            LinearConditionalGoto ElseIfStmt newThenRef newElseRef;
            LinearLabel newThenLab]
           ++ ops ++ LinearGoto LinearArtificial exitOpRef :: more)
  end.

End ElseIfLoop.

(** [linearConstruct], and the same steps with the body of another kind. *)
Definition linear_construct (construct : Construct) (name : option nat)
  (body : Analysis (list LinearOp)) : Analysis (list LinearOp) :=
  label <~ BuildNewLabel ;;
  ref <~ GetLabelRef label ;;
  push_name name ref unspecifiedLabel ;;;
  ops <~ body ;;
  pop_name ;;;
  ret (LinearBeginConstruct construct :: ops
       ++ [LinearLabel label; LinearEndConstruct construct]).

(** [Multiway] for the three SELECT constructs. *)
Definition multiway {A} (construct : Construct)
  (source : list A -> SwitchSource) (name : option nat)
  (cases : list (A * list parser.ExecutionPartConstruct))
  : Analysis (list LinearOp) :=
  exitLab <~ BuildNewLabel ;;
  ref <~ GetLabelRef exitLab ;;
  push_name name ref unspecifiedLabel ;;;
  body <~
    match cases with
    | [] => ret []
    | _ :: _ =>
        toLabels <~ map_each (fun _ => BuildNewLabel) cases ;;
        targets <~ map_each GetLabelRef toLabels ;;
        blocks <~ case_blocks exitLab cases toLabels ;;
        ret (LinearSwitch (source (map fst cases)) targets :: blocks)
    end ;;
  pop_name ;;;
  ret (LinearBeginConstruct construct :: body
       ++ [LinearLabel exitLab; LinearEndConstruct construct]).

Definition is_label_op (op : LinearOp) : Prop := exists r, op = LinearLabel r.

Definition is_construct_op (op : LinearOp) : bool :=
  match op with
  | LinearBeginConstruct _ | LinearEndConstruct _ => true
  | _ => false
  end.

(** Linear operations in which every [LinearBeginConstruct] is closed by a
    [LinearEndConstruct] of the same construct, properly nested. *)
Inductive Balanced : list LinearOp -> Prop :=
| Balanced_nil : Balanced []
| Balanced_op op ops :
    is_construct_op op = false -> Balanced ops -> Balanced (op :: ops)
| Balanced_construct u inner ops :
    Balanced inner -> Balanced ops ->
    Balanced (LinearBeginConstruct u :: inner
              ++ LinearEndConstruct u :: ops).

(** The labels that an operation jumps to and that the linearizer made up
    itself: the target of an artificial goto, both targets of a conditional
    goto, the targets of the switch of a SELECT construct, and the label of
    the next operation for a switch that continues there (computed GOTO,
    CALL with alternate returns) or for an I/O statement.  The targets that
    come from the labels and construct names of the source are left out. *)
Definition structural_targets (op : LinearOp) : list N :=
  match op with
  | LinearGoto LinearArtificial target => [target]
  | LinearConditionalGoto _ trueLabel falseLabel => [trueLabel; falseLabel]
  | LinearSwitchingIO _ next _ _ _ => [next]
  | LinearSwitch (CaseConstruct _) refs
  | LinearSwitch (SelectRankConstruct _) refs
  | LinearSwitch (SelectTypeConstruct _) refs => refs
  | LinearSwitch CallStmt refs | LinearSwitch ComputedGotoStmt refs =>
      match last refs with Some next => [next] | None => [] end
  | _ => []
  end.

(** Every structural target of an operation of [ops] is the label of a
    [LinearLabel] of [scope]. *)
Definition placed_within (ops scope : list LinearOp) : Prop :=
  forall op t, op ∈ ops -> t ∈ structural_targets op -> LinearLabel t ∈ scope.

Definition targets_placed (ops : list LinearOp) : Prop := placed_within ops ops.

(** What [Walk] promises of the operations it returns, and of the name
    stack it leaves, when it started with the name stack [stack]. *)
Definition WalkPost (stack : list (option nat * N * N))
  (ops : list LinearOp) (ad : AnalysisData) : Prop :=
  nameStack ad = stack /\ Balanced ops /\ targets_placed ops.

(** [Walk] on [c] keeps that promise from every state. *)
Definition Walks (c : parser.ExecutionPartConstruct) : Prop :=
  forall s, hoare (fun ad => nameStack ad = s) (Walk c) (WalkPost s).

(** A counted loop whose body holds an IF construct with an ELSE IF and an
    ELSE part and a SELECT CASE construct. *)
Definition loop_with_if_and_select : list parser.ExecutionPartConstruct :=
  [ parser.DoConstruct 0 (Some 1%nat) (Some parser.LoopBounds)
      [ parser.IfConstruct None
          [parser.Statement None parser.AssignmentStmt]
          [[parser.Statement None (parser.CycleStmt None)]]
          (Some [parser.Statement (Some 10) parser.AssignmentStmt]);
        parser.CaseConstruct None
          [ (parser.CaseRanges [parser.CaseValue],
             [parser.Statement None (parser.ExitStmt (Some 1%nat))]);
            (parser.CaseDefault,
             [parser.Statement None (parser.GotoStmt 10)]) ] ] ].

End WalkStatements.

(** ** The lowering: what it keeps and what it cannot do *)

Section LoweringStatements.
Import Afforestation.

(** Every run of [m] takes a state to one that [R] relates to it. *)
Definition mono {S A} (R : S -> S -> Prop) (m : StateM S A) : Prop :=
  forall st a st', m st = Some (a, st') -> R st st'.

(** A block after more statements and predecessors were appended. *)
Definition block_extends (blk blk' : FIR.BasicBlock) : Prop :=
  FIR.parent blk' = FIR.parent blk
  /\ FIR.statementList_ blk `prefix_of` FIR.statementList_ blk'
  /\ FIR.preds_ blk `prefix_of` FIR.preds_ blk'.

(** The state [st'] holds all that [st] held: each block with its region,
    its statements and its predecessors at the front of what it has now,
    each region, each label bound in [blockMap_] with the block it was
    bound to, and the deferred edges at the front of the queue. *)
Definition Extends (st st' : FortranIRLowering) : Prop :=
  (forall b blk, blocks st !! b = Some blk ->
     exists blk', blocks st' !! b = Some blk' /\ block_extends blk blk')
  /\ regions st `prefix_of` regions st'
  /\ blockMap_ st ⊆ blockMap_ st'
  /\ controlFlowEdgesToAdd_ st `prefix_of` controlFlowEdgesToAdd_ st'.

(** The action statements for which [handleActionStatement] has
    [WRONG_PATH()]. *)
Definition wrong_path (v : parser.ActionStmt) : bool :=
  match v with
  | parser.ContinueStmt | parser.CycleStmt _ | parser.ExitStmt _
  | parser.GotoStmt _ | parser.IfStmt | parser.ReturnStmt
  | parser.ComputedGotoStmt _ | parser.ArithmeticIfStmt _ _ _
  | parser.AssignedGotoStmt _ _ => true
  | _ => false
  end.

(** A deferred switch with more labels than values. *)
Definition short_of_values (arc : Closure) : bool :=
  match arc with
  | SwitchArc _ _ _ values labels => bool_decide (values < length labels)%nat
  | _ => false
  end.

(** The linear operations that no run of the lowering gets past: an
    action on the wrong path, and the switch of an arithmetic IF, of a
    computed GOTO or of a CALL with alternate returns that has a label
    besides the continuation. *)
Definition doomed (op : LinearOp) : bool :=
  match op with
  | LinearAction v => wrong_path v
  | LinearSwitch ArithmeticIfStmt (_ :: _) => true
  | LinearSwitch ComputedGotoStmt (_ :: _ :: _) => true
  | LinearSwitch CallStmt (_ :: _ :: _) => true
  | _ => false
  end.

(** The statements that the linearizer turns into such an operation. *)
Definition unsupported (v : parser.ActionStmt) : bool :=
  match v with
  | parser.ContinueStmt | parser.IfStmt | parser.ArithmeticIfStmt _ _ _
  | parser.ComputedGotoStmt (_ :: _) | parser.CallStmt (_ :: _) => true
  | _ => false
  end.

(** The blocks directly inside a construct. *)
Definition blocks_of (c : parser.ExecutionPartConstruct)
  : list (list parser.ExecutionPartConstruct) :=
  match c with
  | parser.Statement _ _ | parser.OtherStatement _
  | parser.WhereConstruct _ _ | parser.ForallConstruct _ _ => []
  | parser.AssociateConstruct _ _ block | parser.BlockConstruct _ block
  | parser.ChangeTeamConstruct _ block | parser.CriticalConstruct _ block
  | parser.DoConstruct _ _ _ block => [block]
  | parser.CaseConstruct _ cases => map snd cases
  | parser.SelectRankConstruct _ cases => map snd cases
  | parser.SelectTypeConstruct _ cases => map snd cases
  | parser.IfConstruct _ block elseIfs elseBlock =>
      block :: elseIfs ++ match elseBlock with Some b => [b] | None => [] end
  end.

(** An unsupported statement is the element [c] or lies somewhere in a
    block of it. *)
Inductive HasUnsupported : parser.ExecutionPartConstruct -> Prop :=
| HasUnsupported_here label v :
    unsupported v = true -> HasUnsupported (parser.Statement label v)
| HasUnsupported_inside c block c' :
    block ∈ blocks_of c -> c' ∈ block -> HasUnsupported c' ->
    HasUnsupported c.

(** [if (x) 10, 20, 30] inside a BLOCK construct. *)
Definition arithmetic_if_in_block : list parser.ExecutionPartConstruct :=
  [ parser.BlockConstruct None
      [parser.Statement None (parser.ArithmeticIfStmt 10 20 30)] ].

End LoweringStatements.

(** ** Blocks and their terminators *)

Section TerminatorStatements.
Import Afforestation.

(** Block [b] holds a terminator. *)
Definition closed (bl : list FIR.BasicBlock) (b : nat) : Prop :=
  Exists (fun s => FIR.isTerminator s = true) (stmts_of bl b).

(** Every block is accounted for: it holds a terminator, or waits for a
    deferred one, or is one of the blocks [fresh] that were created and are
    not yet the insertion point, or, with [open], is the insertion point. *)
Definition Cov (open : bool) (fresh : list nat) (st : FortranIRLowering)
  : Prop :=
  forall b, (b < length (blocks st))%nat ->
    closed (blocks st) b \/ b ∈ pending st \/ b ∈ fresh
    \/ (open = true /\ cursorBlock_ st = Some b).

(** The same while [DrawRemainingArcs] runs: the closures [rem] are still
    to be called, and [rest] is where the insertion point stood when
    [ConstructFIR] returned. *)
Definition CovR (rest : option nat) (rem : list Closure)
  (st : FortranIRLowering) : Prop :=
  forall b, (b < length (blocks st))%nat ->
    closed (blocks st) b \/ b ∈ omap closure_block rem \/ rest = Some b.

(** Inside a closure, with the insertion point on its block [c]. *)
Definition CovAt (c : nat) (rest : option nat) (rem : list Closure)
  (st : FortranIRLowering) : Prop :=
  cursorBlock_ st = Some c
  /\ forall b, (b < length (blocks st))%nat ->
       closed (blocks st) b \/ b ∈ omap closure_block rem \/ rest = Some b
       \/ b = c.

(** [x = 1] and nothing else: the body of a procedure that falls off its
    end. *)
Definition one_assignment : list parser.ExecutionPartConstruct :=
  [parser.Statement None parser.AssignmentStmt].

End TerminatorStatements.

(** ** Regions *)

Section RegionStatements.
Import Afforestation.

(** The constructs whose [LinearBeginConstruct] enters a region, and those
    whose [LinearEndConstruct] leaves one. *)
Definition enters_region (u : Construct) : bool :=
  match u with
  | AssociateConstruct _ | BlockConstruct | ChangeTeamConstruct
  | DoConstruct _ _ | SelectRankConstructC | SelectTypeConstructC => true
  | _ => false
  end.

Definition exits_region (u : Construct) : bool :=
  match u with
  | AssociateConstruct _ | BlockConstruct | ChangeTeamConstruct
  | DoConstruct _ _ | SelectTypeConstructC => true
  | _ => false
  end.

(** [block; x = 1; end block] and a statement after it, linearized. *)
Definition block_then_assignment : list LinearOp :=
  [ LinearBeginConstruct BlockConstruct;
    LinearAction parser.AssignmentStmt;
    LinearEndConstruct BlockConstruct;
    LinearLabel 0;
    LinearAction parser.AssignmentStmt ].

End RegionStatements.

(** ** SELECT constructs without a default *)

Section SelectStatements.
Import Afforestation.

(** The switch of a SELECT CASE, SELECT RANK or SELECT TYPE construct none
    of whose cases is the default. *)
Definition without_default (op : LinearOp) : bool :=
  match op with
  | LinearSwitch (CaseConstruct selectors) _ =>
      forallb (fun s => match s with parser.CaseDefault => false
                                   | _ => true end) selectors
  | LinearSwitch (SelectRankConstruct ranks) _ =>
      forallb (fun r => match r with parser.RankDefault => false
                                   | _ => true end) ranks
  | LinearSwitch (SelectTypeConstruct guards) _ =>
      forallb (fun g => match g with parser.GuardDefault => false
                                   | _ => true end) guards
  | _ => false
  end.

(** A deferred switch whose default is [unspecifiedLabel]. *)
Definition defaults_nowhere (arc : Closure) : bool :=
  match arc with
  | SwitchArc _ _ defaultDest _ _ => bool_decide (defaultDest = unspecifiedLabel)
  | _ => false
  end.

(** [select case (i); case (1); x = 1; end select], linearized: the switch
    on the one case, the case at label 1, and the exit at label 0. *)
Definition select_one_case : list LinearOp :=
  [ LinearBeginConstruct CaseConstructC;
    LinearSwitch (CaseConstruct [parser.CaseRanges [parser.CaseValue]]) [1];
    LinearLabel 1;
    LinearAction parser.AssignmentStmt;
    LinearGoto LinearArtificial 0;
    LinearLabel 0;
    LinearEndConstruct CaseConstructC ].

End SelectStatements.

(** * Properties *)

Section CheckSumFacts.
Import ModFile.

Lemma hash_step_fnv h c :
  hash_step h c = (N.lxor h (N_of_ascii c) * 0x100000001b3) mod 2 ^ 64.
Proof.
  unfold hash_step, uint64_max_plus_1.
  replace 0xff with (N.ones 8) by reflexivity.
  rewrite N.land_ones, (N.mod_small (N_of_ascii c)); [done|].
  apply N_ascii_bounded.
Qed.

Lemma hash_loop_fnv body : hash_loop body = fnv1a64 body.
Proof.
  unfold hash_loop, fnv1a64. generalize 0xcbf29ce484222325.
  induction body as [|c body IH]; intros h; simpl; [done|].
  by rewrite hash_step_fnv, IH.
Qed.

Lemma hash_step_bound h c : hash_step h c < 2 ^ 64.
Proof. unfold hash_step. by apply N.mod_lt. Qed.

Lemma hash_loop_bound body : hash_loop body < 2 ^ 64.
Proof.
  unfold hash_loop.
  assert (H0 : 0xcbf29ce484222325 < 2 ^ 64) by reflexivity.
  revert H0. generalize 0xcbf29ce484222325.
  induction body as [|c body IH]; intros h Hh; simpl; [done|].
  apply IH, hash_step_bound.
Qed.

(** The table lookup [digits[d]] is the lowercase digit of [d]. *)
Lemma digits_nth d :
  d < 16 -> nth (N.to_nat d) digits "0"%char = lower_hex_digit d.
Proof.
  intros Hd.
  assert (Hcases : In d (map N.of_nat (seq 0 16))).
  { apply in_map_iff. exists (N.to_nat d). split; [lia|].
    apply in_seq. lia. }
  simpl in Hcases.
  repeat (destruct Hcases as [<-|Hcases]; [reflexivity|]).
  destruct Hcases.
Qed.

Lemma hexpad_zero i : hexpad i 0 = replicate i "0"%char.
Proof.
  induction i as [|i IH]; [done|].
  simpl hexpad. rewrite N.Div0.div_0_l, IH.
  change [lower_hex_digit (0 mod 16)] with (replicate 1 "0"%char).
  rewrite <- replicate_add. f_equal. lia.
Qed.

Lemma hexpad_positional i h :
  hexpad i h =
  map (fun k => lower_hex_digit ((h / 16 ^ N.of_nat k) mod 16)) (rev (seq 0 i)).
Proof.
  revert h. induction i as [|i IH]; intros h; [done|].
  simpl hexpad. rewrite IH.
  change (seq 0 (S i)) with (0%nat :: seq 1 i).
  rewrite <- seq_shift. simpl rev.
  rewrite map_app, <- map_rev, map_map. f_equal.
  - apply map_ext. intros k. do 2 f_equal.
    rewrite Nat2N.inj_succ, N.pow_succ_r', N.Div0.div_div. done.
  - simpl. by rewrite N.div_1_r.
Qed.

Lemma digit_loop_hexpad i h result :
  h < 16 ^ N.of_nat i ->
  take i result = replicate i "0"%char ->
  (i <= length result)%nat ->
  digit_loop i h result = hexpad i h ++ drop i result.
Proof.
  revert h result. induction i as [|i IH]; intros h result Hh Hz Hlen.
  - simpl in *. assert (h = 0) as -> by lia. done.
  - cbn [digit_loop]. destruct (N.eqb_spec h 0) as [->|Hne].
    + by rewrite hexpad_zero, <- Hz, take_drop.
    + rewrite IH.
      * simpl hexpad. rewrite <- app_assoc. f_equal.
        { by rewrite N.shiftr_div_pow2. }
        rewrite drop_insert_ge by lia.
        rewrite Nat.sub_diag.
        destruct (drop i result) as [|c tl] eqn:Hd.
        { apply (f_equal length) in Hd. rewrite length_drop in Hd.
          simpl in Hd. lia. }
        simpl. f_equal.
        { replace 0xf with (N.ones 4) by reflexivity.
          rewrite N.land_ones. apply digits_nth. by apply N.mod_lt. }
        replace (S i) with (i + 1)%nat by lia. by rewrite <- drop_drop, Hd.
      * rewrite N.shiftr_div_pow2.
        rewrite Nat2N.inj_succ, N.pow_succ_r' in Hh.
        apply N.Div0.div_lt_upper_bound. done.
      * rewrite take_insert_ge by lia.
        replace (take i result) with (take i (take (S i) result))
          by (rewrite take_take; f_equal; lia).
        rewrite Hz, take_replicate. f_equal. lia.
      * rewrite length_insert. lia.
Qed.

Lemma CheckSum_hex16 body : CheckSum body = hex16 (fnv1a64 body).
Proof.
  unfold CheckSum, hex16.
  rewrite digit_loop_hexpad.
  - rewrite hexpad_positional, hash_loop_fnv.
    by rewrite drop_replicate, app_nil_r.
  - apply hash_loop_bound.
  - done.
  - by rewrite length_replicate.
Qed.

End CheckSumFacts.

Section HeaderTheorem.
Import ModFile.

Lemma hex16_length h : length (hex16 h) = 16%nat.
Proof. reflexivity. Qed.

Lemma lower_hex_digit_in_digits d : d < 16 -> lower_hex_digit d ∈ digits.
Proof.
  intros Hd. rewrite <- digits_nth by done.
  apply list_elem_of_In, nth_In. change (length digits) with 16%nat. lia.
Qed.

(** C5.  The header the writer prepends to a module body is the magic
    string followed by exactly sixteen lowercase hexadecimal digits, the
    zero-padded 64-bit FNV-1a hash of the body (offset basis
    0xcbf29ce484222325, prime 0x100000001b3, each byte XORed in before the
    multiplication). *)
Theorem GetHeader_is_magic_and_fnv1a64 (body : std_string) :
  GetHeader body = str "!mod$ v1 sum:" ++ hex16 (fnv1a64 body)
  /\ length (hex16 (fnv1a64 body)) = 16%nat
  /\ Forall (fun c => c ∈ str "0123456789abcdef") (hex16 (fnv1a64 body)).
Proof.
  split; [|split].
  - unfold GetHeader. by rewrite CheckSum_hex16.
  - apply hex16_length.
  - unfold hex16. apply Forall_forall. intros c Hc.
    apply list_elem_of_In, in_map_iff in Hc as (k & <- & _).
    apply lower_hex_digit_in_digits. by apply N.mod_lt.
Qed.

End HeaderTheorem.

Section WriteFileFacts.
Import ModFile.

Lemma get_expected_app expected rest :
  get_expected expected (expected ++ rest) = Some rest.
Proof.
  induction expected as [|e expected IH]; simpl; [done|].
  by rewrite bool_decide_eq_true_2.
Qed.

Lemma FileContentsMatch_same header contents :
  FileContentsMatch (Some (header ++ newline :: contents)) header contents
  = true.
Proof.
  unfold FileContentsMatch. rewrite get_expected_app.
  rewrite bool_decide_eq_true_2 by done.
  rewrite <- (app_nil_r contents) at 2. by rewrite get_expected_app.
Qed.

Lemma WriteFile_same_contents path contents fs :
  fs_files fs !! path = Some (GetHeader contents ++ newline :: contents) ->
  WriteFile path contents fs =
    (true, {| fs_files := fs_files fs;
              fs_trace := fs_trace fs ++ [EvStat path; EvOpen path in_out] |}).
Proof.
  unfold WriteFile. generalize (GetHeader contents) as header.
  intros header Hfile. unfold GetFileSize, open_existing.
  cbv beta iota zeta. unfold fs_log. cbn [fs_files fs_trace]. rewrite Hfile.
  rewrite bool_decide_eq_true_2 by (rewrite length_app; cbn; lia).
  rewrite FileContentsMatch_same. by rewrite <- app_assoc.
Qed.

Lemma get_expected_Some expected stream rest :
  get_expected expected stream = Some rest -> stream = expected ++ rest.
Proof.
  revert stream. induction expected as [|e expected IH]; intros stream H.
  - by injection H as ->.
  - destruct stream as [|c stream]; [done|]. cbn in H.
    case_bool_decide; [|done]. subst c. cbn. f_equal. by apply IH.
Qed.

Lemma FileContentsMatch_true old header contents :
  FileContentsMatch (Some old) header contents = true ->
  old = header ++ newline :: contents.
Proof.
  unfold FileContentsMatch. intros H.
  destruct (get_expected header old) as [s1|] eqn:H1; [|done].
  destruct s1 as [|c s2]; [done|]. case_bool_decide; [|done]. subst c.
  destruct (get_expected contents s2) as [s3|] eqn:H2; [|done].
  destruct s3; [|done].
  apply get_expected_Some in H1, H2. subst. by rewrite app_nil_r.
Qed.

Lemma WriteFile_result path contents fs :
  fs_files (WriteFile path contents fs).2 !! path
  = Some (GetHeader contents ++ newline :: contents).
Proof.
  unfold WriteFile. generalize (GetHeader contents) as header. intros header.
  unfold GetFileSize, open_existing. cbv beta iota zeta.
  unfold fs_store, fs_log. cbn [fs_files fs_trace].
  case_bool_decide as Hsize.
  - destruct (fs_files fs !! path) as [old|] eqn:Hold.
    + destruct (FileContentsMatch (Some old) header contents) eqn:Hmatch.
      * apply FileContentsMatch_true in Hmatch. cbn. by rewrite Hold, Hmatch.
      * cbn. rewrite lookup_insert_eq. f_equal.
        rewrite drop_ge, app_nil_r; [done|].
        rewrite length_app. cbn. lia.
    + lia.
  - cbn. by rewrite lookup_insert_eq.
Qed.




End WriteFileFacts.

Section CollectSymbolsFacts.
Import ModFile.
Variable symbolAt : SymbolRef -> Symbol.

Abbreviation isNamelist x := (sym_isNamelist (symbolAt x)).
Abbreviation name_begin x := (sn_begin (sym_name (symbolAt x))).
Abbreviation in_order := (in_order symbolAt).

Lemma in_order_spec x y :
  in_order x y <->
  (isNamelist x = true -> isNamelist y = true)
  /\ (isNamelist x = isNamelist y -> (name_begin x <= name_begin y)%nat).
Proof.
  unfold in_order, symbol_before. cbv zeta.
  destruct (isNamelist x), (isNamelist y); cbn [negb Bool.eqb andb];
    rewrite ?Nat.ltb_ge; intuition (first [congruence | lia]).
Qed.

Lemma in_order_total : Total in_order.
Proof.
  intros x y. rewrite !in_order_spec.
  destruct (isNamelist x), (isNamelist y);
    destruct (Nat.le_ge_cases (name_begin x) (name_begin y));
    intuition (first [congruence | lia]).
Qed.

Lemma in_order_trans : Transitive in_order.
Proof.
  intros x y z. rewrite !in_order_spec.
  destruct (isNamelist x), (isNamelist y), (isNamelist z);
    intuition (first [congruence | lia]).
Qed.

Lemma std_sort_Permutation (l : list SymbolRef) :
  std_sort (symbol_before symbolAt) l ≡ₚ l.
Proof. apply merge_sort_Permutation. Qed.

Lemma std_sort_StronglySorted (l : list SymbolRef) :
  StronglySorted in_order (std_sort (symbol_before symbolAt) l).
Proof.
  apply (@StronglySorted_merge_sort _ in_order _ in_order_trans in_order_total).
Qed.

Lemma StronglySorted_lookup {A} (R : relation A) (l : list A) i j x y :
  StronglySorted R l -> (i < j)%nat ->
  l !! i = Some x -> l !! j = Some y -> R x y.
Proof.
  intros Hs. revert i j. induction Hs as [|a l Hs IH Hall]; intros i j Hij Hi Hj.
  - done.
  - destruct j as [|j]; [lia|]. destruct i as [|i].
    + cbn in Hi, Hj. injection Hi as <-.
      rewrite Forall_forall in Hall. apply Hall. by eapply list_elem_of_lookup_2.
    + cbn in Hi, Hj. apply (IH i j); [lia|done..].
Qed.

Lemma collect_insert_ok s acc :
  acc_ok acc ->
  acc_ok (collect_insert s acc)
  /\ forall x, x ∈ (collect_insert s acc).2 <-> x = s \/ x ∈ acc.2.
Proof.
  intros [Hnd Hset]. unfold collect_insert.
  destruct (decide (s ∈ acc.1)) as [Hin|Hin].
  - split; [done|]. intros x. split; [by right|].
    intros [->|?]; [by apply Hset|done].
  - unfold acc_ok. cbn [fst snd]. split; [split|].
    + apply NoDup_app. split; [done|]. split; [|apply NoDup_singleton].
      intros x Hx ->%list_elem_of_singleton. by apply Hin, Hset.
    + intros x. rewrite elem_of_union, elem_of_singleton, elem_of_app,
        list_elem_of_singleton, Hset. tauto.
    + intros x. rewrite elem_of_app, list_elem_of_singleton. tauto.
Qed.

Lemma collect_scope_symbols_ok l acc :
  acc_ok acc ->
  acc_ok (fold_left (collect_scope_symbol symbolAt) l acc)
  /\ forall x, x ∈ (fold_left (collect_scope_symbol symbolAt) l acc).2 <->
       x ∈ acc.2
       \/ exists n, (n, x) ∈ l /\ sym_ParentComp (symbolAt x) = false.
Proof.
  revert acc. induction l as [|[n s] l IH]; intros acc Hok; cbn [fold_left].
  - split; [done|]. intros x. split; [by left|].
    intros [?|(n & Hn & _)]; [done|]. by apply elem_of_nil in Hn.
  - unfold collect_scope_symbol at 2 4. cbn [snd].
    destruct (sym_ParentComp (symbolAt s)) eqn:Hpc.
    + destruct (IH acc Hok) as [Hok' Hmem]. split; [done|].
      intros x. rewrite Hmem. split.
      * intros [?|(m & Hm & Hx)]; [by left|]. right. exists m.
        split; [by apply elem_of_cons; right|done].
      * intros [?|(m & Hm & Hx)]; [by left|].
        apply elem_of_cons in Hm as [Heq|Hm].
        -- injection Heq as -> ->. congruence.
        -- right. by exists m.
    + destruct (collect_insert_ok s acc Hok) as [Hok1 Hmem1].
      destruct (IH _ Hok1) as [Hok' Hmem]. split; [done|].
      intros x. rewrite Hmem, Hmem1. split.
      * intros [[->|?]|(m & Hm & Hx)].
        -- right. exists n. split; [apply elem_of_cons; by left|done].
        -- by left.
        -- right. exists m. split; [by apply elem_of_cons; right|done].
      * intros [?|(m & Hm & Hx)]; [by left; right|].
        apply elem_of_cons in Hm as [Heq|Hm].
        -- injection Heq as -> ->. by left; left.
        -- right. by exists m.
Qed.

Lemma collect_common_blocks_ok l acc :
  acc_ok acc ->
  acc_ok (fold_left collect_common_block l acc)
  /\ forall x, x ∈ (fold_left collect_common_block l acc).2 <->
       x ∈ acc.2 \/ exists n, (n, x) ∈ l.
Proof.
  revert acc. induction l as [|[n s] l IH]; intros acc Hok; cbn [fold_left].
  - split; [done|]. intros x. split; [by left|].
    intros [?|(n & Hn)]; [done|]. by apply elem_of_nil in Hn.
  - unfold collect_common_block at 2 4. cbn [snd].
    destruct (collect_insert_ok s acc Hok) as [Hok1 Hmem1].
    destruct (IH _ Hok1) as [Hok' Hmem]. split; [done|].
    intros x. rewrite Hmem, Hmem1. split.
    + intros [[->|?]|(m & Hm)].
      * right. exists n. apply elem_of_cons; by left.
      * by left.
      * right. exists m. by apply elem_of_cons; right.
    + intros [?|(m & Hm)]; [by left; right|].
      apply elem_of_cons in Hm as [Heq|Hm].
      * injection Heq as -> ->. by left; left.
      * right. by exists m.
Qed.

(** C6, amended.  The collected list holds, once each, the symbols of the
    scope that are not flagged ParentComp together with the common-block
    symbols; the whole list, common blocks included, is sorted: every
    symbol that is not a namelist comes before every namelist, and within
    each of the two groups the source-name start offsets ascend. *)
Theorem CollectSymbols_sorted_by_declaration (scope : Scope) :
  let out := CollectSymbols symbolAt scope in
  NoDup out
  /\ (forall s, s ∈ out <->
        (exists n, (n, s) ∈ scope_symbols scope
                   /\ sym_ParentComp (symbolAt s) = false)
        \/ (exists n, (n, s) ∈ scope_commonBlocks scope))
  /\ (forall i j x y, (i < j)%nat -> out !! i = Some x -> out !! j = Some y ->
        (isNamelist x = true -> isNamelist y = true)
        /\ (isNamelist x = isNamelist y -> (name_begin x <= name_begin y)%nat)).
Proof.
  cbv zeta. unfold CollectSymbols.
  assert (Hok0 : acc_ok ((∅, []) : gset SymbolRef * list SymbolRef)).
  { split; [constructor|]. intros x. cbn. rewrite elem_of_nil.
    split; [|done]. apply not_elem_of_empty. }
  destruct (collect_scope_symbols_ok (scope_symbols scope) _ Hok0)
    as [Hok1 Hmem1].
  destruct (collect_common_blocks_ok (scope_commonBlocks scope) _ Hok1)
    as [[Hnd _] Hmem2].
  split; [|split].
  - by rewrite std_sort_Permutation.
  - intros s. rewrite std_sort_Permutation, Hmem2, Hmem1. cbn.
    rewrite elem_of_nil. tauto.
  - intros i j x y Hij Hi Hj. apply in_order_spec.
    eapply StronglySorted_lookup; [apply std_sort_StronglySorted|done..].
Qed.

End CollectSymbolsFacts.

Section CollectSymbolsExample.
Import ModFile.

Lemma CollectSymbols_blk_y :
  CollectSymbols blk_then_y scope_blk_y = [0%nat; 1%nat].
Proof. vm_compute. reflexivity. Qed.

(** C6, counterexample.  A common block declared before an object is
    collected before it: the sort runs over the common blocks too. *)
Lemma CollectSymbols_common_block_not_last :
  ~ common_blocks_last scope_blk_y (CollectSymbols blk_then_y scope_blk_y).
Proof.
  rewrite CollectSymbols_blk_y. intros H.
  specialize (H 0%nat 1%nat 0%nat 1%nat eq_refl eq_refl).
  assert (Hlt : (1 < 0)%nat); [|lia].
  apply H.
  - exists (str "blk"). apply list_elem_of_singleton. done.
  - intros [n Hn]. apply list_elem_of_singleton in Hn. discriminate.
Qed.

End CollectSymbolsExample.

Section ReaderFacts.
Import ModFile.
Variable Parse : option (list ascii) -> Parsing.
Variable ResolveNames : SemanticsContext -> list ProgramUnit -> SemanticsContext.
Variable FindSubmodule : SemanticsContext -> ScopeRef -> list ascii -> option ScopeRef.

Abbreviation not_loaded := (not_loaded FindSubmodule).

Lemma accepted_log e fs path : accepted (fs_log e fs) path = accepted fs path.
Proof. done. Qed.

Lemma FindModFile_loop_none dirs name anc att fs :
  Forall (fun d => accepted fs (ModFilePath d name anc) = false) dirs ->
  exists atts fs',
    FindModFile_loop dirs name anc att fs = (None, att ++ atts, fs')
    /\ length atts = length dirs /\ fs_files fs' = fs_files fs.
Proof.
  revert att fs. induction dirs as [|d dirs IH]; intros att fs Hall.
  - exists [], fs. by rewrite app_nil_r.
  - apply Forall_cons in Hall as [Hd Hall].
    cbn [FindModFile_loop]. unfold open_existing. cbv beta iota zeta.
    unfold accepted in Hd.
    destruct (fs_files fs !! ModFilePath d name anc) as [data|] eqn:Hdata.
    + rewrite Hd.
      edestruct (IH (att ++ [Msg name (ModFilePath d name anc
                                       ++ str ": Not a valid module file")
                               false []])
                   (fs_log (EvOpen (ModFilePath d name anc) in_only) fs))
        as (atts & fs' & -> & Hlen & Hfiles); [done|].
      eexists (_ :: atts), fs'. rewrite <- app_assoc. cbn. auto.
    + edestruct (IH (att ++ [Msg name (ModFilePath d name anc ++ str ": "
                                       ++ strerror_ENOENT) false []])
                   (fs_log (EvOpen (ModFilePath d name anc) in_only) fs))
        as (atts & fs' & -> & Hlen & Hfiles); [done|].
      eexists (_ :: atts), fs'. rewrite <- app_assoc. cbn. auto.
Qed.

Lemma FindModFile_loop_first pre d post name anc att fs :
  Forall (fun d => accepted fs (ModFilePath d name anc) = false) pre ->
  accepted fs (ModFilePath d name anc) = true ->
  exists atts fs',
    FindModFile_loop (pre ++ d :: post) name anc att fs
    = (Some (ModFilePath d name anc), atts, fs')
    /\ fs_files fs' = fs_files fs.
Proof.
  revert att fs. induction pre as [|p pre IH]; intros att fs Hall Hd.
  - cbn [app FindModFile_loop]. unfold open_existing. cbv beta iota zeta.
    unfold accepted in Hd.
    destruct (fs_files fs !! ModFilePath d name anc) as [data|]; [|done].
    rewrite Hd. by eexists _, _.
  - apply Forall_cons in Hall as [Hp Hall].
    cbn [app FindModFile_loop]. unfold open_existing. cbv beta iota zeta.
    unfold accepted in Hp.
    destruct (fs_files fs !! ModFilePath p name anc) as [data|] eqn:Hdata.
    + rewrite Hp.
      edestruct (IH (att ++ [Msg name (ModFilePath p name anc
                                       ++ str ": Not a valid module file")
                               false []])
                   (fs_log (EvOpen (ModFilePath p name anc) in_only) fs))
        as (atts & fs' & -> & Hfiles); [done..|].
      by exists atts, fs'.
    + edestruct (IH (att ++ [Msg name (ModFilePath p name anc ++ str ": "
                                       ++ strerror_ENOENT) false []])
                   (fs_log (EvOpen (ModFilePath p name anc) in_only) fs))
        as (atts & fs' & -> & Hfiles); [done..|].
      by exists atts, fs'.
Qed.

(** The first steps of [Read] for a module that is not loaded. *)
Lemma Read_not_loaded fuel name ancestor ancestorName ctx :
  not_loaded ctx name ancestor ancestorName ->
  Read Parse ResolveNames FindSubmodule (S fuel) name ancestor ctx
  = Read_search Parse ResolveNames
      (Read Parse ResolveNames FindSubmodule fuel) name ancestor ancestorName
      ctx.
Proof.
  intros Hnot. cbn [Read]. unfold Read_body. destruct ancestor as [anc|].
  - destruct Hnot as (-> & n & -> & ->). done.
  - destruct Hnot as (-> & ->). done.
Qed.

(** C7.  For a module that is not loaded, [Read] tries the search
    directories in order and takes the first candidate that opens and whose
    first line begins with the magic.  When no candidate is taken it returns
    null after one error "Cannot find module file ..." carrying one
    attachment for each directory.  When the candidate taken has, after the
    magic, sixteen characters that differ from the FNV-1a checksum of the
    rest of the file, it returns null after one "invalid checksum" error.
    In both failures the scopes and symbols are left as they were. *)
Theorem Read_search_failures (fuel : nat) (name : SourceName)
  (ancestor : option ScopeRef) (ancestorName : std_string)
  (ctx : SemanticsContext) :
  not_loaded ctx name ancestor ancestorName ->
  let path_in d := ModFilePath d name ancestorName in
  let rejected d := accepted (fileSystem ctx) (path_in d) = false in
  let read := Read Parse ResolveNames FindSubmodule (S fuel) name ancestor ctx in
  (forall pre d post,
      searchDirectories ctx = pre ++ d :: post ->
      Forall rejected pre -> accepted (fileSystem ctx) (path_in d) = true ->
      (FindModFile name ancestorName ctx).1 = Some (path_in d))
  /\ (Forall rejected (searchDirectories ctx) ->
      exists attachments ctx',
        read = Done None ctx'
        /\ messages ctx'
           = messages ctx
             ++ [Msg name (cannot_find_text name ancestorName) true attachments]
        /\ take 23 (cannot_find_text name ancestorName)
           = str "Cannot find module file"
        /\ length attachments = length (searchDirectories ctx)
        /\ scopes ctx' = scopes ctx /\ symbols ctx' = symbols ctx)
  /\ (forall pre d post data,
      searchDirectories ctx = pre ++ d :: post ->
      Forall rejected pre ->
      fs_files (fileSystem ctx) !! path_in d = Some data ->
      starts_with magic (getline data).1 = true ->
      take 16 (drop (length magic) (getline data).1)
        <> hex16 (fnv1a64 (getline data).2) ->
      exists ctx',
        read = Done None ctx'
        /\ messages ctx'
           = messages ctx
             ++ [Msg name (str "Module file for '" ++ ToString name
                           ++ str "' has invalid checksum: " ++ path_in d)
                   true []]
        /\ scopes ctx' = scopes ctx /\ symbols ctx' = symbols ctx).
Proof.
  intros Hnot path_in rejected read. subst read.
  rewrite (Read_not_loaded _ _ _ _ _ Hnot). unfold Read_search, FindModFile.
  split; [|split].
  - intros pre d post Hdirs Hpre Hd. rewrite Hdirs.
    destruct (FindModFile_loop_first pre d post name ancestorName []
                (fileSystem ctx) Hpre Hd) as (atts & fs' & -> & _).
    done.
  - intros Hall.
    destruct (FindModFile_loop_none _ name ancestorName [] (fileSystem ctx) Hall)
      as (atts & fs' & -> & Hlen & _).
    exists atts, (Say (Msg name (cannot_find_text name ancestorName) true atts)
                    (with_fileSystem fs' ctx)).
    split; [done|]. split; [done|]. split; [|done].
    unfold cannot_find_text. by destruct ancestorName.
  - intros pre d post data Hdirs Hpre Hdata Hmagic Hsum. rewrite Hdirs.
    assert (Hd : accepted (fileSystem ctx) (path_in d) = true).
    { unfold accepted. by rewrite Hdata. }
    destruct (FindModFile_loop_first pre d post name ancestorName []
                (fileSystem ctx) Hpre Hd) as (atts & fs' & -> & Hfiles).
    cbv beta iota zeta. unfold VerifyHeader, open_existing.
    cbn [fileSystem with_fileSystem]. rewrite Hfiles.
    fold (path_in d). rewrite Hdata. cbn [default from_option]. unfold id.
    destruct (getline data) as [header rest] eqn:Hline.
    cbn [fst snd] in Hmagic, Hsum. rewrite Hmagic.
    rewrite CheckSum_hex16, bool_decide_eq_false_2 by done.
    eexists. split; [done|]. done.
Qed.

End ReaderFacts.

Section ReaderLoaded.
Import ModFile.
Variable Parse : option (list ascii) -> Parsing.
Variable ResolveNames : SemanticsContext -> list ProgramUnit -> SemanticsContext.
Variable FindSubmodule : SemanticsContext -> ScopeRef -> list ascii -> option ScopeRef.

Abbreviation ReadMod := (Read Parse ResolveNames FindSubmodule).

Lemma Read_global_module fuel name scope ctx :
  global_module ctx name scope ->
  ReadMod (S fuel) name None ctx = Done scope ctx.
Proof.
  intros (it & symbol & Hfind & Hsym & <-).
  cbn [Read]. unfold Read_body. by rewrite Hfind, Hsym.
Qed.

Lemma find_in_alter_chars ctx f g chars scope name :
  find_in {| searchDirectories := searchDirectories ctx;
             scopes := alter (set_chars chars) scope (scopes ctx);
             symbols := f; messages := messages ctx; fileSystem := g |}
    globalScope name
  = find_in ctx globalScope name.
Proof.
  unfold find_in. cbn [scopes]. rewrite list_lookup_alter.
  destruct (decide (scope = globalScope)) as [->|]; [|done].
  destruct (lookup _ (scopes ctx)); reflexivity.
Qed.

(** A module read from its file is, afterwards, a symbol of the global
    scope with the scope that [Read] returned. *)
Lemma Read_parsed_global rec name path ctx1 scope ctx :
  Read_parsed Parse ResolveNames rec name None path ctx1 = Done (Some scope) ctx ->
  global_module ctx name (Some scope).
Proof.
  unfold Read_parsed.
  destruct (parsing_messages _) as [|? ?]; [|done].
  destruct (consumedWholeFile _); [|done].
  destruct (parseTree _) as [tree|]; [|done].
  set (ctx2 := ResolveNames _ tree).
  destruct (find_in ctx2 globalScope name) as [[modSymbol|]|] eqn:Hfind;
    [|done..].
  destruct (symbols ctx2 !! modSymbol) as [symbol|] eqn:Hsym; [|done].
  destruct (sym_scope symbol) as [sc|] eqn:Hscope; [|done].
  intros [= <- <-]. exists modSymbol, (set_ModFile symbol).
  split; [|split].
  - by rewrite find_in_alter_chars.
  - cbn [symbols]. by rewrite list_lookup_alter_eq, Hsym.
  - done.
Qed.

Lemma Read_module_loaded fuel0 name ctx0 scope ctx :
  ReadMod (S fuel0) name None ctx0 = Done (Some scope) ctx ->
  global_module ctx name (Some scope).
Proof.
  cbn [Read]. unfold Read_body.
  destruct (find_in ctx0 globalScope name) as [[it|]|] eqn:Hfind; [| |done].
  - destruct (symbols ctx0 !! it) as [symbol|] eqn:Hsym; [|done].
    intros [= Hscope <-]. by exists it, symbol.
  - unfold Read_search.
    destruct (FindModFile name [] ctx0) as [[path|] ctx1]; [|done].
    destruct (VerifyHeader path (fileSystem ctx1)) as [[|] fs]; [|done].
    apply Read_parsed_global.
Qed.

(** C10.  When the requested module is already present, as a submodule
    that the ancestor scope finds or as a symbol of the global scope, [Read]
    returns its scope at once and leaves the whole context as it was: no
    directory is searched, no file is touched (the trace of the file system
    is the same) and no message is added.  Hence a second [Read] of a module
    after a first one that returned a scope returns that same scope, again
    without changing anything. *)
Theorem Read_already_loaded (fuel : nat) (name : SourceName)
  (ctx : SemanticsContext) :
  (forall anc scope,
      FindSubmodule ctx anc (ToString name) = Some scope ->
      ReadMod (S fuel) name (Some anc) ctx = Done (Some scope) ctx)
  /\ (forall it symbol,
      find_in ctx globalScope name = Some (Some it) ->
      symbols ctx !! it = Some symbol ->
      ReadMod (S fuel) name None ctx = Done (sym_scope symbol) ctx)
  /\ (forall fuel0 ctx0 scope,
      ReadMod (S fuel0) name None ctx0 = Done (Some scope) ctx ->
      ReadMod (S fuel) name None ctx = Done (Some scope) ctx).
Proof.
  split; [|split].
  - intros anc scope Hsub. cbn [Read]. unfold Read_body. by rewrite Hsub.
  - intros it symbol Hfind Hsym. apply Read_global_module.
    by exists it, symbol.
  - intros fuel0 ctx0 scope Hfirst.
    eapply Read_global_module, Read_module_loaded, Hfirst.
Qed.

End ReaderLoaded.

Section ReaderExamples.
Import ModFile.

(** With no file in either directory, the search for [m] ends in null with
    one error that has two attachments. *)
Lemma Read_search_failures_witness :
  exists attachments ctx',
    Read no_parse no_resolve no_submodule 1 name_m None ctx_no_files
    = Done None ctx'
    /\ messages ctx'
       = [Msg name_m (str "Cannot find module file for 'm'") true attachments]
    /\ length attachments = 2%nat.
Proof.
  destruct (Read_search_failures no_parse no_resolve no_submodule 0 name_m None
              [] ctx_no_files (conj eq_refl eq_refl)) as (_ & Hnone & _).
  destruct Hnone as (atts & ctx' & Hread & Hmsg & _ & Hlen & _).
  { repeat constructor. }
  by exists atts, ctx'.
Defined.

(** Reading the loaded [m] returns scope 1 and the context itself. *)
Lemma Read_already_loaded_witness :
  Read no_parse no_resolve no_submodule 1 name_m None ctx_with_m
  = Done (Some 1%nat) ctx_with_m.
Proof.
  destruct (Read_already_loaded no_parse no_resolve no_submodule 0 name_m
              ctx_with_m) as (_ & Hglobal & _).
  exact (Hglobal 0%nat _ eq_refl eq_refl).
Defined.

End ReaderExamples.

(** ** Reasoning about computations in [StateM] *)

Section Hoare.
Context {S : Type}.

Lemma hoare_ret {A} (P : S -> Prop) (a : A) (Q : A -> S -> Prop) :
  (forall st, P st -> Q a st) -> hoare P (ret a) Q.
Proof. intros H st a' st' HP Heq. unfold ret in Heq. simplify_eq. auto. Qed.

Lemma hoare_bind {A B} (P : S -> Prop) (R : A -> S -> Prop)
  (Q : B -> S -> Prop) (m : StateM S A) (f : A -> StateM S B) :
  hoare P m R -> (forall a, hoare (R a) (f a) Q) -> hoare P (bind m f) Q.
Proof.
  intros Hm Hf st b st' HP. unfold bind.
  destruct (m st) as [[a st1]|] eqn:Hrun; [|done].
  intros Hrun'. eapply Hf; [|done]. by eapply Hm.
Qed.

Lemma hoare_die {A} (P : S -> Prop) (Q : A -> S -> Prop) : hoare P die Q.
Proof. by intros st a st' _. Qed.

Lemma hoare_gets {A} (P : S -> Prop) (f : S -> A) (Q : A -> S -> Prop) :
  (forall st, P st -> Q (f st) st) -> hoare P (gets f) Q.
Proof. intros H st a st' HP Heq. unfold gets in Heq. simplify_eq. auto. Qed.

Lemma hoare_modify (P : S -> Prop) (f : S -> S) (Q : unit -> S -> Prop) :
  (forall st, P st -> Q tt (f st)) -> hoare P (modify f) Q.
Proof.
  intros H st a st' HP Heq. unfold modify in Heq. simplify_eq. auto.
Qed.

Lemma hoare_conseq {A} (P P' : S -> Prop) (Q Q' : A -> S -> Prop) m :
  hoare P' m Q' -> (forall st, P st -> P' st) ->
  (forall a st, Q' a st -> Q a st) -> hoare P m Q.
Proof. intros Hm HP HQ st a st' H Hrun. eapply HQ, Hm; eauto. Qed.

Lemma hoare_for_each {A} (I : S -> Prop) (f : A -> StateM S unit) l :
  (forall a, hoare I (f a) (fun _ => I)) ->
  hoare I (for_each f l) (fun _ => I).
Proof.
  intros Hf. induction l as [|a l IH]; cbn [for_each].
  - by apply hoare_ret.
  - eapply hoare_bind; [apply Hf|]. intros []. apply IH.
Qed.

Lemma hoare_map_each {A B} (I : S -> Prop) (f : A -> StateM S B) l :
  (forall a, hoare I (f a) (fun _ => I)) ->
  hoare I (map_each f l) (fun _ => I).
Proof.
  intros Hf. induction l as [|a l IH]; cbn [map_each].
  - by apply hoare_ret.
  - eapply hoare_bind; [apply Hf|]. intros b.
    eapply hoare_bind; [apply IH|]. intros bs. by apply hoare_ret.
Qed.

End Hoare.

Lemma hoare_repeat_n {S} (I : S -> Prop) (m : StateM S unit) n :
  hoare I m (fun _ => I) -> hoare I (Afforestation.repeat_n n m) (fun _ => I).
Proof.
  intros Hm. induction n as [|n IH]; cbn [Afforestation.repeat_n].
  - by apply hoare_ret.
  - eapply hoare_bind; [apply Hm|]. intros []. apply IH.
Qed.

(** ** The invariant of the control-flow graph under construction *)

Section GraphInvariant.
Import Afforestation.

Lemma nonterminator_no_succ s :
  FIR.isTerminator s = false -> FIR.succ_blocks s = [].
Proof. by destruct s. Qed.

(** *** How the three updates of the block arena change a block *)

Lemma stmts_of_push s c bl b :
  (c < length bl)%nat ->
  stmts_of (alter (FIR.push_back s) c bl) b
  = if decide (c = b) then stmts_of bl b ++ [s] else stmts_of bl b.
Proof.
  intros Hc. unfold stmts_of. rewrite list_lookup_alter.
  destruct (decide (c = b)) as [->|]; [|done].
  destruct (lookup_lt_is_Some_2 bl b Hc) as [blk ->]. done.
Qed.

Lemma preds_of_push s c bl b :
  preds_of (alter (FIR.push_back s) c bl) b = preds_of bl b.
Proof.
  unfold preds_of. rewrite list_lookup_alter.
  destruct (decide (c = b)) as [->|]; [|done]. by destruct (bl !! b).
Qed.

Lemma stmts_of_addPred c t bl b :
  stmts_of (alter (FIR.addPred c) t bl) b = stmts_of bl b.
Proof.
  unfold stmts_of. rewrite list_lookup_alter.
  destruct (decide (t = b)) as [->|]; [|done].
  destruct (bl !! b) as [blk|]; [|done]. cbn. unfold FIR.addPred.
  by destruct (decide _).
Qed.

Lemma elem_of_preds_of_addPred c t bl a b :
  (t < length bl)%nat ->
  a ∈ preds_of (alter (FIR.addPred c) t bl) b
  <-> a ∈ preds_of bl b \/ (a = c /\ b = t).
Proof.
  intros Ht. unfold preds_of. rewrite list_lookup_alter.
  destruct (decide (t = b)) as [->|Hne].
  - destruct (lookup_lt_is_Some_2 bl b Ht) as [blk ->]. cbn.
    unfold FIR.addPred. destruct (decide (c ∈ FIR.preds_ blk)); cbn.
    + split; [by left|]. by intros [?|[-> _]].
    + rewrite elem_of_app, list_elem_of_singleton. intuition congruence.
  - split; [by left|]. intros [?|[_ ->]]; done.
Qed.

Lemma NoDup_preds_of_addPred c t bl b :
  NoDup (preds_of bl b) -> NoDup (preds_of (alter (FIR.addPred c) t bl) b).
Proof.
  unfold preds_of. rewrite list_lookup_alter.
  destruct (decide (t = b)) as [->|]; [|done].
  destruct (bl !! b) as [blk|]; [|done]. cbn. unfold FIR.addPred.
  destruct (decide (c ∈ FIR.preds_ blk)); cbn; [done|].
  intros Hnd. apply NoDup_app. split; [done|]. split; [|apply NoDup_singleton].
  by intros x Hx ->%list_elem_of_singleton.
Qed.

Lemma stmts_of_new r bl b :
  stmts_of (bl ++ [FIR.new_block r]) b = stmts_of bl b.
Proof.
  unfold stmts_of. destruct (decide (b < length bl)%nat).
  - by rewrite lookup_app_l.
  - rewrite (lookup_ge_None_2 bl b) by lia.
    destruct (decide (b = length bl)) as [->|].
    + by rewrite list_lookup_middle.
    + rewrite lookup_ge_None_2; [done|]. rewrite length_app. cbn. lia.
Qed.

Lemma preds_of_new r bl b :
  preds_of (bl ++ [FIR.new_block r]) b = preds_of bl b.
Proof.
  unfold preds_of. destruct (decide (b < length bl)%nat).
  - by rewrite lookup_app_l.
  - rewrite (lookup_ge_None_2 bl b) by lia.
    destruct (decide (b = length bl)) as [->|].
    + by rewrite list_lookup_middle.
    + rewrite lookup_ge_None_2; [done|]. rewrite length_app. cbn. lia.
Qed.

Lemma stmts_of_ge bl b : (length bl <= b)%nat -> stmts_of bl b = [].
Proof. intros H. unfold stmts_of. by rewrite lookup_ge_None_2. Qed.

(** *** The updates keep the invariant *)

Lemma unterminated_push s c bl b :
  (c < length bl)%nat -> FIR.isTerminator s = false ->
  unterminated bl b -> unterminated (alter (FIR.push_back s) c bl) b.
Proof.
  intros Hc Hs [Hb Hnt]. split; [by rewrite length_alter|].
  rewrite stmts_of_push by done. destruct (decide (c = b)); [|done].
  apply Forall_app. split; [done|]. by constructor.
Qed.

Lemma unterminated_push_other s c bl b :
  (c < length bl)%nat -> c <> b ->
  unterminated bl b -> unterminated (alter (FIR.push_back s) c bl) b.
Proof.
  intros Hc Hne [Hb Hnt]. split; [by rewrite length_alter|].
  rewrite stmts_of_push by done. by rewrite decide_False.
Qed.

Lemma unterminated_addPred c t bl b :
  unterminated bl b -> unterminated (alter (FIR.addPred c) t bl) b.
Proof.
  intros [Hb Hnt]. split; [by rewrite length_alter|].
  by rewrite stmts_of_addPred.
Qed.

Lemma unterminated_new r bl b :
  unterminated bl b -> unterminated (bl ++ [FIR.new_block r]) b.
Proof.
  intros [Hb Hnt]. split; [rewrite length_app; lia|].
  by rewrite stmts_of_new.
Qed.

Lemma unterminated_new_block r bl :
  unterminated (bl ++ [FIR.new_block r]) (length bl).
Proof.
  split; [rewrite length_app; cbn; lia|].
  rewrite stmts_of_new, stmts_of_ge by lia. constructor.
Qed.

Lemma Good_new r bl pend : Good bl pend -> Good (bl ++ [FIR.new_block r]) pend.
Proof.
  intros [Hnd Hedges Hlast Hpnd Hpopen]. split.
  - intros b. by rewrite preds_of_new.
  - intros a b. rewrite preds_of_new. unfold has_edge.
    setoid_rewrite stmts_of_new. apply Hedges.
  - intros b. by rewrite stmts_of_new.
  - done.
  - intros b Hb. by apply unterminated_new, Hpopen.
Qed.

Lemma Good_pending_valid bl pend b :
  Good bl pend -> b ∈ pend -> (b < length bl)%nat.
Proof. intros HG Hb. by destruct (good_pend_open _ _ HG b Hb). Qed.

(** Appending a statement that is no terminator to an unterminated
    block. *)
Lemma Good_push s c bl pend :
  FIR.isTerminator s = false -> unterminated bl c ->
  Good bl pend -> Good (alter (FIR.push_back s) c bl) pend.
Proof.
  intros Hs [Hc Hnt] [Hnd Hedges Hlast Hpnd Hpopen]. split.
  - intros b. by rewrite preds_of_push.
  - intros a b. rewrite preds_of_push, Hedges. unfold has_edge.
    rewrite stmts_of_push by done. destruct (decide (c = a)) as [->|]; [|done].
    split; intros (s' & Hin & Hsucc).
    + exists s'. split; [|done]. apply elem_of_app. by left.
    + apply elem_of_app in Hin as [Hin|Hin%list_elem_of_singleton].
      * by exists s'.
      * subst s'. rewrite nonterminator_no_succ in Hsucc by done.
        by apply elem_of_nil in Hsucc.
  - intros b. rewrite stmts_of_push by done.
    destruct (decide (c = b)) as [->|]; [|done]. by rewrite removelast_last.
  - done.
  - intros b Hb. apply unterminated_push; auto.
Qed.

(** Appending any statement to an unterminated block that waits for no
    deferred terminator: the edges of the statement are new. *)
Lemma Good_push_terminator_stmts s c bl pend :
  unterminated bl c -> c ∉ pend -> Good bl pend ->
  let bl' := alter (FIR.push_back s) c bl in
  (forall b, NoDup (preds_of bl' b))
  /\ (forall a b, a ∈ preds_of bl' b \/ (a = c /\ b ∈ FIR.succ_blocks s)
                  <-> has_edge bl' a b)
  /\ (forall b, nonterminators (removelast (stmts_of bl' b)))
  /\ (forall b, b ∈ pend -> unterminated bl' b).
Proof.
  intros [Hc Hnt] Hcp [Hnd Hedges Hlast Hpnd Hpopen] bl'. subst bl'.
  split; [|split; [|split]].
  - intros b. by rewrite preds_of_push.
  - intros a b. rewrite preds_of_push, Hedges. unfold has_edge.
    rewrite stmts_of_push by done. destruct (decide (c = a)) as [->|Hne].
    + split.
      * intros [(s' & Hin & Hsucc)|[_ Hsucc]].
        -- exists s'. split; [|done]. apply elem_of_app. by left.
        -- exists s. split; [|done]. apply elem_of_app. right.
           by apply list_elem_of_singleton.
      * intros (s' & Hin & Hsucc).
        apply elem_of_app in Hin as [Hin|Hin%list_elem_of_singleton].
        -- left. by exists s'.
        -- subst s'. by right.
    + split; [|by left]. intros [?|[-> _]]; done.
  - intros b. rewrite stmts_of_push by done.
    destruct (decide (c = b)) as [->|]; [|done]. by rewrite removelast_last.
  - intros b Hb. apply unterminated_push_other; [done| |by apply Hpopen].
    by intros ->.
Qed.

Lemma hoare_for_each_rem {S A} (I : list A -> S -> Prop)
  (f : A -> StateM S unit) l :
  (forall a rem, hoare (I (a :: rem)) (f a) (fun _ => I rem)) ->
  hoare (I l) (for_each f l) (fun _ => I []).
Proof.
  intros Hf. induction l as [|a l IH]; cbn [for_each].
  - by apply hoare_ret.
  - eapply hoare_bind; [apply Hf|]. intros []. apply IH.
Qed.

(** *** Triples for the operations of the builder *)

Lemma addPred_of_cursor_Mid c arcs keep t rem :
  hoare (Mid c arcs keep (t :: rem)) (addPred_of_cursor t)
    (fun _ => Mid c arcs keep rem).
Proof.
  intros st [] st' (Hc & Hp & Hnd & Hedges & Hlast & Hkeep) Hrun.
  unfold addPred_of_cursor in Hrun. rewrite Hc in Hrun.
  destruct (blocks st !! t) as [blk|] eqn:Ht; [|done]. simplify_eq.
  apply lookup_lt_Some in Ht.
  split; [done|]. split; [done|]. cbn [blocks with_blocks].
  split; [|split; [|split]].
  - intros b. by apply NoDup_preds_of_addPred.
  - intros a b. rewrite elem_of_preds_of_addPred by done.
    unfold has_edge. setoid_rewrite stmts_of_addPred.
    rewrite <- (Hedges a b), elem_of_cons. intuition congruence.
  - intros b. by rewrite stmts_of_addPred.
  - intros b Hb. by apply unterminated_addPred, Hkeep.
Qed.

Lemma Insert_nonterminator s fresh :
  FIR.isTerminator s = false ->
  hoare (Asrt true fresh) (Insert s) (fun _ => Asrt true fresh).
Proof.
  intros Hs st [] st' (HG & Hopen & Hfnd & Hfresh) Hrun. unfold Insert in Hrun.
  destruct (cursorBlock_ st) as [c|] eqn:Hc; [|done].
  destruct (blocks st !! c) as [blk|] eqn:Hblk; [|done]. simplify_eq.
  destruct (Hopen eq_refl c eq_refl) as [Hunt Hcp].
  pose proof Hunt as [Hlt _].
  unfold Asrt, pending.
  cbn [blocks controlFlowEdgesToAdd_ cursorBlock_ with_blocks].
  split; [by apply Good_push|]. split; [|split; [done|]].
  - intros _ c' Hc'. rewrite Hc in Hc'. simplify_eq.
    split; [by apply unterminated_push|done].
  - intros b Hb. destruct (Hfresh b Hb) as (Hub & Hbp & Hne).
    split; [by apply unterminated_push|]. split; [done|]. by rewrite Hc in *.
Qed.

(** A terminator appended to the unterminated cursor block [c], which waits
    for no deferred edge of [pend]: the graph stays good, and the blocks of
    [keep], all other than [c], stay unterminated. *)
Lemma InsertTerminator_Good s c (pend keep : list nat) st st' :
  cursorBlock_ st = Some c ->
  unterminated (blocks st) c -> c ∉ pend -> Good (blocks st) pend ->
  (forall b, b ∈ keep -> unterminated (blocks st) b /\ b <> c) ->
  InsertTerminator s st = Some (tt, st') ->
  Good (blocks st') pend
  /\ same_graph (with_blocks (blocks st') st) st'
  /\ (forall b, b ∈ keep -> unterminated (blocks st') b).
Proof.
  intros Hc Hunt Hcp HG Hkeep Hrun.
  unfold InsertTerminator, bind in Hrun.
  destruct (Insert s st) as [[[] st1]|] eqn:Hins; [|done].
  unfold Insert in Hins. rewrite Hc in Hins.
  destruct (blocks st !! c) as [blk|] eqn:Hblk; [|done]. simplify_eq.
  destruct (Good_push_terminator_stmts s c _ _ Hunt Hcp HG)
    as (Hnd & Hedges & Hlast & Hpopen).
  assert (Hmid : Mid c (controlFlowEdgesToAdd_ st) (pend ++ keep)
                   (FIR.succ_blocks s)
                   (with_blocks (alter (FIR.push_back s) c (blocks st)) st)).
  { split; [done|]. split; [done|]. cbn [blocks with_blocks].
    split; [done|]. split; [done|]. split; [done|].
    intros b [Hb|Hb]%elem_of_app; [by apply Hpopen|].
    destruct (Hkeep b Hb) as [Huf Hne].
    apply unterminated_push_other; [by destruct Hunt|done|done]. }
  pose proof (hoare_for_each_rem (Mid c (controlFlowEdgesToAdd_ st)
                (pend ++ keep)) addPred_of_cursor
                (FIR.succ_blocks s)
                (addPred_of_cursor_Mid c _ _) _ _ _ Hmid Hrun)
    as (Hc' & Hp' & Hnd' & Hedges' & Hlast' & Hkeep').
  split; [|split].
  - split; [done| |done|apply HG|].
    + intros a b. rewrite <- Hedges'. split; [by left|].
      intros [?|[_ Hin]]; [done|]. by apply elem_of_nil in Hin.
    + intros b Hb. apply Hkeep', elem_of_app. by left.
  - split; [done|]. cbn [cursorBlock_ controlFlowEdgesToAdd_ with_blocks].
    by rewrite Hc', Hp', Hc.
  - intros b Hb. apply Hkeep', elem_of_app. by right.
Qed.

Lemma InsertTerminator_triple s fresh :
  hoare (Asrt true fresh) (InsertTerminator s) (fun _ => Asrt false fresh).
Proof.
  intros st [] st' (HG & Hopen & Hfnd & Hfresh) Hrun.
  destruct (cursorBlock_ st) as [c|] eqn:Hc.
  2:{ unfold InsertTerminator, bind, Insert in Hrun. by rewrite Hc in Hrun. }
  destruct (Hopen eq_refl c eq_refl) as [Hunt Hcp].
  destruct (InsertTerminator_Good s c (pending st) fresh st st')
    as (HG' & (_ & Hc' & He') & Hkeep'); try done.
  { intros b Hb. destruct (Hfresh b Hb) as (Huf & _ & Hne).
    split; [done|]. intros ->. by apply Hne. }
  cbn [cursorBlock_ controlFlowEdgesToAdd_ with_blocks] in Hc', He'.
  unfold Asrt, pending. rewrite He'. fold (pending st).
  split; [done|]. split; [done|]. split; [done|].
  intros b Hb. destruct (Hfresh b Hb) as (_ & Hbp & _). auto.
Qed.

Lemma Asrt_same_graph open fresh st st' :
  same_graph st st' -> Asrt open fresh st -> Asrt open fresh st'.
Proof.
  intros (Hb & Hc & He). unfold Asrt, pending. by rewrite Hb, Hc, He.
Qed.

Lemma hoare_frame {A} open fresh (m : Lowering A) :
  (forall st a st', m st = Some (a, st') -> same_graph st st') ->
  hoare (Asrt open fresh) m (fun _ => Asrt open fresh).
Proof. intros Hm st a st' HA Hrun. eapply Asrt_same_graph; eauto. Qed.

Lemma Asrt_weaken_open open fresh st :
  Asrt true fresh st -> Asrt open fresh st.
Proof.
  intros (HG & Hopen & Hfnd & Hfresh). split; [done|]. split; [auto|].
  split; [done|].
  intros b Hb. destruct (Hfresh b Hb) as (? & ? & ?). auto.
Qed.

Lemma CreateBlock_triple open fresh region :
  hoare (Asrt open fresh) (CreateBlock region)
    (fun b => Asrt open (b :: fresh)).
Proof.
  intros st b st' (HG & Hopen & Hfnd & Hfresh) Hrun.
  unfold CreateBlock in Hrun.
  destruct region as [r|]; [|done]. simplify_eq.
  unfold Asrt, pending.
  cbn [blocks controlFlowEdgesToAdd_ cursorBlock_ with_blocks].
  split; [by apply Good_new|]. split; [|split].
  - intros Ho c Hc. destruct (Hopen Ho c Hc) as [Hu Hcp].
    split; [by apply unterminated_new|done].
  - apply NoDup_cons. split; [|done]. intros Hin.
    destruct (Hfresh _ Hin) as ([Hlt _] & _). lia.
  - intros b [->|Hb]%elem_of_cons.
    + split; [apply unterminated_new_block|]. split.
      * intros Hin. apply (Good_pending_valid _ _ _ HG) in Hin. lia.
      * intros Ho Hc. destruct (Hopen Ho _ Hc) as [[Hlt _] _]. lia.
    + destruct (Hfresh b Hb) as (Hu & ? & ?).
      split; [by apply unterminated_new|done].
Qed.

Lemma SetInsertionPoint_triple open fresh b :
  hoare (Asrt open (b :: fresh)) (SetInsertionPoint (Some b))
    (fun _ => Asrt true fresh).
Proof.
  intros st [] st' (HG & _ & Hfnd & Hfresh) Hrun.
  unfold SetInsertionPoint in Hrun.
  destruct (blocks st !! b) as [blk|]; [|done]. simplify_eq.
  apply NoDup_cons in Hfnd as [Hb Hfnd].
  destruct (Hfresh b) as (Hu & Hp & _); [by left|].
  split; [done|]. split; [|split; [done|]].
  - intros _ c [= <-]. done.
  - intros b' Hb'. destruct (Hfresh b') as (? & ? & _); [by right|].
    split; [done|]. split; [done|]. intros _ [= ->]. done.
Qed.

Lemma SetInsertionPoint_None_triple {P Q} :
  hoare P (SetInsertionPoint None) Q.
Proof. by intros st a st' _. Qed.

Lemma ClearInsertionPoint_triple open fresh :
  hoare (Asrt open fresh) ClearInsertionPoint (fun _ => Asrt true fresh).
Proof.
  apply hoare_modify. intros st (HG & _ & Hfnd & Hfresh).
  split; [done|]. split; [done|]. split; [done|].
  intros b Hb. destruct (Hfresh b Hb) as (? & ? & _). done.
Qed.

Lemma omap_closure_block_singleton (arc : Closure) :
  omap closure_block [arc]
  = match closure_block arc with Some b => [b] | None => [] end.
Proof. cbn. by destruct (closure_block arc). Qed.

Lemma enqueue_triple fresh (arc : option nat -> Closure) :
  (forall c, closure_block (arc c) = c) ->
  hoare (Asrt true fresh) (enqueue arc) (fun _ => Asrt false fresh).
Proof.
  intros Harc. apply hoare_modify. intros st (HG & Hopen & Hfnd & Hfresh).
  unfold Asrt, pending.
  cbn [blocks controlFlowEdgesToAdd_ cursorBlock_ with_edges].
  rewrite omap_app, omap_closure_block_singleton, Harc.
  fold (pending st). destruct (cursorBlock_ st) as [c|] eqn:Hc; cbn.
  - destruct (Hopen eq_refl c eq_refl) as [Hu Hcp].
    split; [|split; [done|split; [done|]]].
    + destruct HG as [Hnd Hedges Hlast Hpnd Hpopen]. split; [done..| |].
      * apply NoDup_app. split; [done|]. split; [|apply NoDup_singleton].
        by intros x Hx ->%list_elem_of_singleton.
      * intros b [Hb| ->%list_elem_of_singleton]%elem_of_app; auto.
    + intros b Hb. destruct (Hfresh b Hb) as (Hub & Hbp & Hne).
      split; [done|]. split; [|done].
      rewrite elem_of_app, list_elem_of_singleton. intros [?| ->]; [done|].
      by apply Hne.
  - rewrite app_nil_r. split; [done|]. split; [done|]. split; [done|].
    intros b Hb. destruct (Hfresh b Hb) as (? & ? & _). done.
Qed.

(** *** Triples for the handlers *)

Abbreviation Ready := (Asrt true []).
Abbreviation Closed := (Asrt false []).

Ltac frame_step :=
  first
    [ apply hoare_die
    | apply hoare_frame; intros ? ? ? Hrun;
      cbv [blockMap_find GetInsertionPoint GetCurrentRegion SetCurrentRegion
           Region_Create PushDoContext PopDoContext bind ret gets modify die]
        in Hrun;
      repeat case_match; simplify_eq; done ].

Lemma blockMap_insert_triple open fresh label block :
  hoare (Asrt open fresh) (blockMap_insert label block)
    (fun _ => Asrt open fresh).
Proof.
  apply hoare_modify. intros st HA.
  destruct (blockMap_ st !! label); [done|].
  eapply Asrt_same_graph; [|done]. done.
Qed.

Lemma blockMap_find_triple open fresh label :
  hoare (Asrt open fresh) (blockMap_find label) (fun _ => Asrt open fresh).
Proof. frame_step. Qed.

Lemma on_analysis_triple {A} open fresh (m : StateM AnalysisData A) :
  hoare (Asrt open fresh) (on_analysis m) (fun _ => Asrt open fresh).
Proof.
  apply hoare_frame. intros st a st' Hrun. unfold on_analysis in Hrun.
  destruct (m (analysis st)) as [[a' ad]|]; [|done]. by simplify_eq.
Qed.

Lemma CheckInsertionPoint_triple fresh :
  hoare (Asrt true fresh) CheckInsertionPoint (fun _ => Asrt true fresh).
Proof.
  unfold CheckInsertionPoint, GetInsertionPoint, GetCurrentRegion.
  eapply hoare_bind; [frame_step|]. intros [c|]; [frame_step|].
  eapply hoare_bind; [frame_step|]. intros region.
  eapply hoare_bind; [apply CreateBlock_triple|]. intros b.
  apply SetInsertionPoint_triple.
Qed.

Section Terminators.
Context (P Q : FortranIRLowering -> Prop).
Hypothesis Hterm : forall s, hoare P (InsertTerminator s) (fun _ => Q).

Lemma CreateBranch_hoare block :
  hoare P (CreateBranch block) (fun _ => Q).
Proof. destruct block; [apply Hterm|apply hoare_die]. Qed.

Lemma CreateConditionalBranch_hoare t f :
  hoare P (CreateConditionalBranch t f) (fun _ => Q).
Proof. destruct t, f; try apply hoare_die. apply Hterm. Qed.

Lemma CreateIndirectBr_hoare targets :
  hoare P (CreateIndirectBr targets) (fun _ => Q).
Proof.
  unfold CreateIndirectBr.
  destruct (non_null targets); [apply Hterm|apply hoare_die].
Qed.

Lemma CreateSwitchOf_hoare kind d rest :
  hoare P (CreateSwitchOf kind d rest) (fun _ => Q).
Proof.
  unfold CreateSwitchOf.
  destruct d, (non_null rest); try apply hoare_die. apply Hterm.
Qed.

End Terminators.

Lemma CreateBranch_triple fresh block :
  hoare (Asrt true fresh) (CreateBranch block) (fun _ => Asrt false fresh).
Proof. apply CreateBranch_hoare. intros s. apply InsertTerminator_triple. Qed.

Lemma CreateConditionalBranch_triple fresh t f :
  hoare (Asrt true fresh) (CreateConditionalBranch t f)
    (fun _ => Asrt false fresh).
Proof. apply CreateConditionalBranch_hoare. intros s. apply InsertTerminator_triple. Qed.

Lemma CreateIndirectBr_triple fresh targets :
  hoare (Asrt true fresh) (CreateIndirectBr targets)
    (fun _ => Asrt false fresh).
Proof. apply CreateIndirectBr_hoare. intros s. apply InsertTerminator_triple. Qed.

Lemma CreateSwitchOf_triple fresh kind d rest :
  hoare (Asrt true fresh) (CreateSwitchOf kind d rest)
    (fun _ => Asrt false fresh).
Proof. apply CreateSwitchOf_hoare. intros s. apply InsertTerminator_triple. Qed.

Lemma EnterRegion_triple : hoare Ready EnterRegion (fun _ => Ready).
Proof.
  unfold EnterRegion, GetCurrentRegion.
  eapply hoare_bind; [frame_step|]. intros [region|]; [|apply hoare_die].
  eapply hoare_bind.
  { apply (hoare_frame true []). intros st a st' Hrun.
    unfold Region_Create in Hrun. by simplify_eq. }
  intros newRegion.
  eapply hoare_bind; [apply CreateBlock_triple|]. intros block.
  eapply hoare_bind; [apply CheckInsertionPoint_triple|]. intros [].
  eapply hoare_bind; [apply CreateBranch_triple|]. intros [].
  apply SetInsertionPoint_triple.
Qed.

Lemma ExitRegion_triple open :
  hoare (Asrt open []) ExitRegion (fun _ => Asrt open []).
Proof.
  unfold ExitRegion, GetCurrentRegion, SetCurrentRegion.
  eapply hoare_bind; [frame_step|]. intros [r|]; [|apply hoare_die].
  eapply hoare_bind; [frame_step|]. intros [reg|]; [|apply hoare_die].
  frame_step.
Qed.

Lemma AddOrQueueBranch_triple dest :
  hoare Ready (AddOrQueueBranch dest) (fun _ => Closed).
Proof.
  unfold AddOrQueueBranch.
  eapply hoare_bind; [apply blockMap_find_triple|]. intros [block|].
  - apply CreateBranch_triple.
  - by apply enqueue_triple.
Qed.

Lemma AddOrQueueCGoto_triple t f :
  hoare Ready (AddOrQueueCGoto t f) (fun _ => Closed).
Proof.
  unfold AddOrQueueCGoto.
  eapply hoare_bind; [apply blockMap_find_triple|]. intros [tb|];
    (eapply hoare_bind; [apply blockMap_find_triple|]; intros [fb|]);
    first [apply CreateConditionalBranch_triple | by apply enqueue_triple].
Qed.

Lemma AddOrQueueSwitch_triple kind d values labels :
  hoare Ready (AddOrQueueSwitch kind d values labels) (fun _ => Closed).
Proof.
  unfold AddOrQueueSwitch.
  eapply hoare_bind; [apply blockMap_find_triple|]. intros [defaultBlock|].
  - case_bool_decide; [|apply hoare_die].
    eapply hoare_bind; [frame_step|]. intros m.
    destruct (known_blocks m labels).
    + apply CreateSwitchOf_triple.
    + by apply enqueue_triple.
  - by apply enqueue_triple.
Qed.

Lemma AddOrQueueIGoto_triple symbol labels :
  hoare Ready (AddOrQueueIGoto symbol labels) (fun _ => Closed).
Proof.
  unfold AddOrQueueIGoto.
  eapply hoare_bind.
  { instantiate (1 := fun _ => Ready).
    destruct labels; [apply on_analysis_triple|frame_step]. }
  intros useLabels.
  eapply hoare_bind; [frame_step|]. intros m.
  destruct (known_blocks m useLabels).
  - apply CreateIndirectBr_triple.
  - by apply enqueue_triple.
Qed.

Ltac inserts :=
  repeat first
    [ apply Insert_nonterminator; reflexivity
    | eapply hoare_bind; [apply Insert_nonterminator; reflexivity | intros []]
    | frame_step ].

Lemma handleActionStatement_triple stmt :
  hoare Ready (handleActionStatement stmt) (fun _ => Ready).
Proof.
  destruct stmt; cbn [handleActionStatement];
    unfold CreateAlloc, CreateDealloc, CreateExpr, CreateAddr, CreateStore,
      CreateCall, CreateIOCall, CreateRuntimeCall, CreateNullify;
    try (apply hoare_repeat_n); inserts.
  eapply hoare_bind; [apply on_analysis_triple|]. intros ref.
  eapply hoare_bind; [apply blockMap_find_triple|]. intros [[block|]|];
    unfold CreateStoreBlock; inserts.
Qed.

Lemma GetBoundsInfo_triple open doStmt :
  hoare (Asrt open []) (GetBoundsInfo doStmt) (fun _ => Asrt open []).
Proof.
  unfold GetBoundsInfo. eapply hoare_bind; [frame_step|].
  intros [|]; frame_step.
Qed.

Lemma handleLinearSwitch_triple u refs :
  hoare Ready (handleLinearSwitch u refs) (fun _ => Closed).
Proof.
  assert (Hclean : forall isDefault,
    hoare Ready (cleanupSwitchPairs isDefault refs) (fun _ => Ready)).
  { intros isDefault. unfold cleanupSwitchPairs.
    case_bool_decide; [|apply hoare_die].
    destruct (remove_default isDefault refs) as [[[? ?] ?]|]; frame_step. }
  assert (Hnext :
    hoare Ready (buildMultiwayDefaultNext refs) (fun _ => Ready)).
  { unfold buildMultiwayDefaultNext. destruct (last refs); frame_step. }
  destruct u; cbn [handleLinearSwitch]; unfold CreateExpr.
  - eapply hoare_bind; [apply Hnext|]. intros args.
    apply AddOrQueueSwitch_triple.
  - eapply hoare_bind; [apply Insert_nonterminator; reflexivity|]. intros [].
    eapply hoare_bind; [apply Hnext|]. intros args.
    apply AddOrQueueSwitch_triple.
  - eapply hoare_bind; [apply Insert_nonterminator; reflexivity|]. intros [].
    apply AddOrQueueSwitch_triple.
  - eapply hoare_bind; [apply Insert_nonterminator; reflexivity|]. intros [].
    eapply hoare_bind.
    { apply hoare_map_each. intros selector. unfold populate_case.
      destruct selector as [ranges|]; [|frame_step].
      apply hoare_bind with (R := fun _ => Ready); [|intros []; frame_step].
      apply (hoare_for_each Ready).
      intros [|[|] [|]]; unfold CreateExpr; inserts. }
    intros isDefault.
    eapply hoare_bind; [apply Hclean|]. intros args.
    apply AddOrQueueSwitch_triple.
  - eapply hoare_bind; [apply Insert_nonterminator; reflexivity|]. intros [].
    eapply hoare_bind; [apply Hclean|]. intros args.
    apply AddOrQueueSwitch_triple.
  - eapply hoare_bind; [apply Insert_nonterminator; reflexivity|]. intros [].
    eapply hoare_bind; [apply Hclean|]. intros args.
    apply AddOrQueueSwitch_triple.
Qed.

Lemma handleBeginConstruct_triple u :
  hoare Ready (handleBeginConstruct u) (fun _ => Ready).
Proof.
  destruct u; cbn [handleBeginConstruct]; unfold CreateExpr;
    try apply EnterRegion_triple; inserts.
  - eapply hoare_bind; [apply EnterRegion_triple|]. intros [].
    apply hoare_repeat_n. unfold CreateExpr, CreateAddr, CreateStore. inserts.
  - eapply hoare_bind; [apply EnterRegion_triple|]. intros [].
    unfold InitiateConstruct_Do.
    destruct control as [[| |]|]; unfold CreateExpr, CreateAddr, CreateStore,
      PushDoContext; inserts.
Qed.

Lemma handleEndConstruct_triple u :
  hoare Ready (handleEndConstruct u) (fun _ => Ready).
Proof.
  destruct u; cbn [handleEndConstruct];
    try apply ExitRegion_triple; inserts.
  apply hoare_bind with (R := fun _ => Ready);
    [|intros []; apply ExitRegion_triple].
  unfold FinishConstruct, PopDoContext. destruct control as [[| |]|]; inserts.
Qed.

Lemma handleLinearOp_triple op :
  hoare Ready (handleLinearOp op) (fun _ => Ready).
Proof.
  destruct op; cbn [handleLinearOp].
  - (* LinearLabel *)
    unfold GetCurrentRegion, GetInsertionPoint.
    eapply hoare_bind; [frame_step|]. intros region.
    eapply hoare_bind; [apply CreateBlock_triple|]. intros newBlock.
    eapply hoare_bind; [apply blockMap_insert_triple|]. intros [].
    eapply hoare_bind; [frame_step|]. intros cursor.
    apply hoare_bind with (R := fun _ => Asrt false [newBlock]);
      [|intros []; apply (SetInsertionPoint_triple false)].
    destruct cursor; [apply CreateBranch_triple|].
    apply hoare_ret. intros st. apply Asrt_weaken_open.
  - (* LinearGoto *)
    eapply hoare_bind; [apply CheckInsertionPoint_triple|]. intros [].
    eapply hoare_bind; [apply AddOrQueueBranch_triple|]. intros [].
    apply ClearInsertionPoint_triple.
  - (* LinearReturn *)
    eapply hoare_bind; [apply CheckInsertionPoint_triple|]. intros [].
    apply hoare_bind with (R := fun _ => Closed);
      [|intros []; apply (ClearInsertionPoint_triple false)].
    destruct u; unfold CreateRuntimeCall, CreateExpr, CreateUnreachable,
      CreateReturn;
      (eapply hoare_bind; [apply Insert_nonterminator; reflexivity|]);
      intros []; apply InsertTerminator_triple.
  - (* LinearConditionalGoto *)
    eapply hoare_bind; [apply CheckInsertionPoint_triple|]. intros [].
    eapply hoare_bind.
    { instantiate (1 := fun _ => Ready).
      destruct u as [| | |doStmt control]; unfold CreateExpr;
        try (apply Insert_nonterminator; reflexivity).
      unfold BuildLoopLatchExpression.
      destruct control as [[| |]|]; unfold CreateExpr;
        first [apply GetBoundsInfo_triple
              | apply Insert_nonterminator; reflexivity]. }
    intros [].
    eapply hoare_bind; [apply AddOrQueueCGoto_triple|]. intros [].
    apply ClearInsertionPoint_triple.
  - (* LinearSwitchingIO *)
    eapply hoare_bind; [apply CheckInsertionPoint_triple|]. intros [].
    eapply hoare_bind; [apply AddOrQueueSwitch_triple|]. intros [].
    apply ClearInsertionPoint_triple.
  - (* LinearSwitch *)
    eapply hoare_bind; [apply CheckInsertionPoint_triple|]. intros [].
    eapply hoare_bind; [apply handleLinearSwitch_triple|]. intros [].
    apply ClearInsertionPoint_triple.
  - (* LinearAction *)
    eapply hoare_bind; [apply CheckInsertionPoint_triple|]. intros [].
    apply handleActionStatement_triple.
  - apply handleBeginConstruct_triple.
  - apply handleEndConstruct_triple.
  - (* LinearIndirectGoto *)
    eapply hoare_bind; [apply CheckInsertionPoint_triple|]. intros [].
    eapply hoare_bind; [apply AddOrQueueIGoto_triple|]. intros [].
    apply ClearInsertionPoint_triple.
  - (* LinearDoIncrement *)
    eapply hoare_bind; [apply CheckInsertionPoint_triple|]. intros [].
    unfold handleLinearDoIncrement, CreateLoad, CreateIncrement.
    eapply hoare_bind; [apply GetBoundsInfo_triple|]. intros []. inserts.
  - (* LinearDoCompare *)
    eapply hoare_bind; [apply CheckInsertionPoint_triple|]. intros [].
    unfold handleLinearDoCompare, CreateLoad, CreateDoCondition.
    eapply hoare_bind; [apply GetBoundsInfo_triple|]. intros []. inserts.
Qed.

Lemma ConstructFIR_triple ops :
  hoare Ready (ConstructFIR ops) (fun _ => Ready).
Proof.
  assert (Hlen : forall n ops, (length ops <= n)%nat ->
            hoare Ready (ConstructFIR ops) (fun _ => Ready));
    [|by apply (Hlen (length ops))].
  clear ops. induction n as [|n IH]; intros [|op rest] Hn;
    cbn [length] in Hn; try lia; try (cbn; frame_step).
  assert (Hrest : hoare Ready (ConstructFIR rest) (fun _ => Ready)).
  { apply IH. lia. }
  destruct op; cbn [ConstructFIR];
    try (eapply hoare_bind; [apply handleLinearOp_triple|]; intros [];
         exact Hrest).
  eapply hoare_bind; [apply handleBeginConstruct_triple|]. intros [].
  destruct rest as [|next rest']; [apply hoare_die|].
  destruct next; try exact Hrest.
  unfold GetInsertionPoint.
  eapply hoare_bind; [frame_step|]. intros cursor.
  eapply hoare_bind; [apply blockMap_insert_triple|]. intros [].
  apply IH. cbn [length] in Hn. lia.
Qed.

(** *** Drawing the deferred edges *)

Lemma SetInsertionPoint_At arc c rem :
  closure_block arc = Some c ->
  hoare (Replay (arc :: rem)) (SetInsertionPoint (Some c))
    (fun _ => At c rem).
Proof.
  intros Harc st [] st' HG Hrun. unfold SetInsertionPoint in Hrun.
  destruct (blocks st !! c) as [blk|]; [|done]. simplify_eq.
  unfold Replay in HG. cbn [omap list_omap] in HG. rewrite Harc in HG.
  destruct HG as [Hnd Hedges Hlast Hpnd Hpopen].
  apply NoDup_cons in Hpnd as [Hc Hpnd].
  split; [done|]. split; [apply Hpopen; by left|]. split; [done|].
  split; [done..|]. intros b Hb. apply Hpopen. by right.
Qed.

Lemma At_frame {A} c rem (m : Lowering A) :
  (forall st a st', m st = Some (a, st') -> same_graph st st') ->
  hoare (At c rem) m (fun _ => At c rem).
Proof.
  intros Hm st a st' HA Hrun. destruct (Hm _ _ _ Hrun) as (Hb & Hc & _).
  unfold At, Replay. by rewrite Hb, Hc.
Qed.

Lemma InsertTerminator_At s c rem :
  hoare (At c rem) (InsertTerminator s) (fun _ => Replay rem).
Proof.
  intros st [] st' (Hc & Hunt & Hcp & HG) Hrun.
  destruct (InsertTerminator_Good s c (omap closure_block rem) [] st st')
    as (HG' & _); try done.
  by intros b ?%elem_of_nil.
Qed.

Lemma blockMap_find_At c rem label :
  hoare (At c rem) (blockMap_find label) (fun _ => At c rem).
Proof.
  apply At_frame. intros st a st' Hrun.
  unfold blockMap_find, gets in Hrun. by simplify_eq.
Qed.

Lemma find_all_At c rem labels :
  hoare (At c rem) (find_all labels) (fun _ => At c rem).
Proof.
  apply hoare_map_each. intros lab.
  eapply hoare_bind; [apply blockMap_find_At|].
  intros [block|]; [by apply hoare_ret|apply hoare_die].
Qed.

Lemma run_closure_Replay arc rem :
  hoare (Replay (arc :: rem)) (run_closure arc) (fun _ => Replay rem).
Proof.
  destruct (closure_block arc) as [c|] eqn:Harc.
  2:{ intros st a st' _ Hrun.
      by destruct arc; cbn in Harc; subst block. }
  pose proof (SetInsertionPoint_At arc c rem Harc) as Hset.
  pose proof (fun s => InsertTerminator_At s c rem) as Hterm.
  destruct arc as [block dest|block t f|kind block d values labels
                  |block fixme]; cbn in Harc; subst block;
    cbn [run_closure]; (eapply hoare_bind; [apply Hset|]); intros [].
  - eapply hoare_bind; [apply blockMap_find_At|].
    intros [target|]; [by apply CreateBranch_hoare|apply hoare_die].
  - eapply hoare_bind; [apply blockMap_find_At|]. intros [tb|];
      (eapply hoare_bind; [apply blockMap_find_At|]; intros [fb|]);
      first [by apply CreateConditionalBranch_hoare | apply hoare_die].
  - eapply hoare_bind.
    { instantiate (1 := fun _ => At c rem).
      case_bool_decide; [by apply hoare_ret|apply hoare_die]. }
    intros [].
    eapply hoare_bind; [apply find_all_At|]. intros cases.
    eapply hoare_bind; [apply blockMap_find_At|].
    intros [defaultBlock|]; [by apply CreateSwitchOf_hoare|apply hoare_die].
  - by apply CreateIndirectBr_hoare.
Qed.

Lemma DrawRemainingArcs_triple :
  hoare Closed DrawRemainingArcs (fun _ => Replay []).
Proof.
  unfold DrawRemainingArcs.
  eapply hoare_bind.
  { apply hoare_gets with (Q := fun arcs => Replay arcs).
    by intros st (HG & _). }
  intros arcs. apply (hoare_for_each_rem Replay), run_closure_Replay.
Qed.

Lemma initial_lowering_Ready ad : Ready (initial_lowering ad).
Proof.
  assert (Hstmts : forall b, stmts_of [FIR.new_block 0] b = []).
  { intros [|[|b]]; reflexivity. }
  assert (Hpreds : forall b, preds_of [FIR.new_block 0] b = []).
  { intros [|[|b]]; reflexivity. }
  split; [|split; [|split; [constructor|by intros b ?%elem_of_nil]]].
  - unfold pending. cbn [blocks controlFlowEdgesToAdd_ initial_lowering omap
      list_omap].
    split.
    + intros b. rewrite Hpreds. constructor.
    + intros a b. rewrite Hpreds. unfold has_edge. rewrite Hstmts.
      split; [by intros ?%elem_of_nil|].
      by intros (s & ?%elem_of_nil & _).
    + intros b. rewrite Hstmts. constructor.
    + constructor.
    + by intros b ?%elem_of_nil.
  - intros _ c [= <-]. split; [|by intros ?%elem_of_nil].
    split; [cbn; lia|]. cbn [blocks initial_lowering]. rewrite Hstmts.
    constructor.
Qed.

(** In a good graph without waiting blocks the edges are the successors of
    the terminators. *)
Lemma Good_successors st a b :
  Good (blocks st) [] ->
  has_edge (blocks st) a b <-> b ∈ successors st a.
Proof.
  intros HG. pose proof (good_last _ _ HG a) as Hlast.
  unfold has_edge, successors, FIR.terminator, stmts_of in *.
  destruct (blocks st !! a) as [block|];
    [|split; [by intros (s & ?%elem_of_nil & _)|by intros ?%elem_of_nil]].
  destruct (last (FIR.statementList_ block)) as [t|] eqn:Ht.
  - apply last_Some in Ht as [l' Hl]. rewrite Hl in *.
    rewrite removelast_last in Hlast. split.
    + intros (s & [Hs| ->%list_elem_of_singleton]%elem_of_app & Hb).
      * rewrite nonterminator_no_succ in Hb; [by apply elem_of_nil in Hb|].
        unfold nonterminators in Hlast. rewrite Forall_forall in Hlast.
        by apply Hlast.
      * destruct (FIR.isTerminator t) eqn:Hterm; [done|].
        by rewrite nonterminator_no_succ in Hb.
    + destruct (FIR.isTerminator t); [|by intros ?%elem_of_nil].
      intros Hb. exists t. split; [|done].
      apply elem_of_app. right. by apply list_elem_of_singleton.
  - apply last_None in Ht. rewrite Ht.
    split; [by intros (s & ?%elem_of_nil & _)|by intros ?%elem_of_nil].
Qed.

Lemma lowering_Good ops ad st :
  (ConstructFIR ops ;;; DrawRemainingArcs) (initial_lowering ad)
    = Some (tt, st) ->
  Good (blocks st) [].
Proof.
  intros Hrun.
  assert (Htriple : hoare Ready (ConstructFIR ops ;;; DrawRemainingArcs)
                      (fun _ => Replay [])).
  { eapply hoare_bind; [apply ConstructFIR_triple|]. intros [].
    eapply hoare_conseq; [apply DrawRemainingArcs_triple| |done].
    intros st0. apply Asrt_weaken_open. }
  exact (Htriple _ _ _ (initial_lowering_Ready ad) Hrun).
Qed.


End GraphInvariant.

(** ** The lowering on the sample procedures *)

Section LoweringExamples.
Import Afforestation.

Lemma ProcessRoutine_read_err_eor_end :
  ProcessRoutine read_err_eor_end = Some lowered_read_err_eor_end.
Proof. vm_compute. reflexivity. Qed.



Lemma NearestEnclosingDoConstruct_from_top_skips inner entry outer :
  Forall (fun e : option nat * N * N => e.2 = unspecifiedLabel) inner ->
  entry.2 <> unspecifiedLabel ->
  NearestEnclosingDoConstruct_from_top (rev (outer ++ entry :: inner))
  = Some entry.2.
Proof.
  intros Hinner Hentry.
  rewrite rev_app_distr. cbn [rev]. rewrite <- app_assoc. cbn [app].
  apply Forall_rev in Hinner. revert Hinner.
  generalize (rev inner) as l. induction l as [|e l IH]; intros Hl.
  - cbn. by rewrite bool_decide_true.
  - apply Forall_cons in Hl as [He Hl]. cbn.
    rewrite bool_decide_false by (by intros ?). by apply IH.
Qed.

(** C2. With a loop entry (exit label, increment label) innermost among the
    loop entries of the name stack, a CYCLE and an EXIT without a construct
    name are both linearized to a [LinearGoto] to the increment label of
    that entry: the EXIT does not go to the exit label. *)
Theorem Build_unnamed_exit_targets_increment
  ad outer name exit_ increment inner :
  nameStack ad = outer ++ (name, exit_, increment) :: inner ->
  Forall (fun e : option nat * N * N => e.2 = unspecifiedLabel) inner ->
  increment <> unspecifiedLabel ->
  Build (parser.CycleStmt None) ad
    = Some ([LinearGoto CycleStmt increment], ad)
  /\ Build (parser.ExitStmt None) ad
    = Some ([LinearGoto ExitStmt increment], ad).
Proof.
  intros Hstack Hinner Hinc.
  pose proof (NearestEnclosingDoConstruct_from_top_skips inner
                (name, exit_, increment) outer Hinner Hinc) as Hnear.
  unfold Build, NearestEnclosingDoConstruct, bind, gets, ret.
  rewrite Hstack, Hnear. done.
Qed.

Lemma Build_unnamed_exit_targets_increment_witness :
  Build (parser.ExitStmt None) inside_one_loop
  = Some ([LinearGoto ExitStmt 1], inside_one_loop).
Proof.
  apply (Build_unnamed_exit_targets_increment inside_one_loop [] None 3 1 []).
  - reflexivity.
  - constructor.
  - vm_compute. discriminate.
Defined.

(** The loop [do; exit; end do] as the analyzer linearizes it: label 1
    stands before the increment, label 3 after the end of the construct,
    and the EXIT goes to label 1. *)
Lemma linearize_exit_in_do :
  linearize exit_in_do
  = Some [ LinearBeginConstruct (DoConstruct 0 (Some parser.LoopBounds));
           LinearGoto LinearArtificial 0;
           LinearLabel 1; LinearDoIncrement 0;
           LinearLabel 0; LinearDoCompare 0;
           LinearConditionalGoto
             (NonLabelDoStmt 0 (Some parser.LoopBounds)) 2 3;
           LinearLabel 2; LinearGoto ExitStmt 1;
           LinearGoto LinearArtificial 1;
           LinearEndConstruct (DoConstruct 0 (Some parser.LoopBounds));
           LinearLabel 3 ].
Proof. vm_compute. reflexivity. Qed.

(** C8. The [LinearEndConstruct] of a SELECT RANK changes nothing: the
    builder stays in the child region.  After the operations of a SELECT
    RANK construct the current region is region 1, whose enclosing region
    is region 0; after those of the same SELECT TYPE construct it is
    region 0. *)
Theorem SelectRank_end_stays_in_child_region :
  (forall st, handleEndConstruct SelectRankConstructC st = Some (tt, st))
  /\ (fun st => (cursorRegion_ st, FIR.enclosing <$> regions st !! 1%nat))
       <$> construct select_rank_default
     = Some (Some 1%nat, Some (Some 0%nat))
  /\ (fun st => (cursorRegion_ st, FIR.enclosing <$> regions st !! 1%nat))
       <$> construct select_type_default
     = Some (Some 0%nat, Some (Some 0%nat)).
Proof. split; [done|]. split; vm_compute; reflexivity. Qed.

(** C9. For [assign 100 to lbl; assign 200 to lbl; goto lbl] the linearizer
    emits a [LinearIndirectGoto] with an empty label list.  The labels 100
    and 200 are interned as 0 and 1 and stand for the blocks 1 and 2, but
    the block of the GOTO ends in an indirect branch without targets and
    has no successor. *)
Theorem assigned_goto_block_has_no_successor :
  linearize assign_assign_goto
    = Some [ LinearLabel 0; LinearAction parser.AssignmentStmt;
             LinearLabel 1; LinearAction parser.AssignmentStmt;
             LinearAction (parser.AssignStmt 7 100);
             LinearAction (parser.AssignStmt 7 200);
             LinearIndirectGoto 7 [] ]
  /\ (fun st => (labelMap (analysis st) !! 100, labelMap (analysis st) !! 200,
                 blockMap_ st !! 0, blockMap_ st !! 1,
                 controlFlowEdgesToAdd_ st,
                 last (stmts_of (blocks st) 2), successors st 2))
       <$> ProcessRoutine assign_assign_goto
     = Some (Some 0, Some 1, Some (Some 1%nat), Some (Some 2%nat),
             [IndirectArc (Some 2%nat) [100; 200]],
             Some (FIR.IndirectBranchStmt []), []).
Proof. split; vm_compute; reflexivity. Qed.

End LoweringExamples.

(** * Further properties *)

(** ** The writer and the reader of module files together *)

Section WriterReaderFacts.
Import ModFile.

Lemma getline_cons c s :
  getline (c :: s)
  = if bool_decide (c = newline) then ([], s)
    else let '(line, tail) := getline s in (c :: line, tail).
Proof. reflexivity. Qed.

Lemma getline_app line rest :
  newline ∉ line -> getline (line ++ newline :: rest) = (line, rest).
Proof.
  induction line as [|c line IH]; intros Hline.
  - cbn [app]. by rewrite getline_cons, bool_decide_eq_true_2.
  - apply not_elem_of_cons in Hline as [Hc Hline].
    rewrite <- app_comm_cons, getline_cons.
    rewrite bool_decide_eq_false_2 by done. by rewrite IH.
Qed.

Lemma getline_no_newline line : newline ∉ line -> getline line = (line, []).
Proof.
  induction line as [|c line IH]; intros Hline; [done|].
  apply not_elem_of_cons in Hline as [Hc Hline].
  rewrite getline_cons, bool_decide_eq_false_2 by done. by rewrite IH.
Qed.

Lemma getline_inv s line rest :
  getline s = (line, rest) ->
  (newline ∉ line)
  /\ (s = line ++ newline :: rest \/ (s = line /\ rest = [])).
Proof.
  revert line rest. induction s as [|c s IH]; intros line rest.
  - intros [= <- <-]. split; [apply not_elem_of_nil|by right].
  - rewrite getline_cons. case_bool_decide as Hc.
    + intros [= <- <-]. subst c. split; [apply not_elem_of_nil|by left].
    + destruct (getline s) as [line' rest'] eqn:Hs. intros [= <- <-].
      destruct (IH _ _ eq_refl) as [Hline Hcases]. split.
      * by apply not_elem_of_cons.
      * destruct Hcases as [->|[-> ->]]; [by left|by right].
Qed.

Lemma CheckSum_length contents : length (CheckSum contents) = 16%nat.
Proof. by rewrite CheckSum_hex16. Qed.

Lemma CheckSum_digits contents : Forall (fun c => c ∈ digits) (CheckSum contents).
Proof.
  rewrite CheckSum_hex16. unfold hex16. apply Forall_forall. intros c Hc.
  apply list_elem_of_In, in_map_iff in Hc as (k & <- & _).
  apply lower_hex_digit_in_digits. by apply N.mod_lt.
Qed.

Lemma newline_not_in_GetHeader contents : newline ∉ GetHeader contents.
Proof.
  unfold GetHeader. rewrite elem_of_app. intros [Hmagic|Hsum].
  - revert Hmagic. by apply (bool_decide_unpack _).
  - pose proof (CheckSum_digits contents) as Hall.
    rewrite Forall_forall in Hall. apply Hall in Hsum.
    revert Hsum. by apply (bool_decide_unpack _).
Qed.

Lemma starts_with_app prefix rest : starts_with prefix (prefix ++ rest) = true.
Proof.
  unfold starts_with. apply bool_decide_eq_true_2.
  by rewrite take_app_length.
Qed.

Lemma starts_with_inv prefix s :
  starts_with prefix s = true -> exists rest, s = prefix ++ rest.
Proof.
  unfold starts_with. intros H%bool_decide_eq_true_1.
  exists (drop (length prefix) s). by rewrite <- H at 1; rewrite take_drop.
Qed.

(** What [VerifyHeader] answers on the bytes of a file. *)
Lemma VerifyHeader_on path fs :
  (VerifyHeader path fs).1
  = (let line := getline (default [] (fs_files fs !! path)) in
     starts_with magic line.1
     && bool_decide (take 16 (drop (length magic) line.1) = CheckSum line.2))
  /\ fs_files (VerifyHeader path fs).2 = fs_files fs.
Proof.
  unfold VerifyHeader, open_existing. cbv zeta.
  destruct (getline _) as [header rest]. cbn [fst snd].
  by destruct (starts_with magic header).
Qed.

Lemma VerifyHeader_written contents :
  let line := getline (GetHeader contents ++ newline :: contents) in
  starts_with magic line.1 = true
  /\ take 16 (drop (length magic) line.1) = CheckSum line.2.
Proof.
  cbv zeta. rewrite getline_app by apply newline_not_in_GetHeader.
  cbn [fst snd]. unfold GetHeader. split; [apply starts_with_app|].
  rewrite drop_app_length.
  by rewrite <- (CheckSum_length contents), firstn_all.
Qed.




(** X4.  [FileContentsMatch] answers true exactly when the stream opened
    and holds the header, a newline and the contents, with nothing before,
    between or after them. *)
Theorem FileContentsMatch_iff (stream : option std_string)
  (header contents : std_string) :
  FileContentsMatch stream header contents = true
  <-> stream = Some (header ++ newline :: contents).
Proof.
  split.
  - destruct stream as [old|]; [|done].
    by intros ->%FileContentsMatch_true.
  - intros ->. apply FileContentsMatch_same.
Qed.

(** X5.  [VerifyHeader] answers true exactly when the file exists and is
    the header of some body, then any characters other than a newline, then
    either a newline and that body, or nothing when the body is empty: what
    follows the sixteen digits on the first line is not looked at. *)
Theorem VerifyHeader_iff (path : std_string) (fs : FileSystem) :
  (VerifyHeader path fs).1 = true
  <-> exists body extra tail,
        fs_files fs !! path = Some (GetHeader body ++ extra ++ tail)
        /\ (newline ∉ extra)
        /\ (tail = newline :: body \/ (tail = [] /\ body = [])).
Proof.
  rewrite (proj1 (VerifyHeader_on _ _)). cbv zeta. split.
  - intros [Hmagic Hsum%bool_decide_eq_true_1]%andb_true_iff.
    destruct (fs_files fs !! path) as [data|] eqn:Hdata; [|done].
    cbn [default from_option] in *. unfold id in *.
    destruct (getline data) as [line rest] eqn:Hline. cbn [fst snd] in *.
    apply getline_inv in Hline as [Hnl Hcases].
    apply starts_with_inv in Hmagic as [after ->].
    rewrite drop_app_length in Hsum.
    assert (Hafter : after = CheckSum rest ++ drop 16 after).
    { by rewrite <- Hsum, take_drop. }
    assert (Hextra : newline ∉ drop 16 after).
    { intros Hin. apply Hnl, elem_of_app. right.
      rewrite Hafter. apply elem_of_app. by right. }
    exists rest, (drop 16 after). unfold GetHeader.
    destruct Hcases as [->|[-> ->]].
    + exists (newline :: rest). split; [|by auto]. f_equal.
      rewrite <- !app_assoc. f_equal.
      by rewrite (app_assoc (CheckSum _)), <- Hafter.
    + exists []. split; [|by auto]. f_equal.
      rewrite <- !app_assoc. f_equal. by rewrite app_nil_r, <- Hafter.
  - intros (body & extra & tail & -> & Hextra & Htail).
    cbn [default from_option]. unfold id.
    assert (Hnl : newline ∉ GetHeader body ++ extra).
    { rewrite elem_of_app. intros [?|?]; [|done].
      by eapply newline_not_in_GetHeader. }
    assert (Hline : getline (GetHeader body ++ extra ++ tail)
                    = (GetHeader body ++ extra, body)).
    { rewrite app_assoc. destruct Htail as [->|[-> ->]].
      - by apply getline_app.
      - rewrite app_nil_r. by apply getline_no_newline. }
    rewrite Hline. cbn [fst snd]. unfold GetHeader.
    rewrite <- !app_assoc, starts_with_app, drop_app_length.
    rewrite take_app_length'; [|by rewrite CheckSum_length].
    by rewrite bool_decide_eq_true_2.
Qed.

End WriterReaderFacts.

(** ** The search and the reading of a module file *)

Section SearchFacts.
Import ModFile.

Lemma FindModFile_loop_frame dirs name anc att fs :
  let r := FindModFile_loop dirs name anc att fs in
  fs_files r.2 = fs_files fs
  /\ (exists events,
        fs_trace r.2 = fs_trace fs ++ events
        /\ Forall opens_read_only events
        /\ (length events <= length dirs)%nat)
  /\ (forall path, r.1.1 = Some path ->
        accepted fs path = true
        /\ exists d, d ∈ dirs /\ path = ModFilePath d name anc).
Proof.
  cbv zeta. revert att fs.
  induction dirs as [|d dirs IH]; intros att fs; cbn [FindModFile_loop].
  - split; [done|]. split; [|done].
    exists []. by rewrite app_nil_r.
  - unfold open_existing. cbv beta iota zeta.
    set (path := ModFilePath d name anc).
    set (fs1 := fs_log (EvOpen path in_only) fs).
    assert (Hstep : forall att',
      let r := FindModFile_loop dirs name anc att' fs1 in
      fs_files r.2 = fs_files fs
      /\ (exists events,
            fs_trace r.2 = fs_trace fs ++ events
            /\ Forall opens_read_only events
            /\ (length events <= S (length dirs))%nat)
      /\ (forall p, r.1.1 = Some p ->
            accepted fs p = true
            /\ exists d', d' ∈ d :: dirs /\ p = ModFilePath d' name anc)).
    { intros att'. cbv zeta.
      destruct (IH att' fs1) as (Hfiles & (events & Htrace & Hall & Hlen) & Hp).
      split; [done|]. split.
      - exists (EvOpen path in_only :: events). split; [|split].
        + rewrite Htrace. unfold fs1, fs_log. cbn [fs_trace].
          by rewrite <- app_assoc.
        + constructor; [by exists path|done].
        + cbn [length]. lia.
      - intros p Hfound. destruct (Hp p Hfound) as (? & d' & ? & ?).
        split; [done|]. exists d'. split; [by right|done]. }
    destruct (fs_files fs !! path) as [data|] eqn:Hdata; [|apply Hstep].
    destruct (starts_with magic (getline data).1) eqn:Hmagic; [|apply Hstep].
    cbn [fst snd]. split; [done|]. split.
    + exists [EvOpen path in_only]. split; [done|]. split.
      * constructor; [by exists path|constructor].
      * cbn [length]. lia.
    + intros p [= <-]. split.
      * unfold accepted. by rewrite Hdata.
      * exists d. split; [by left|done].
Qed.

(** X8.  The search for a module file only reads: it leaves the search
    directories, the scopes, the symbols and the bytes of every file as
    they were, and all it does in the file system is to open at most one
    file per directory, for reading.  When it finds a file, that file is in
    one of the directories and begins with the magic, and no message is
    emitted, whatever directories were tried before. *)
Theorem FindModFile_only_reads (name : SourceName) (ancestor : std_string)
  (ctx : SemanticsContext) :
  let r := FindModFile name ancestor ctx in
  searchDirectories r.2 = searchDirectories ctx
  /\ scopes r.2 = scopes ctx /\ symbols r.2 = symbols ctx
  /\ fs_files (fileSystem r.2) = fs_files (fileSystem ctx)
  /\ (exists events,
        fs_trace (fileSystem r.2) = fs_trace (fileSystem ctx) ++ events
        /\ Forall opens_read_only events
        /\ (length events <= length (searchDirectories ctx))%nat)
  /\ (forall path, r.1 = Some path ->
        messages r.2 = messages ctx
        /\ accepted (fileSystem ctx) path = true
        /\ exists d, d ∈ searchDirectories ctx
                     /\ path = ModFilePath d name ancestor).
Proof.
  cbv zeta. unfold FindModFile.
  pose proof (FindModFile_loop_frame (searchDirectories ctx) name ancestor []
                (fileSystem ctx)) as Hloop. cbv zeta in Hloop.
  destruct (FindModFile_loop _ _ _ _ _) as [[found attachments] fs].
  cbn [fst snd] in Hloop. destruct Hloop as (Hfiles & Htrace & Hfound).
  destruct found as [path|]; cbn [fst snd];
    (split; [done|]); (split; [done|]); (split; [done|]);
    (split; [done|]); (split; [done|]); [|done].
  intros p [= <-]. destruct (Hfound path eq_refl) as (? & ?). done.
Qed.

End SearchFacts.

Section ReadFacts.
Import ModFile.
Variable Parse : option (list ascii) -> Parsing.
Variable ResolveNames :
  SemanticsContext -> list ProgramUnit -> SemanticsContext.
Variable FindSubmodule :
  SemanticsContext -> ScopeRef -> list ascii -> option ScopeRef.

(** X6.  A module file that is found and whose checksum is right, but that
    the parser does not accept (it reports a message, does not consume the
    whole file or gives no parse tree), makes [Read] return null after one
    "is corrupt" error; names are not resolved and the scopes and symbols
    stay as they were. *)
Theorem Read_corrupt_file (fuel : nat) (name : SourceName)
  (ancestor : option ScopeRef) (ancestorName : std_string)
  (ctx : SemanticsContext) (pre post : list (list ascii)) (d : list ascii)
  (data : std_string) :
  not_loaded FindSubmodule ctx name ancestor ancestorName ->
  searchDirectories ctx = pre ++ d :: post ->
  Forall (fun d' => accepted (fileSystem ctx)
                      (ModFilePath d' name ancestorName) = false) pre ->
  fs_files (fileSystem ctx) !! ModFilePath d name ancestorName = Some data ->
  (VerifyHeader (ModFilePath d name ancestorName) (fileSystem ctx)).1 = true ->
  parsing_messages (Parse (Some data)) <> []
  \/ consumedWholeFile (Parse (Some data)) = false
  \/ parseTree (Parse (Some data)) = None ->
  exists ctx',
    Read Parse ResolveNames FindSubmodule (S fuel) name ancestor ctx
    = Done None ctx'
    /\ messages ctx'
       = messages ctx
         ++ [Msg name (str "Module file for '" ++ ToString name
                       ++ str "' is corrupt: "
                       ++ ModFilePath d name ancestorName) true []]
    /\ scopes ctx' = scopes ctx /\ symbols ctx' = symbols ctx.
Proof.
  intros Hnot Hdirs Hpre Hdata Hverify Hparse.
  rewrite (Read_not_loaded _ _ _ _ _ _ _ _ Hnot).
  unfold Read_search, FindModFile. rewrite Hdirs.
  set (path := ModFilePath d name ancestorName) in *.
  assert (Hd : accepted (fileSystem ctx) path = true).
  { rewrite (proj1 (VerifyHeader_on _ _)), Hdata in Hverify.
    apply andb_true_iff in Hverify as [Hmagic _].
    unfold accepted. by rewrite Hdata. }
  destruct (FindModFile_loop_first pre d post name ancestorName []
              (fileSystem ctx) Hpre Hd) as (atts & fs' & -> & Hfiles).
  cbv beta iota zeta. cbn [fileSystem with_fileSystem]. fold path.
  pose proof (VerifyHeader_on path fs') as [Hv Hvfiles].
  rewrite Hfiles, Hdata in Hv.
  rewrite (proj1 (VerifyHeader_on _ _)), Hdata in Hverify.
  rewrite Hverify in Hv.
  destruct (VerifyHeader path fs') as [ok fs''] eqn:Hvh.
  cbn [fst snd] in Hv, Hvfiles. subst ok.
  unfold Read_parsed. cbn [fileSystem with_fileSystem fs_log fs_files].
  rewrite Hvfiles, Hfiles, Hdata.
  eexists. split; [|split; [|split]].
  - destruct (parsing_messages (Parse (Some data))) as [|m ms] eqn:Hm;
      [|reflexivity].
    destruct (consumedWholeFile (Parse (Some data))) eqn:Hc; [|reflexivity].
    destruct (parseTree (Parse (Some data))) eqn:Ht; [|reflexivity].
    by destruct Hparse as [?|[?|?]].
  - done.
  - done.
  - done.
Qed.

(** The context after the part of [Read] that parses and resolves. *)
Lemma Read_parsed_flags rec name path ctx1 scope ctx :
  Read_parsed Parse ResolveNames rec name None path ctx1
    = Done (Some scope) ctx ->
  exists it symbol,
    find_in ctx globalScope name = Some (Some it)
    /\ symbols ctx !! it = Some symbol
    /\ sym_scope symbol = Some scope
    /\ sym_ModFile symbol = true
    /\ forall s, scopes ctx !! scope = Some s ->
         scope_chars s = cooked (Parse (fs_files (fileSystem ctx1) !! path)).
Proof.
  unfold Read_parsed. cbn [fs_log fs_files].
  destruct (parsing_messages _) as [|? ?]; [|done].
  destruct (consumedWholeFile _); [|done].
  destruct (parseTree _) as [tree|]; [|done].
  set (ctx2 := ResolveNames _ tree).
  destruct (find_in ctx2 globalScope name) as [[modSymbol|]|] eqn:Hfind;
    [|done..].
  destruct (symbols ctx2 !! modSymbol) as [symbol|] eqn:Hsym; [|done].
  destruct (sym_scope symbol) as [sc|] eqn:Hscope; [|done].
  intros [= <- <-]. exists modSymbol, (set_ModFile symbol).
  split; [|split; [|split; [|split]]].
  - by rewrite find_in_alter_chars.
  - cbn [symbols]. by rewrite list_lookup_alter_eq, Hsym.
  - done.
  - done.
  - cbn [scopes]. intros s. rewrite list_lookup_alter_eq.
    destruct (scopes ctx2 !! sc) as [s0|]; [|done]. by intros [= <-].
Qed.

(** X7.  When [Read] loads a module that was not loaded before, the module
    is afterwards a symbol of the global scope with the scope that [Read]
    returned; the symbol carries the [ModFile] flag, and the scope holds
    the cooked characters of the file that was parsed, one of the
    candidates of the search directories. *)
Theorem Read_flags_module (fuel : nat) (name : SourceName)
  (ctx ctx' : SemanticsContext) (scope : ScopeRef) :
  find_in ctx globalScope name = Some None ->
  Read Parse ResolveNames FindSubmodule (S fuel) name None ctx
    = Done (Some scope) ctx' ->
  exists it symbol,
    find_in ctx' globalScope name = Some (Some it)
    /\ symbols ctx' !! it = Some symbol
    /\ sym_scope symbol = Some scope
    /\ sym_ModFile symbol = true
    /\ exists d, d ∈ searchDirectories ctx
        /\ forall s, scopes ctx' !! scope = Some s ->
             scope_chars s
             = cooked (Parse (fs_files (fileSystem ctx)
                                !! ModFilePath d name [])).
Proof.
  intros Hnot. cbn [Read]. unfold Read_body. rewrite Hnot.
  unfold Read_search.
  pose proof (FindModFile_only_reads name [] ctx) as Hfind.
  cbv zeta in Hfind.
  destruct (FindModFile name [] ctx) as [[path|] ctx1]; [|done].
  cbn [fst snd] in Hfind.
  destruct Hfind as (_ & _ & _ & Hfiles & _ & Hpath).
  destruct (Hpath path eq_refl) as (_ & _ & d & Hd & ->).
  pose proof (VerifyHeader_on (ModFilePath d name []) (fileSystem ctx1))
    as [_ Hvfiles].
  destruct (VerifyHeader _ (fileSystem ctx1)) as [[|] fs]; [|done].
  cbn [snd] in Hvfiles. intros Hread.
  apply Read_parsed_flags in Hread
    as (it & symbol & H1 & H2 & H3 & H4 & Hchars).
  exists it, symbol. repeat (split; [done|]).
  exists d. split; [done|]. intros s Hs. rewrite (Hchars s Hs).
  cbn [fileSystem with_fileSystem]. by rewrite Hvfiles, Hfiles.
Qed.

End ReadFacts.

Section ReadExamples.
Import ModFile.

Lemma Read_corrupt_file_witness :
  exists ctx',
    Read no_parse no_resolve no_submodule 1 name_m None ctx_file_m
    = Done None ctx'
    /\ messages ctx'
       = [Msg name_m (str "Module file for 'm' is corrupt: m.mod") true []].
Proof.
  destruct (Read_corrupt_file no_parse no_resolve no_submodule 0 name_m None
              [] ctx_file_m [] [] (str ".")
              (GetHeader m_body ++ newline :: m_body))
    as (ctx' & Hread & Hmsg & _).
  - split; reflexivity.
  - reflexivity.
  - constructor.
  - vm_compute. reflexivity.
  - vm_compute. reflexivity.
  - right. left. reflexivity.
  - exists ctx'. split; [exact Hread|]. exact Hmsg.
Defined.

Lemma Read_flags_module_witness :
  exists ctx' symbol,
    Read parse_module resolve_m no_submodule 1 name_m None ctx_file_m
    = Done (Some 1%nat) ctx'
    /\ symbols ctx' !! 0%nat = Some symbol
    /\ sym_ModFile symbol = true.
Proof.
  set (ctx' := match Read parse_module resolve_m no_submodule 1 name_m None
                       ctx_file_m with
               | Done _ c => c
               | _ => ctx_file_m
               end).
  assert (Hread : Read parse_module resolve_m no_submodule 1 name_m None
                    ctx_file_m = Done (Some 1%nat) ctx').
  { vm_compute. reflexivity. }
  destruct (Read_flags_module parse_module resolve_m no_submodule 0 name_m
              ctx_file_m ctx' 1%nat eq_refl Hread)
    as (it & symbol & Hfind & Hsym & _ & Hflag & _).
  exists ctx', symbol. split; [exact Hread|]. split; [|exact Hflag].
  assert (Hit : it = 0%nat).
  { vm_compute in Hfind. congruence. }
  by rewrite <- Hit.
Defined.

End ReadExamples.

(** ** Labels and the name stack of the linearizer *)

Section RunFacts.
Context {S : Type}.

Lemma bind_Some {A B} (m : StateM S A) (f : A -> StateM S B) st b st' :
  bind m f st = Some (b, st')
  <-> exists a st1, m st = Some (a, st1) /\ f a st1 = Some (b, st').
Proof.
  unfold bind. split.
  - destruct (m st) as [[a st1]|]; [|done]. intros H. by exists a, st1.
  - intros (a & st1 & -> & H). done.
Qed.

Lemma bind_None_l {A B} (m : StateM S A) (f : A -> StateM S B) st :
  m st = None -> bind m f st = None.
Proof. unfold bind. by intros ->. Qed.

End RunFacts.

Section LabelFacts.
Import Afforestation.

Lemma FetchLabel_bound l r ad :
  labelMap ad !! l = Some r -> FetchLabel l ad = Some (r, ad).
Proof. intros H. unfold FetchLabel, bind, gets. by rewrite H. Qed.

Lemma FetchLabel_new l ad :
  labelMap ad !! l = None ->
  FetchLabel l ad
  = Some (counter (labelBuilder ad),
          with_labelMap (<[l := counter (labelBuilder ad)]> (labelMap ad))
            (with_labelBuilder
               (setReferenced_in (counter (labelBuilder ad))
                  (getNext (labelBuilder ad)).2) ad)).
Proof. intros H. unfold FetchLabel, bind, gets. by rewrite H. Qed.


Lemma labels_fresh_empty : labels_fresh empty_AnalysisData.
Proof.
  unfold labels_fresh, empty_AnalysisData. cbn [labelMap].
  split; intros *; by rewrite lookup_empty.
Qed.

Lemma labels_fresh_next ad (f : gset N -> gset N) :
  labels_fresh ad ->
  counter (labelBuilder ad) + 1 < unsigned_max_plus_1 ->
  labels_fresh
    (with_labelBuilder
       {| referenced := f (referenced (labelBuilder ad));
          counter := (counter (labelBuilder ad) + 1) mod unsigned_max_plus_1 |}
       ad).
Proof.
  intros [Hlt Hinj] Hwrap. split; [|done].
  intros l r Hr. cbn [labelBuilder with_labelBuilder counter].
  rewrite N.mod_small by done. apply Hlt in Hr. lia.
Qed.

Lemma labels_fresh_insert ad l (f : gset N -> gset N) :
  labels_fresh ad ->
  counter (labelBuilder ad) + 1 < unsigned_max_plus_1 ->
  labelMap ad !! l = None ->
  labels_fresh
    (with_labelMap (<[l := counter (labelBuilder ad)]> (labelMap ad))
       (with_labelBuilder
          {| referenced := f (referenced (labelBuilder ad));
             counter :=
               (counter (labelBuilder ad) + 1) mod unsigned_max_plus_1 |}
          ad)).
Proof.
  intros [Hlt Hinj] Hwrap Hl. split.
  - intros l' r.
    cbn [labelMap with_labelMap labelBuilder with_labelBuilder counter].
    rewrite N.mod_small by done. rewrite lookup_insert.
    case_decide as Hl'; [intros [= <-]; lia|].
    intros Hr%Hlt. lia.
  - intros l1 l2 r. cbn [labelMap with_labelMap]. rewrite !lookup_insert.
    repeat case_decide; subst.
    + done.
    + intros [= <-] Hr%Hlt. lia.
    + intros Hr%Hlt [= <-]. lia.
    + apply Hinj.
Qed.


(** X11.  Two different source labels fetched one after the other get two
    different linear labels. *)
Theorem FetchLabel_distinct (ad ad1 ad2 : AnalysisData) (l1 l2 r1 r2 : N) :
  labels_fresh ad ->
  counter (labelBuilder ad) + 2 < unsigned_max_plus_1 ->
  l1 <> l2 ->
  FetchLabel l1 ad = Some (r1, ad1) ->
  FetchLabel l2 ad1 = Some (r2, ad2) ->
  r1 <> r2 /\ labelMap ad2 !! l1 = Some r1 /\ labelMap ad2 !! l2 = Some r2.
Proof.
  intros Hfresh Hwrap Hne H1 H2.
  assert (Hfresh1 : labels_fresh ad1
                    /\ counter (labelBuilder ad1) + 1 < unsigned_max_plus_1
                    /\ labelMap ad1 !! l1 = Some r1).
  { destruct (labelMap ad !! l1) as [r0|] eqn:Hl.
    - rewrite (FetchLabel_bound l1 r0 ad Hl) in H1.
      injection H1 as <- <-. split; [done|]. split; [lia|done].
    - rewrite (FetchLabel_new l1 ad Hl) in H1. injection H1 as <- <-.
      split; [|split].
      + apply (labels_fresh_insert ad l1
                 (fun s => {[counter (labelBuilder ad)]}
                           ∪ s ∖ {[counter (labelBuilder ad)]}));
          [done|lia|done].
      + cbn [labelBuilder with_labelMap with_labelBuilder counter
             setReferenced_in getNext snd].
        rewrite N.mod_small by lia. lia.
      + cbn [labelMap with_labelMap]. by rewrite lookup_insert_eq. }
  destruct Hfresh1 as (Hfresh1 & Hwrap1 & Hb1).
  assert (Hfresh2 : labels_fresh ad2 /\ labelMap ad2 !! l1 = Some r1
                    /\ labelMap ad2 !! l2 = Some r2).
  { destruct (labelMap ad1 !! l2) as [r0|] eqn:Hl.
    - rewrite (FetchLabel_bound l2 r0 ad1 Hl) in H2.
      by injection H2 as <- <-.
    - rewrite (FetchLabel_new l2 ad1 Hl) in H2. injection H2 as <- <-.
      split; [|split].
      + by apply (labels_fresh_insert ad1 l2
                 (fun s => {[counter (labelBuilder ad1)]}
                           ∪ s ∖ {[counter (labelBuilder ad1)]})).
      + cbn [labelMap with_labelMap with_labelBuilder].
        by rewrite lookup_insert_ne.
      + cbn [labelMap with_labelMap]. by rewrite lookup_insert_eq. }
  destruct Hfresh2 as ([_ Hinj] & Hb21 & Hb22).
  split; [|done]. intros ->. by apply Hne, (Hinj l1 l2 r2).
Qed.

Lemma FetchLabel_distinct_witness :
  exists ad1 ad2,
    FetchLabel 100 empty_AnalysisData = Some (0, ad1)
    /\ FetchLabel 200 ad1 = Some (1, ad2)
    /\ labelMap ad2 !! 100 = Some 0 /\ labelMap ad2 !! 200 = Some 1.
Proof.
  set (ad1 := default empty_AnalysisData
                (snd <$> FetchLabel 100 empty_AnalysisData)).
  set (ad2 := default empty_AnalysisData (snd <$> FetchLabel 200 ad1)).
  assert (H1 : FetchLabel 100 empty_AnalysisData = Some (0, ad1))
    by (vm_compute; reflexivity).
  assert (H2 : FetchLabel 200 ad1 = Some (1, ad2))
    by (vm_compute; reflexivity).
  exists ad1, ad2. split; [exact H1|]. split; [exact H2|].
  apply (FetchLabel_distinct empty_AnalysisData ad1 ad2 100 200 0 1).
  - apply labels_fresh_empty.
  - vm_compute. reflexivity.
  - discriminate.
  - exact H1.
  - exact H2.
Defined.


End LabelFacts.

Section NameStackFacts.
Import Afforestation.

Lemma FindStack_from_top_skips inner entry outer key :
  Forall (fun e : option nat * N * N => e.1.1 <> key) inner ->
  entry.1.1 = key ->
  FindStack_from_top (rev (outer ++ entry :: inner)) key = Some entry.
Proof.
  intros Hinner Hentry.
  rewrite rev_app_distr. cbn [rev]. rewrite <- app_assoc. cbn [app].
  apply Forall_rev in Hinner. revert Hinner.
  generalize (rev inner) as l. induction l as [|e l IH]; intros Hl.
  - cbn. by rewrite bool_decide_eq_true_2.
  - apply Forall_cons in Hl as [He Hl]. cbn.
    rewrite bool_decide_eq_false_2 by done. by apply IH.
Qed.

Lemma FindStack_from_top_none stack key :
  Forall (fun e : option nat * N * N => e.1.1 <> key) stack ->
  FindStack_from_top stack key = None.
Proof.
  induction 1 as [|e l He Hl IH]; [done|]. cbn.
  by rewrite bool_decide_eq_false_2.
Qed.

Lemma NearestEnclosingDoConstruct_from_top_none stack :
  Forall (fun e : option nat * N * N => e.2 = unspecifiedLabel) stack ->
  NearestEnclosingDoConstruct_from_top stack = None.
Proof.
  induction 1 as [|e l He Hl IH]; [done|]. cbn.
  rewrite bool_decide_eq_false_2; [done|]. by intros ?.
Qed.



(** X13.  A CYCLE or EXIT without a target construct stops the analysis
    ([SEMANTICS_FAILED]): without a name when no entry of the name stack has
    an increment label, with a name when no entry carries that name. *)
Theorem Build_exit_or_cycle_outside (ad : AnalysisData) (v : option nat) :
  match v with
  | None =>
      Forall (fun e : option nat * N * N => e.2 = unspecifiedLabel)
        (nameStack ad)
  | Some name =>
      Forall (fun e : option nat * N * N => e.1.1 <> Some name) (nameStack ad)
  end ->
  Build (parser.ExitStmt v) ad = None /\ Build (parser.CycleStmt v) ad = None.
Proof.
  destruct v as [name|]; intros Hstack%Forall_rev.
  - apply FindStack_from_top_none in Hstack.
    unfold Build, FindStack, bind, gets. by rewrite Hstack.
  - apply NearestEnclosingDoConstruct_from_top_none in Hstack.
    unfold Build, NearestEnclosingDoConstruct, bind, gets. by rewrite Hstack.
Qed.

Lemma Build_exit_or_cycle_outside_witness :
  Build (parser.ExitStmt None) empty_AnalysisData = None
  /\ Build (parser.CycleStmt (Some 7%nat)) inside_named_loop = None.
Proof.
  split.
  - apply (Build_exit_or_cycle_outside empty_AnalysisData None). constructor.
  - apply (Build_exit_or_cycle_outside inside_named_loop (Some 7%nat)).
    repeat constructor; discriminate.
Defined.

End NameStackFacts.

(** ** The labels of ASSIGN statements *)

Section AssignFacts.
Import Afforestation.

Lemma elem_of_set_insert x s y : y ∈ set_insert x s <-> y = x \/ y ∈ s.
Proof.
  induction s as [|z s IH]; cbn [set_insert].
  - rewrite list_elem_of_singleton, elem_of_nil. tauto.
  - destruct (x <? z) eqn:Hlt; [by rewrite elem_of_cons|].
    destruct (x =? z) eqn:Heq.
    + apply N.eqb_eq in Heq as ->. rewrite elem_of_cons. tauto.
    + rewrite !elem_of_cons, IH. tauto.
Qed.

Lemma set_insert_sorted x s :
  StronglySorted N.lt s -> StronglySorted N.lt (set_insert x s).
Proof.
  induction 1 as [|z s Hs IH Hz]; cbn [set_insert].
  - repeat constructor.
  - destruct (x <? z) eqn:Hlt.
    + apply N.ltb_lt in Hlt. constructor; [by constructor|].
      constructor; [done|]. eapply Forall_impl; [done|]. intros y Hy. cbn in *.
      lia.
    + destruct (x =? z) eqn:Heq; [by constructor|].
      apply N.ltb_ge in Hlt. apply N.eqb_neq in Heq.
      constructor; [done|]. apply Forall_forall. intros y Hy.
      apply elem_of_set_insert in Hy as [->|Hy]; [lia|].
      by eapply Forall_forall in Hz.
Qed.

Lemma map_mod_small (l : list N) :
  Forall (fun x => x < unsigned_max_plus_1) l ->
  map (fun lab => lab mod unsigned_max_plus_1) l = l.
Proof.
  induction 1 as [|x l Hx _ IH]; [done|]. cbn [map].
  by rewrite IH, N.mod_small.
Qed.



End AssignFacts.

(** ** What [Walk] keeps and what it emits *)

Section WalkEquations.
Import Afforestation.

Lemma WalkAll_cons c rest :
  WalkAll (c :: rest)
  = (ops <~ Walk c ;; more <~ WalkAll rest ;; ret (ops ++ more)).
Proof. reflexivity. Qed.

Lemma Walk_Statement label statement :
  Walk (parser.Statement label statement)
  = (ops <~ statement_label label ;; more <~ Build statement ;;
     ret (ops ++ more)).
Proof. reflexivity. Qed.

Lemma Walk_AssociateConstruct name associations block :
  Walk (parser.AssociateConstruct name associations block)
  = linear_construct (AssociateConstruct associations) name (WalkAll block).
Proof. reflexivity. Qed.

Lemma Walk_ChangeTeamConstruct name block :
  Walk (parser.ChangeTeamConstruct name block)
  = linear_construct ChangeTeamConstruct name (WalkAll block).
Proof. reflexivity. Qed.

Lemma Walk_CriticalConstruct name block :
  Walk (parser.CriticalConstruct name block)
  = linear_construct CriticalConstruct name (WalkAll block).
Proof. reflexivity. Qed.

Lemma Walk_WhereConstruct name labels :
  Walk (parser.WhereConstruct name labels)
  = linear_construct WhereConstruct name (labels_only labels).
Proof. reflexivity. Qed.

Lemma Walk_ForallConstruct name labels :
  Walk (parser.ForallConstruct name labels)
  = linear_construct ForallConstruct name (labels_only labels).
Proof. reflexivity. Qed.

Lemma Walk_BlockConstruct name block :
  Walk (parser.BlockConstruct name block)
  = (label <~ BuildNewLabel ;;
     ref <~ GetLabelRef label ;;
     push_name name ref unspecifiedLabel ;;;
     body <~ WalkAll block ;;
     pop_name ;;;
     ret (LinearBeginConstruct BlockConstruct :: body
          ++ [LinearEndConstruct BlockConstruct; LinearLabel label])).
Proof. reflexivity. Qed.

Lemma Walk_DoConstruct doStmt name control block :
  Walk (parser.DoConstruct doStmt name control block)
  = (backedgeLab <~ BuildNewLabel ;;
     incrementLab <~ BuildNewLabel ;;
     entryLab <~ BuildNewLabel ;;
     exitLab <~ BuildNewLabel ;;
     exitOpRef <~ GetLabelRef exitLab ;;
     incrementRef <~ GetLabelRef incrementLab ;;
     push_name name exitOpRef incrementRef ;;;
     backedgeRef <~ GetLabelRef backedgeLab ;;
     entryRef <~ GetLabelRef entryLab ;;
     body <~ WalkAll block ;;
     incrementRef' <~ GetLabelRef incrementLab ;;
     pop_name ;;;
     ret ([LinearBeginConstruct (DoConstruct doStmt control);
           LinearGoto LinearArtificial backedgeRef;
           LinearLabel incrementLab;
           LinearDoIncrement doStmt;
           LinearLabel backedgeLab;
           LinearDoCompare doStmt;
           LinearConditionalGoto (NonLabelDoStmt doStmt control)
             entryRef exitOpRef;
           LinearLabel entryLab]
          ++ body
          ++ [LinearGoto LinearArtificial incrementRef';
              LinearEndConstruct (DoConstruct doStmt control);
              LinearLabel exitLab])).
Proof. reflexivity. Qed.

Lemma Walk_IfConstruct name block elseIfs elseBlock :
  Walk (parser.IfConstruct name block elseIfs elseBlock)
  = (thenLab <~ BuildNewLabel ;;
     elseLab <~ BuildNewLabel ;;
     exitLab <~ BuildNewLabel ;;
     exitRef <~ GetLabelRef exitLab ;;
     push_name name exitRef unspecifiedLabel ;;;
     thenRef <~ GetLabelRef thenLab ;;
     elseRef <~ GetLabelRef elseLab ;;
     body <~ WalkAll block ;;
     exitOpRef <~ GetLabelRef exitLab ;;
     rest <~ else_ifs elseBlock exitOpRef elseIfs elseLab ;;
     pop_name ;;;
     ret ([LinearBeginConstruct IfConstruct;
           LinearConditionalGoto IfThenStmt thenRef elseRef;
           LinearLabel thenLab]
          ++ body ++ LinearGoto LinearArtificial exitOpRef :: rest
          ++ [LinearGoto LinearArtificial exitOpRef; LinearLabel exitLab;
              LinearEndConstruct IfConstruct])).
Proof. reflexivity. Qed.

Lemma Walk_CaseConstruct name cases :
  Walk (parser.CaseConstruct name cases)
  = multiway CaseConstructC CaseConstruct name cases.
Proof. reflexivity. Qed.

Lemma Walk_SelectRankConstruct name cases :
  Walk (parser.SelectRankConstruct name cases)
  = multiway SelectRankConstructC SelectRankConstruct name cases.
Proof. reflexivity. Qed.

Lemma Walk_SelectTypeConstruct name cases :
  Walk (parser.SelectTypeConstruct name cases)
  = multiway SelectTypeConstructC SelectTypeConstruct name cases.
Proof. reflexivity. Qed.

End WalkEquations.

Section WalkInduction.

(** Induction on an element of a block, with the blocks nested in it. *)
Lemma ExecutionPartConstruct_nested_ind
  (P : parser.ExecutionPartConstruct -> Prop) :
  (forall label statement, P (parser.Statement label statement)) ->
  (forall label, P (parser.OtherStatement label)) ->
  (forall name associations block, Forall P block ->
     P (parser.AssociateConstruct name associations block)) ->
  (forall name block, Forall P block -> P (parser.BlockConstruct name block)) ->
  (forall name cases, Forall (fun cb => Forall P cb.2) cases ->
     P (parser.CaseConstruct name cases)) ->
  (forall name block, Forall P block ->
     P (parser.ChangeTeamConstruct name block)) ->
  (forall name block, Forall P block ->
     P (parser.CriticalConstruct name block)) ->
  (forall doStmt name control block, Forall P block ->
     P (parser.DoConstruct doStmt name control block)) ->
  (forall name block elseIfs elseBlock,
     Forall P block -> Forall (Forall P) elseIfs ->
     (forall b, elseBlock = Some b -> Forall P b) ->
     P (parser.IfConstruct name block elseIfs elseBlock)) ->
  (forall name cases, Forall (fun cb => Forall P cb.2) cases ->
     P (parser.SelectRankConstruct name cases)) ->
  (forall name cases, Forall (fun cb => Forall P cb.2) cases ->
     P (parser.SelectTypeConstruct name cases)) ->
  (forall name labels, P (parser.WhereConstruct name labels)) ->
  (forall name labels, P (parser.ForallConstruct name labels)) ->
  forall c, P c.
Proof.
  intros HStatement HOther HAssociate HBlock HCase HChangeTeam HCritical HDo
    HIf HRank HType HWhere HForall.
  fix IH 1. intros c.
  pose (Hblock :=
    fix IHblock (block : list parser.ExecutionPartConstruct)
      : Forall P block :=
      match block with
      | [] => List.Forall_nil P
      | c' :: block' => @List.Forall_cons _ P c' block' (IH c') (IHblock block')
      end).
  pose (Hcases := fun A : Type =>
    fix IHcases (cases : list (A * list parser.ExecutionPartConstruct))
      : Forall (fun cb => Forall P cb.2) cases :=
      match cases with
      | [] => List.Forall_nil _
      | cb :: cases' =>
          @List.Forall_cons _ (fun cb => Forall P cb.2) cb cases'
            (Hblock cb.2) (IHcases cases')
      end).
  pose (Helse :=
    fix IHelse (elseIfs : list (list parser.ExecutionPartConstruct))
      : Forall (Forall P) elseIfs :=
      match elseIfs with
      | [] => List.Forall_nil _
      | b :: elseIfs' =>
          @List.Forall_cons _ (Forall P) b elseIfs' (Hblock b) (IHelse elseIfs')
      end).
  destruct c.
  - apply HStatement.
  - apply HOther.
  - apply HAssociate, Hblock.
  - apply HBlock, Hblock.
  - apply HCase, Hcases.
  - apply HChangeTeam, Hblock.
  - apply HCritical, Hblock.
  - apply HDo, Hblock.
  - apply HIf; [apply Hblock|apply Helse|].
    destruct elseBlock as [b0|]; intros b Hb; [|discriminate Hb].
    injection Hb as <-. apply Hblock.
  - apply HRank, Hcases.
  - apply HType, Hcases.
  - apply HWhere.
  - apply HForall.
Qed.

End WalkInduction.

Section WalkFacts.
Import Afforestation.

Lemma hoare_pure {S A} (phi : Prop) (P : S -> Prop) (m : StateM S A) Q :
  (phi -> hoare P m Q) -> hoare (fun st => phi /\ P st) m Q.
Proof. intros H st a st' [Hphi HP]. by apply H. Qed.

(** *** Balanced lists and placed targets *)

Lemma Balanced_atoms ops :
  Forall (fun op => is_construct_op op = false) ops -> Balanced ops.
Proof. induction 1; by constructor. Qed.

Lemma Balanced_app a b : Balanced a -> Balanced b -> Balanced (a ++ b).
Proof.
  induction 1 as [|op ops Hop Hops IH|u inner ops Hinner _ Hops IH];
    intros Hb; cbn [app].
  - done.
  - apply Balanced_op; auto.
  - rewrite <- app_assoc. cbn [app]. apply Balanced_construct; auto.
Qed.

Lemma Balanced_cons_atom op ops :
  is_construct_op op = false -> Balanced ops -> Balanced (op :: ops).
Proof. by constructor. Qed.

Lemma placed_within_app a b scope :
  placed_within (a ++ b) scope
  <-> placed_within a scope /\ placed_within b scope.
Proof.
  unfold placed_within. setoid_rewrite elem_of_app. split.
  - intros H. split; intros op t Hop Ht; apply (H op t); auto.
  - intros [Ha Hb] op t [Hop|Hop] Ht; [by apply (Ha op t)|by apply (Hb op t)].
Qed.

Lemma placed_within_cons op ops scope :
  placed_within (op :: ops) scope
  <-> (forall t, t ∈ structural_targets op -> LinearLabel t ∈ scope)
      /\ placed_within ops scope.
Proof.
  unfold placed_within. setoid_rewrite elem_of_cons. split.
  - intros H. split; [intros t Ht; apply (H op t); auto|].
    intros op' t Hop Ht. apply (H op' t); auto.
  - intros [Ha Hb] op' t [->|Hop] Ht; [by apply Ha|by apply (Hb op' t)].
Qed.

Lemma placed_within_nil scope : placed_within [] scope.
Proof. intros op t Hop. by apply elem_of_nil in Hop. Qed.

Lemma placed_within_mono ops scope scope' :
  placed_within ops scope -> scope ⊆ scope' -> placed_within ops scope'.
Proof. intros H Hsub op t Hop Ht. apply Hsub, (H op t); done. Qed.

Lemma placed_within_labels ops scope :
  Forall (fun op => structural_targets op = []) ops -> placed_within ops scope.
Proof.
  intros Hall op t Hop Ht. rewrite Forall_forall in Hall.
  rewrite (Hall op Hop) in Ht. by apply elem_of_nil in Ht.
Qed.

(** *** The steps of the analyzer and the name stack *)

Abbreviation Stk s := (fun ad : AnalysisData => nameStack ad = s).

Lemma hoare_stack_frame {A} s (m : StateM AnalysisData A) :
  (forall ad a ad', m ad = Some (a, ad') -> nameStack ad' = nameStack ad) ->
  hoare (Stk s) m (fun _ => Stk s).
Proof. intros Hm ad a ad' Hs Hrun. by rewrite (Hm _ _ _ Hrun). Qed.

Ltac stack_frame :=
  apply hoare_stack_frame; intros ? ? ? Hrun;
  cbv [FetchLabel findLabel BuildNewLabel setReferenced AddAssign GetAssign
       FindStack NearestEnclosingDoConstruct GetLabelRef fetch_if_present
       bind ret gets modify die] in Hrun;
  repeat case_match; simplify_eq; done.

Lemma BuildNewLabel_stack s : hoare (Stk s) BuildNewLabel (fun _ => Stk s).
Proof. stack_frame. Qed.

Lemma FetchLabel_stack s l : hoare (Stk s) (FetchLabel l) (fun _ => Stk s).
Proof. stack_frame. Qed.

Lemma GetLabelRef_stack s l :
  hoare (Stk s) (GetLabelRef l) (fun r ad => r = l /\ Stk s ad).
Proof.
  intros ad r ad' Hs Hrun. cbv [GetLabelRef setReferenced bind modify ret]
    in Hrun. by simplify_eq.
Qed.

Lemma push_name_stack s name exit_ increment :
  hoare (Stk s) (push_name name exit_ increment)
    (fun _ => Stk (s ++ [(name, exit_, increment)])).
Proof. apply hoare_modify. by intros ad <-. Qed.

Lemma pop_name_stack s entry :
  hoare (Stk (s ++ [entry])) pop_name (fun _ => Stk s).
Proof.
  apply hoare_modify. intros ad Had. cbn [nameStack with_nameStack].
  by rewrite Had, removelast_last.
Qed.

Lemma toLabelRef_stack s labels :
  hoare (Stk s) (toLabelRef labels) (fun _ => Stk s).
Proof. apply hoare_map_each. intros l. apply FetchLabel_stack. Qed.

Lemma map_each_BuildNewLabel_stack {A} s (cases : list A) :
  hoare (Stk s) (map_each (fun _ => BuildNewLabel) cases)
    (fun labels ad => length labels = length cases /\ Stk s ad).
Proof.
  induction cases as [|c cases IH]; cbn [map_each].
  - by apply hoare_ret.
  - eapply hoare_bind; [apply BuildNewLabel_stack|]. intros l.
    eapply hoare_bind; [apply IH|]. intros ls.
    apply hoare_pure. intros Hlen. apply hoare_ret. intros ad Had.
    cbn [length]. by rewrite Hlen.
Qed.

Lemma map_each_GetLabelRef_stack s labels :
  hoare (Stk s) (map_each GetLabelRef labels)
    (fun refs ad => refs = labels /\ Stk s ad).
Proof.
  induction labels as [|l labels IH]; cbn [map_each].
  - by apply hoare_ret.
  - eapply hoare_bind; [apply GetLabelRef_stack|]. intros r.
    apply hoare_pure. intros ->.
    eapply hoare_bind; [apply IH|]. intros rs.
    apply hoare_pure. intros ->. by apply hoare_ret.
Qed.

Lemma label_ops_shape stack ops ad :
  Forall is_label_op ops -> nameStack ad = stack -> WalkPost stack ops ad.
Proof.
  intros Hall Hs. split; [done|]. split.
  - apply Balanced_atoms. eapply Forall_impl; [done|]. by intros op [r ->].
  - apply placed_within_labels. eapply Forall_impl; [done|].
    by intros op [r ->].
Qed.

Lemma statement_label_stack s label :
  hoare (Stk s) (statement_label label)
    (fun ops ad => Forall is_label_op ops /\ Stk s ad).
Proof.
  destruct label as [lab|]; cbn [statement_label].
  2:{ apply hoare_ret. intros ad Had. split; [constructor|done]. }
  intros ad ops ad' Hs Hrun.
  cbv [findLabel BuildNewLabel getNext bind ret gets modify] in Hrun.
  destruct (labelMap ad !! lab) as [ll|]; simplify_eq;
    (split; [|done]); apply Forall_singleton; by eexists.
Qed.

Lemma labels_only_stack s labels :
  hoare (Stk s) (labels_only labels)
    (fun ops ad => Forall is_label_op ops /\ Stk s ad).
Proof.
  induction labels as [|l labels IH]; cbn [labels_only].
  - apply hoare_ret. intros ad Had. split; [constructor|done].
  - eapply hoare_bind; [apply statement_label_stack|]. intros ops.
    apply hoare_pure. intros Hops.
    eapply hoare_bind; [apply IH|]. intros more.
    apply hoare_pure. intros Hmore. apply hoare_ret. intros ad Had.
    split; [|done]. by apply Forall_app.
Qed.


(** *** The shape of what the steps return *)

Lemma hoare_after_walk {A} s ops (m : Analysis A) Q :
  (Balanced ops -> targets_placed ops -> hoare (Stk s) m Q) ->
  hoare (WalkPost s ops) m Q.
Proof. intros H ad a ad' (Hs & Hb & Hp). by apply H. Qed.

Lemma targets_placed_app a b :
  targets_placed a -> targets_placed b -> targets_placed (a ++ b).
Proof.
  intros Ha Hb. apply placed_within_app. split.
  - eapply placed_within_mono; [exact Ha|]. intros x Hx. apply elem_of_app. auto.
  - eapply placed_within_mono; [exact Hb|]. intros x Hx. apply elem_of_app. auto.
Qed.

Lemma Balanced_wrap u inner tail l :
  Balanced inner -> Balanced tail ->
  l = LinearBeginConstruct u :: inner ++ LinearEndConstruct u :: tail ->
  Balanced l.
Proof. intros Hi Ht ->. by apply Balanced_construct. Qed.

Ltac atoms := apply Balanced_atoms; repeat constructor.
Ltac list_eq :=
  repeat (progress (cbn [app]; rewrite <- ?app_assoc)); reflexivity.
Ltac solve_or :=
  solve [reflexivity | assumption | left; solve_or | right; solve_or].
Ltac in_list :=
  repeat (rewrite elem_of_cons || rewrite elem_of_app); first [tauto|solve_or].
Ltac own_targets :=
  let t := fresh "t" in let Ht := fresh "Ht" in
  intros t Ht; cbn [structural_targets] in Ht; rewrite ?last_snoc in Ht;
  repeat match type of Ht with
         | _ ∈ [] => by apply elem_of_nil in Ht
         | _ ∈ _ :: _ => apply elem_of_cons in Ht as [->|Ht]
         end;
  in_list.
Ltac inner_targets H :=
  eapply placed_within_mono; [exact H|];
  let x := fresh "x" in let Hx := fresh "Hx" in
  intros x Hx; revert Hx; in_list.


Ltac step_with lem := eapply hoare_bind; [apply lem|]; intros ?.
Ltac finish_atoms :=
  apply hoare_ret; intros ? ?; split; [done|]; split;
  [atoms
  |unfold targets_placed;
   repeat (apply placed_within_cons; split; [own_targets|]);
   apply placed_within_nil].

Lemma fetch_if_present_stack s lab :
  hoare (Stk s) (fetch_if_present lab) (fun _ => Stk s).
Proof. stack_frame. Qed.

Lemma AddAssign_stack s symbol label :
  hoare (Stk s) (AddAssign symbol label) (fun _ => Stk s).
Proof. stack_frame. Qed.

Lemma FindStack_stack s key :
  hoare (Stk s) (FindStack key) (fun _ => Stk s).
Proof. stack_frame. Qed.

Lemma NearestEnclosingDoConstruct_stack s :
  hoare (Stk s) NearestEnclosingDoConstruct (fun _ => Stk s).
Proof. stack_frame. Qed.

Lemma errLabelSpec_post s kind specs ec :
  hoare (Stk s) (errLabelSpec kind specs ec) (WalkPost s).
Proof.
  unfold errLabelSpec. case_match; [finish_atoms|].
  step_with FetchLabel_stack. step_with BuildNewLabel_stack. finish_atoms.
Qed.

Lemma threeLabelSpec_post s kind specs ec :
  hoare (Stk s) (threeLabelSpec kind specs ec) (WalkPost s).
Proof.
  unfold threeLabelSpec. case_match; [finish_atoms|].
  do 3 step_with fetch_if_present_stack. step_with BuildNewLabel_stack.
  finish_atoms.
Qed.

Lemma Build_post s ec : hoare (Stk s) (Build ec) (WalkPost s).
Proof.
  destruct ec; cbn [Build]; try finish_atoms.
  - destruct altReturns; [finish_atoms|].
    step_with BuildNewLabel_stack. step_with toLabelRef_stack. finish_atoms.
  - eapply hoare_bind with (R := fun _ => Stk s); [|intros; finish_atoms].
    destruct v; [|apply NearestEnclosingDoConstruct_stack].
    step_with FindStack_stack. by apply hoare_ret.
  - eapply hoare_bind with (R := fun _ => Stk s); [|intros; finish_atoms].
    destruct v; [|apply NearestEnclosingDoConstruct_stack].
    step_with FindStack_stack. by apply hoare_ret.
  - step_with FetchLabel_stack. finish_atoms.
  - do 2 step_with BuildNewLabel_stack. finish_atoms.
  - destruct kind; first [apply threeLabelSpec_post|apply errLabelSpec_post].
  - apply hoare_die.
  - step_with BuildNewLabel_stack. step_with toLabelRef_stack. finish_atoms.
  - step_with toLabelRef_stack. finish_atoms.
  - step_with AddAssign_stack. finish_atoms.
  - step_with toLabelRef_stack. finish_atoms.
Qed.


(** *** Blocks and constructs *)

Lemma WalkAll_post block :
  Forall Walks block -> forall s, hoare (Stk s) (WalkAll block) (WalkPost s).
Proof.
  induction 1 as [|c block Hc _ IH]; intros s; cbn [WalkAll].
  - finish_atoms.
  - eapply hoare_bind; [apply Hc|]. intros ops.
    apply hoare_after_walk. intros Hb Hp.
    eapply hoare_bind; [apply IH|]. intros more.
    apply hoare_after_walk. intros Hb' Hp'.
    apply hoare_ret. intros ad Had. split; [done|].
    split; [by apply Balanced_app|by apply targets_placed_app].
Qed.

Lemma labels_only_post s labels :
  hoare (Stk s) (labels_only labels) (WalkPost s).
Proof.
  intros ad ops ad' Hs Hrun.
  destruct (labels_only_stack s labels ad ops ad' Hs Hrun) as [Hops Had].
  by apply label_ops_shape.
Qed.

Lemma linear_construct_post construct name body :
  (forall s, hoare (Stk s) body (WalkPost s)) ->
  forall s, hoare (Stk s) (linear_construct construct name body) (WalkPost s).
Proof.
  intros Hbody s. unfold linear_construct.
  step_with BuildNewLabel_stack. eapply hoare_bind; [apply GetLabelRef_stack|].
  intros ref. apply hoare_pure. intros ->.
  eapply hoare_bind; [apply push_name_stack|]. intros [].
  eapply hoare_bind; [apply Hbody|]. intros ops.
  apply hoare_after_walk. intros Hb Hp.
  eapply hoare_bind; [apply pop_name_stack|]. intros [].
  apply hoare_ret. intros ad Had. split; [done|]. split.
  - eapply (Balanced_wrap construct (ops ++ [LinearLabel a]) []);
      [|constructor|list_eq].
    apply Balanced_app; [done|atoms].
  - unfold targets_placed. apply placed_within_cons. split; [own_targets|].
    apply placed_within_app. split; [inner_targets Hp|].
    repeat (apply placed_within_cons; split; [own_targets|]).
    apply placed_within_nil.
Qed.


Lemma case_blocks_post {A} exitLab
  (cases : list (A * list parser.ExecutionPartConstruct)) :
  Forall (fun cb => Forall Walks cb.2) cases ->
  forall toLabels s,
    hoare (Stk s) (case_blocks exitLab cases toLabels)
      (fun blocks ad =>
         Balanced blocks
         /\ placed_within blocks (LinearLabel exitLab :: blocks)
         /\ (length toLabels = length cases ->
             forall t, t ∈ toLabels -> LinearLabel t ∈ blocks)
         /\ Stk s ad).
Proof.
  induction 1 as [|cb cases Hcb _ IH]; intros toLabels s.
  - cbn [case_blocks]. apply hoare_ret. intros ad Had.
    split; [constructor|]. split; [apply placed_within_nil|]. split; [|done].
    intros Hlen t Ht. destruct toLabels; [|done]. by apply elem_of_nil in Ht.
  - destruct toLabels as [|toLabel toLabels].
    { apply hoare_ret. intros ad Had.
      split; [constructor|]. split; [apply placed_within_nil|]. split; [|done].
      intros _ t Ht. by apply elem_of_nil in Ht. }
    cbn [case_blocks].
    eapply hoare_bind; [by apply WalkAll_post|]. intros ops.
    apply hoare_after_walk. intros Hb Hp.
    eapply hoare_bind; [apply IH|]. intros more.
    apply hoare_pure. intros Hb'. apply hoare_pure. intros Hp'.
    apply hoare_pure. intros Hin.
    apply hoare_ret. intros ad Had. split; [|split; [|split; [|done]]].
    + apply Balanced_cons_atom; [done|]. apply Balanced_app; [done|].
      by apply Balanced_cons_atom.
    + apply placed_within_cons. split; [own_targets|].
      apply placed_within_app. split; [inner_targets Hp|].
      apply placed_within_cons. split; [own_targets|]. inner_targets Hp'.
    + intros Hlen t [->|Ht]%elem_of_cons; [in_list|].
      cbn [length] in Hlen. injection Hlen as Hlen.
      specialize (Hin Hlen t Ht). revert Hin. in_list.
Qed.


Lemma multiway_post {A} construct (source : list A -> SwitchSource) name
  (cases : list (A * list parser.ExecutionPartConstruct)) :
  (forall x refs, structural_targets (LinearSwitch (source x) refs) = refs) ->
  Forall (fun cb => Forall Walks cb.2) cases ->
  forall s, hoare (Stk s) (multiway construct source name cases) (WalkPost s).
Proof.
  intros Hsource Hcases s. unfold multiway.
  eapply hoare_bind; [apply BuildNewLabel_stack|]. intros exitLab.
  eapply hoare_bind; [apply GetLabelRef_stack|].
  intros ref. apply hoare_pure. intros ->.
  eapply hoare_bind; [apply push_name_stack|]. intros [].
  set (stack := s ++ [(name, exitLab, unspecifiedLabel)]).
  apply hoare_bind with (R := fun body ad =>
    (Balanced body /\ placed_within body (LinearLabel exitLab :: body))
    /\ Stk stack ad).
  - destruct cases as [|cb cases'] eqn:Hc.
    { apply hoare_ret. intros ad Had.
      split; [|done]. split; [constructor|apply placed_within_nil]. }
    rewrite <- Hc in *. clear Hc.
    eapply hoare_bind; [apply map_each_BuildNewLabel_stack|]. intros toLabels.
    apply hoare_pure. intros Hlen.
    eapply hoare_bind; [apply map_each_GetLabelRef_stack|]. intros targets.
    apply hoare_pure. intros ->.
    eapply hoare_bind; [by apply case_blocks_post|]. intros blocks.
    apply hoare_pure. intros Hb. apply hoare_pure. intros Hp.
    apply hoare_pure. intros Hin. specialize (Hin Hlen).
    apply hoare_ret. intros ad Had. split; [|done]. split.
    + by apply Balanced_cons_atom.
    + apply placed_within_cons. split.
      * intros t Ht. rewrite Hsource in Ht. specialize (Hin t Ht).
        revert Hin. in_list.
      * inner_targets Hp.
  - intros body. apply hoare_pure. intros [Hb Hp].
    eapply hoare_bind; [apply pop_name_stack|]. intros [].
    apply hoare_ret. intros ad Had. split; [done|]. split.
    + eapply (Balanced_wrap construct (body ++ [LinearLabel exitLab]) []);
        [|constructor|list_eq].
      apply Balanced_app; [done|atoms].
    + unfold targets_placed. apply placed_within_cons. split; [own_targets|].
      apply placed_within_app. split; [inner_targets Hp|].
      repeat (apply placed_within_cons; split; [own_targets|]).
      apply placed_within_nil.
Qed.

Lemma else_ifs_post elseBlock exitOpRef elseIfs :
  Forall (Forall Walks) elseIfs ->
  (forall b, elseBlock = Some b -> Forall Walks b) ->
  forall elseLab s,
    hoare (Stk s) (else_ifs elseBlock exitOpRef elseIfs elseLab)
      (fun rest ad =>
         Balanced rest
         /\ placed_within rest (LinearLabel exitOpRef :: rest)
         /\ LinearLabel elseLab ∈ rest
         /\ Stk s ad).
Proof.
  intros HelseIfs Helse.
  induction HelseIfs as [|b elseIfs Hb _ IH]; intros elseLab s;
    cbn [else_ifs].
  - apply hoare_bind with (R := WalkPost s).
    { destruct elseBlock as [b|]; [by apply WalkAll_post, Helse|finish_atoms]. }
    intros ops. apply hoare_after_walk. intros Hb Hp.
    apply hoare_ret. intros ad Had. split; [|split; [|split; [|done]]].
    + by apply Balanced_cons_atom.
    + apply placed_within_cons. split; [own_targets|]. inner_targets Hp.
    + in_list.
  - eapply hoare_bind; [apply BuildNewLabel_stack|]. intros newThenLab.
    eapply hoare_bind; [apply BuildNewLabel_stack|]. intros newElseLab.
    eapply hoare_bind; [apply GetLabelRef_stack|].
    intros r1. apply hoare_pure. intros ->.
    eapply hoare_bind; [apply GetLabelRef_stack|].
    intros r2. apply hoare_pure. intros ->.
    eapply hoare_bind; [by apply WalkAll_post|]. intros ops.
    apply hoare_after_walk. intros Hbo Hpo.
    eapply hoare_bind; [apply IH|]. intros more.
    apply hoare_pure. intros Hbm. apply hoare_pure. intros Hpm.
    apply hoare_pure. intros Hin.
    apply hoare_ret. intros ad Had. split; [|split; [|split; [|done]]].
    + cbn [app]. do 3 (apply Balanced_cons_atom; [done|]).
      apply Balanced_app; [done|]. by apply Balanced_cons_atom.
    + cbn [app]. apply placed_within_cons. split; [own_targets|].
      apply placed_within_cons. split.
      { intros t Ht. cbn [structural_targets] in Ht.
        apply elem_of_cons in Ht as [->|Ht]; [in_list|].
        apply list_elem_of_singleton in Ht as ->. revert Hin. in_list. }
      apply placed_within_cons. split; [own_targets|].
      apply placed_within_app. split; [inner_targets Hpo|].
      apply placed_within_cons. split; [own_targets|]. inner_targets Hpm.
    + in_list.
Qed.


Ltac new_label x :=
  eapply hoare_bind; [apply BuildNewLabel_stack|]; intros x.
Ltac label_ref :=
  eapply hoare_bind; [apply GetLabelRef_stack|];
  let r := fresh "r" in intros r; apply hoare_pure; intros ->.

Lemma BlockConstruct_post name block :
  Forall Walks block -> Walks (parser.BlockConstruct name block).
Proof.
  intros Hblock s. rewrite Walk_BlockConstruct.
  new_label label. label_ref.
  eapply hoare_bind; [apply push_name_stack|]. intros [].
  eapply hoare_bind; [by apply WalkAll_post|]. intros body.
  apply hoare_after_walk. intros Hb Hp.
  eapply hoare_bind; [apply pop_name_stack|]. intros [].
  apply hoare_ret. intros ad Had. split; [done|]. split.
  - eapply (Balanced_wrap BlockConstruct body [LinearLabel label]);
      [done|atoms|list_eq].
  - unfold targets_placed. apply placed_within_cons. split; [own_targets|].
    apply placed_within_app. split; [inner_targets Hp|].
    repeat (apply placed_within_cons; split; [own_targets|]).
    apply placed_within_nil.
Qed.

Lemma DoConstruct_post doStmt name control block :
  Forall Walks block -> Walks (parser.DoConstruct doStmt name control block).
Proof.
  intros Hblock s. rewrite Walk_DoConstruct.
  new_label backedgeLab. new_label incrementLab. new_label entryLab.
  new_label exitLab. label_ref. label_ref.
  eapply hoare_bind; [apply push_name_stack|]. intros [].
  label_ref. label_ref.
  eapply hoare_bind; [by apply WalkAll_post|]. intros body.
  apply hoare_after_walk. intros Hb Hp. label_ref.
  eapply hoare_bind; [apply pop_name_stack|]. intros [].
  apply hoare_ret. intros ad Had. split; [done|]. split.
  - eapply (Balanced_wrap (DoConstruct doStmt control)
              ([LinearGoto LinearArtificial backedgeLab;
                LinearLabel incrementLab;
                LinearDoIncrement doStmt;
                LinearLabel backedgeLab;
                LinearDoCompare doStmt;
                LinearConditionalGoto (NonLabelDoStmt doStmt control)
                  entryLab exitLab;
                LinearLabel entryLab]
               ++ body ++ [LinearGoto LinearArtificial incrementLab])
              [LinearLabel exitLab]); [|atoms|list_eq].
    apply Balanced_app; [atoms|]. apply Balanced_app; [done|atoms].
  - unfold targets_placed. cbn [app].
    repeat (apply placed_within_cons; split; [own_targets|]).
    apply placed_within_app. split; [inner_targets Hp|].
    repeat (apply placed_within_cons; split; [own_targets|]).
    apply placed_within_nil.
Qed.

Lemma IfConstruct_post name block elseIfs elseBlock :
  Forall Walks block -> Forall (Forall Walks) elseIfs ->
  (forall b, elseBlock = Some b -> Forall Walks b) ->
  Walks (parser.IfConstruct name block elseIfs elseBlock).
Proof.
  intros Hblock HelseIfs Helse s. rewrite Walk_IfConstruct.
  new_label thenLab. new_label elseLab. new_label exitLab. label_ref.
  eapply hoare_bind; [apply push_name_stack|]. intros [].
  label_ref. label_ref.
  eapply hoare_bind; [by apply WalkAll_post|]. intros body.
  apply hoare_after_walk. intros Hb Hp. label_ref.
  eapply hoare_bind; [by apply else_ifs_post|]. intros rest.
  apply hoare_pure. intros Hbr. apply hoare_pure. intros Hpr.
  apply hoare_pure. intros Hin.
  eapply hoare_bind; [apply pop_name_stack|]. intros [].
  apply hoare_ret. intros ad Had. split; [done|]. split.
  - eapply (Balanced_wrap IfConstruct
              ([LinearConditionalGoto IfThenStmt thenLab elseLab;
                LinearLabel thenLab]
               ++ body ++ LinearGoto LinearArtificial exitLab :: rest
               ++ [LinearGoto LinearArtificial exitLab; LinearLabel exitLab])
              []); [|constructor|list_eq].
    apply Balanced_app; [atoms|]. apply Balanced_app; [done|].
    apply Balanced_cons_atom; [done|]. apply Balanced_app; [done|atoms].
  - unfold targets_placed. cbn [app].
    apply placed_within_cons. split; [own_targets|].
    apply placed_within_cons. split.
    { intros t Ht. cbn [structural_targets] in Ht.
      apply elem_of_cons in Ht as [->|Ht]; [in_list|].
      apply list_elem_of_singleton in Ht as ->. revert Hin. in_list. }
    apply placed_within_cons. split; [own_targets|].
    apply placed_within_app. split; [inner_targets Hp|].
    apply placed_within_cons. split; [own_targets|].
    apply placed_within_app. split; [inner_targets Hpr|].
    repeat (apply placed_within_cons; split; [own_targets|]).
    apply placed_within_nil.
Qed.

(** Whatever [Walk] returns, and whatever state it started in. *)
Lemma Walk_post c : Walks c.
Proof.
  induction c using ExecutionPartConstruct_nested_ind.
  - intros s. rewrite Walk_Statement.
    eapply hoare_bind; [apply statement_label_stack|]. intros ops.
    apply hoare_pure. intros Hops.
    eapply hoare_bind; [apply Build_post|]. intros more.
    apply hoare_after_walk. intros Hb Hp.
    apply hoare_ret. intros ad Had.
    destruct (label_ops_shape s ops ad Hops Had) as (_ & Hb' & Hp').
    split; [done|]. split; [by apply Balanced_app|by apply targets_placed_app].
  - intros s ad ops ad' Hs Hrun.
    destruct (statement_label_stack s label ad ops ad' Hs Hrun) as [Hops Had].
    by apply label_ops_shape.
  - intros s. rewrite Walk_AssociateConstruct.
    apply linear_construct_post. by apply WalkAll_post.
  - by apply BlockConstruct_post.
  - intros s. rewrite Walk_CaseConstruct. by apply multiway_post.
  - intros s. rewrite Walk_ChangeTeamConstruct.
    apply linear_construct_post. by apply WalkAll_post.
  - intros s. rewrite Walk_CriticalConstruct.
    apply linear_construct_post. by apply WalkAll_post.
  - by apply DoConstruct_post.
  - by apply IfConstruct_post.
  - intros s. rewrite Walk_SelectRankConstruct. by apply multiway_post.
  - intros s. rewrite Walk_SelectTypeConstruct. by apply multiway_post.
  - intros s. rewrite Walk_WhereConstruct.
    apply linear_construct_post. intros s'. apply labels_only_post.
  - intros s. rewrite Walk_ForallConstruct.
    apply linear_construct_post. intros s'. apply labels_only_post.
Qed.

Lemma WalkAll_run block ad ops ad' :
  WalkAll block ad = Some (ops, ad') -> WalkPost (nameStack ad) ops ad'.
Proof.
  intros Hrun. eapply (WalkAll_post block); [|reflexivity|exact Hrun].
  apply Forall_forall. intros c _. apply Walk_post.
Qed.

End WalkFacts.

Section WalkTheorems.
Import Afforestation.







End WalkTheorems.

(** ** The builder: terminators and predecessor lists *)

Section BuilderFacts.
Import Afforestation.

Lemma for_each_addPred_of_cursor c l : forall st st',
  cursorBlock_ st = Some c ->
  for_each addPred_of_cursor l st = Some (tt, st') ->
  cursorBlock_ st' = Some c
  /\ length (blocks st') = length (blocks st)
  /\ (forall b, stmts_of (blocks st') b = stmts_of (blocks st) b)
  /\ (forall a b, a ∈ preds_of (blocks st') b
                  <-> a ∈ preds_of (blocks st) b \/ (a = c /\ b ∈ l))
  /\ (forall b, NoDup (preds_of (blocks st) b) ->
                NoDup (preds_of (blocks st') b)).
Proof.
  induction l as [|t l IH]; intros st st' Hc Hrun.
  - cbn [for_each] in Hrun. unfold ret in Hrun. simplify_eq. split; [done|]. split; [done|]. split; [done|].
    split; [|done]. intros a b. split; [by left|].
    by intros [?|[_ ?%elem_of_nil]].
  - cbn [for_each] in Hrun. unfold bind in Hrun.
    destruct (addPred_of_cursor t st) as [[[] st1]|] eqn:Hadd; [|done].
    unfold addPred_of_cursor in Hadd. rewrite Hc in Hadd.
    destruct (blocks st !! t) as [blk|] eqn:Ht; [|done]. simplify_eq.
    apply lookup_lt_Some in Ht.
    destruct (IH _ _ (Hc : cursorBlock_ (with_blocks _ st) = Some c) Hrun)
      as (Hc' & Hlen & Hstmts & Hpreds & Hnd).
    cbn [blocks with_blocks] in Hlen, Hstmts, Hpreds, Hnd.
    split; [done|]. split; [by rewrite Hlen, length_alter|].
    split; [intros b; by rewrite Hstmts, stmts_of_addPred|]. split.
    + intros a b. rewrite Hpreds, elem_of_preds_of_addPred by done.
      rewrite elem_of_cons. intuition congruence.
    + intros b Hb. by apply Hnd, NoDup_preds_of_addPred.
Qed.

Lemma for_each_addPred_of_cursor_runs c l : forall st,
  cursorBlock_ st = Some c ->
  is_Some (for_each addPred_of_cursor l st)
  <-> Forall (fun b => (b < length (blocks st))%nat) l.
Proof.
  induction l as [|t l IH]; intros st Hc.
  - split; [constructor|]. by eexists.
  - cbn [for_each]. unfold bind, addPred_of_cursor at 1. rewrite Hc.
    rewrite Forall_cons.
    destruct (blocks st !! t) as [blk|] eqn:Ht.
    + rewrite IH by exact Hc. cbn [blocks with_blocks]. rewrite length_alter.
      apply lookup_lt_Some in Ht. tauto.
    + apply lookup_ge_None in Ht. split; [by intros [? ?]|]. lia.
Qed.




End BuilderFacts.

(** ** The lowered procedure *)

Section LoweredFacts.
Import Afforestation.

Lemma ProcessRoutine_Good body st :
  ProcessRoutine body = Some st -> Good (blocks st) [].
Proof.
  unfold ProcessRoutine. intros Hrun.
  destruct (WalkAll body empty_AnalysisData) as [[ops ad]|]; [|done].
  destruct ((ConstructFIR ops ;;; DrawRemainingArcs) (initial_lowering ad))
    as [[[] st']|] eqn:Hlow; [|done].
  simplify_eq. by apply lowering_Good in Hlow.
Qed.





End LoweredFacts.

(** ** The lowering only adds *)

Section Monotone.
Context {S : Type}.
Variable R : S -> S -> Prop.
Hypothesis R_refl : forall st, R st st.
Hypothesis R_trans : forall a b c, R a b -> R b c -> R a c.

Lemma mono_ret {A} (a : A) : mono R (ret a).
Proof. intros st a' st' Hrun. unfold ret in Hrun. by simplify_eq. Qed.

Lemma mono_die {A} : mono R (die : StateM S A).
Proof. by intros st a st' Hrun. Qed.

Lemma mono_gets {A} (f : S -> A) : mono R (gets f).
Proof. intros st a st' Hrun. unfold gets in Hrun. by simplify_eq. Qed.

Lemma mono_modify (f : S -> S) : (forall st, R st (f st)) -> mono R (modify f).
Proof. intros Hf st a st' Hrun. unfold modify in Hrun. by simplify_eq. Qed.

Lemma mono_bind {A B} (m : StateM S A) (f : A -> StateM S B) :
  mono R m -> (forall a, mono R (f a)) -> mono R (bind m f).
Proof.
  intros Hm Hf st b st' Hrun. unfold bind in Hrun.
  destruct (m st) as [[a st1]|] eqn:Hrun1; [|done].
  eapply R_trans; [by eapply Hm|by eapply Hf].
Qed.

Lemma mono_for_each {A} (f : A -> StateM S unit) l :
  (forall a, mono R (f a)) -> mono R (for_each f l).
Proof.
  intros Hf. induction l as [|a l IH]; cbn [for_each].
  - apply mono_ret.
  - apply mono_bind; [apply Hf|]. intros _. apply IH.
Qed.

Lemma mono_map_each {A B} (f : A -> StateM S B) l :
  (forall a, mono R (f a)) -> mono R (map_each f l).
Proof.
  intros Hf. induction l as [|a l IH]; cbn [map_each].
  - apply mono_ret.
  - apply mono_bind; [apply Hf|]. intros b.
    apply mono_bind; [apply IH|]. intros bs. apply mono_ret.
Qed.

Lemma mono_repeat_n (m : StateM S unit) n :
  mono R m -> mono R (Afforestation.repeat_n n m).
Proof.
  intros Hm. induction n as [|n IH]; cbn [Afforestation.repeat_n].
  - apply mono_ret.
  - apply mono_bind; [apply Hm|]. intros _. apply IH.
Qed.

End Monotone.

Section ExtendsFacts.
Import Afforestation.

Lemma block_extends_refl blk : block_extends blk blk.
Proof. done. Qed.

Lemma block_extends_trans a b c :
  block_extends a b -> block_extends b c -> block_extends a c.
Proof.
  intros (Hp & Hs & Hq) (Hp' & Hs' & Hq'). split; [congruence|].
  split; etrans; done.
Qed.

Lemma Extends_refl st : Extends st st.
Proof.
  split; [|done]. intros b blk Hb. exists blk. split; [done|].
  apply block_extends_refl.
Qed.

Lemma Extends_trans a b c : Extends a b -> Extends b c -> Extends a c.
Proof.
  intros (Hb & Hr & Hm & He) (Hb' & Hr' & Hm' & He').
  split; [|split; [|split]]; try (etrans; done).
  intros i blk Hi. destruct (Hb i blk Hi) as (blk1 & Hi1 & Hext).
  destruct (Hb' i blk1 Hi1) as (blk2 & Hi2 & Hext').
  exists blk2. split; [done|]. by eapply block_extends_trans.
Qed.

(** An update of the cursor, the DO contexts or the analysis data. *)
Lemma Extends_same st st' :
  blocks st' = blocks st -> regions st' = regions st ->
  blockMap_ st' = blockMap_ st ->
  controlFlowEdgesToAdd_ st' = controlFlowEdgesToAdd_ st ->
  Extends st st'.
Proof.
  intros Hb Hr Hm He. unfold Extends. rewrite Hb, Hr, Hm, He.
  apply Extends_refl.
Qed.

Lemma Extends_alter f b st :
  (forall blk, block_extends blk (f blk)) ->
  Extends st (with_blocks (alter f b (blocks st)) st).
Proof.
  intros Hf. split; [|done]. intros i blk Hi. cbn [blocks with_blocks].
  rewrite list_lookup_alter. destruct (decide (b = i)) as [->|].
  - rewrite Hi. cbn. by eexists.
  - exists blk. split; [done|]. apply block_extends_refl.
Qed.

Abbreviation grows := (mono Extends).

Lemma grows_bind {A B} (m : Lowering A) (f : A -> Lowering B) :
  grows m -> (forall a, grows (f a)) -> grows (bind m f).
Proof. apply mono_bind, Extends_trans. Qed.

Lemma grows_ret {A} (a : A) : grows (ret a).
Proof. apply mono_ret, Extends_refl. Qed.

Lemma grows_gets {A} (f : FortranIRLowering -> A) : grows (gets f).
Proof. apply mono_gets, Extends_refl. Qed.

Lemma grows_for_each {A} (f : A -> Lowering unit) l :
  (forall a, grows (f a)) -> grows (for_each f l).
Proof. apply mono_for_each; [apply Extends_refl|apply Extends_trans]. Qed.

Lemma grows_map_each {A B} (f : A -> Lowering B) l :
  (forall a, grows (f a)) -> grows (map_each f l).
Proof. apply mono_map_each; [apply Extends_refl|apply Extends_trans]. Qed.

Lemma grows_repeat_n (m : Lowering unit) n :
  grows m -> grows (repeat_n n m).
Proof. apply mono_repeat_n; [apply Extends_refl|apply Extends_trans]. Qed.

Lemma grows_same {A} (m : Lowering A) :
  (forall st a st', m st = Some (a, st') ->
     blocks st' = blocks st /\ regions st' = regions st
     /\ blockMap_ st' = blockMap_ st
     /\ controlFlowEdgesToAdd_ st' = controlFlowEdgesToAdd_ st) ->
  grows m.
Proof.
  intros Hm st a st' Hrun. destruct (Hm _ _ _ Hrun) as (? & ? & ? & ?).
  by apply Extends_same.
Qed.

Lemma Insert_grows s : grows (Insert s).
Proof.
  intros st [] st' Hrun. unfold Insert in Hrun.
  destruct (cursorBlock_ st) as [c|]; [|done].
  destruct (blocks st !! c) as [blk|]; [|done]. simplify_eq.
  apply Extends_alter. intros b. split; [done|]. split; [|done].
  by apply prefix_app_r.
Qed.

Lemma addPred_of_cursor_grows t : grows (addPred_of_cursor t).
Proof.
  intros st [] st' Hrun. unfold addPred_of_cursor in Hrun.
  destruct (cursorBlock_ st) as [c|]; [|done].
  destruct (blocks st !! t) as [blk|]; [|done]. simplify_eq.
  apply Extends_alter. intros b. unfold FIR.addPred.
  destruct (decide _); [done|]. split; [done|]. split; [done|].
  by apply prefix_app_r.
Qed.

Lemma InsertTerminator_grows s : grows (InsertTerminator s).
Proof.
  apply grows_bind; [apply Insert_grows|]. intros _.
  apply grows_for_each, addPred_of_cursor_grows.
Qed.

Lemma CreateBlock_grows region : grows (CreateBlock region).
Proof.
  intros st b st' Hrun. unfold CreateBlock in Hrun.
  destruct region as [r|]; [|done]. simplify_eq.
  split; [|done]. intros i blk Hi. exists blk. split; [|done].
  cbn [blocks with_blocks]. by apply lookup_app_l_Some.
Qed.

Lemma Region_Create_grows outer : grows (Region_Create outer).
Proof.
  intros st r st' Hrun. unfold Region_Create in Hrun. simplify_eq.
  split; [|split; [|done]].
  - intros i blk Hi. exists blk. by split.
  - by apply prefix_app_r.
Qed.

Lemma enqueue_grows arc : grows (enqueue arc).
Proof.
  apply mono_modify. intros st. split; [|split; [done|split; [done|]]].
  - intros i blk Hi. exists blk. by split.
  - by apply prefix_app_r.
Qed.

Lemma blockMap_insert_grows label block : grows (blockMap_insert label block).
Proof.
  apply mono_modify. intros st.
  destruct (blockMap_ st !! label) eqn:Hl; [apply Extends_refl|].
  split; [|split; [done|split; [|done]]].
  - intros i blk Hi. exists blk. by split.
  - by apply insert_subseteq.
Qed.

Lemma on_analysis_grows {A} (m : StateM AnalysisData A) :
  grows (on_analysis m).
Proof.
  apply grows_same. intros st a st' Hrun. unfold on_analysis in Hrun.
  destruct (m (analysis st)) as [[a' ad]|]; by simplify_eq.
Qed.

Ltac grows_same_step :=
  apply grows_same; intros ? ? ? Hrun;
  cbv [GetInsertionPoint GetCurrentRegion SetCurrentRegion ClearInsertionPoint
       SetInsertionPoint blockMap_find PushDoContext PopDoContext GetBoundsInfo
       cleanupSwitchPairs buildMultiwayDefaultNext
       bind ret gets modify die] in Hrun;
  repeat case_match; simplify_eq; done.

Ltac grows_step :=
  first
    [ apply grows_ret
    | apply mono_die
    | apply grows_gets
    | apply Insert_grows
    | apply InsertTerminator_grows
    | apply CreateBlock_grows
    | apply Region_Create_grows
    | apply enqueue_grows
    | apply blockMap_insert_grows
    | apply on_analysis_grows
    | apply grows_bind; [|intros ?]
    | apply grows_for_each; intros ?
    | apply grows_map_each; intros ?
    | apply grows_repeat_n
    | grows_same_step
    | case_match ].

Ltac grows_all := repeat grows_step.

Lemma SetInsertionPoint_grows bb : grows (SetInsertionPoint bb).
Proof. grows_same_step. Qed.

Lemma CheckInsertionPoint_grows : grows CheckInsertionPoint.
Proof. unfold CheckInsertionPoint. grows_all. Qed.

Lemma CreateBranch_grows block : grows (CreateBranch block).
Proof. unfold CreateBranch. grows_all. Qed.

Lemma CreateConditionalBranch_grows t f :
  grows (CreateConditionalBranch t f).
Proof. unfold CreateConditionalBranch. grows_all. Qed.

Lemma CreateIndirectBr_grows targets : grows (CreateIndirectBr targets).
Proof. unfold CreateIndirectBr. grows_all. Qed.

Lemma CreateSwitchOf_grows kind d rest : grows (CreateSwitchOf kind d rest).
Proof. unfold CreateSwitchOf. grows_all. Qed.

Lemma EnterRegion_grows : grows EnterRegion.
Proof.
  unfold EnterRegion.
  repeat first [apply CheckInsertionPoint_grows | apply CreateBranch_grows
               | grows_step].
Qed.

Lemma ExitRegion_grows : grows ExitRegion.
Proof. unfold ExitRegion. grows_all. Qed.

Lemma AddOrQueueSwitch_grows kind d values labels :
  grows (AddOrQueueSwitch kind d values labels).
Proof.
  unfold AddOrQueueSwitch.
  repeat first [apply CreateSwitchOf_grows | grows_step].
Qed.

Ltac grows_more :=
  repeat first
    [ apply CheckInsertionPoint_grows | apply CreateBranch_grows
    | apply CreateConditionalBranch_grows | apply CreateIndirectBr_grows
    | apply CreateSwitchOf_grows | apply EnterRegion_grows
    | apply ExitRegion_grows | apply AddOrQueueSwitch_grows
    | grows_step ].

Lemma handleActionStatement_grows stmt : grows (handleActionStatement stmt).
Proof.
  destruct stmt; cbn [handleActionStatement];
    unfold CreateAlloc, CreateDealloc, CreateExpr, CreateAddr, CreateLoad,
      CreateStore, CreateStoreBlock, CreateCall, CreateIOCall,
      CreateRuntimeCall, CreateNullify; grows_more.
Qed.

Lemma handleLinearSwitch_grows u refs : grows (handleLinearSwitch u refs).
Proof.
  destruct u; cbn [handleLinearSwitch]; unfold CreateExpr, populate_case;
    grows_more.
Qed.

Lemma handleBeginConstruct_grows u : grows (handleBeginConstruct u).
Proof.
  destruct u; cbn [handleBeginConstruct];
    unfold InitiateConstruct_Do, CreateExpr, CreateAddr, CreateStore;
    grows_more.
Qed.

Lemma handleEndConstruct_grows u : grows (handleEndConstruct u).
Proof.
  destruct u; cbn [handleEndConstruct]; unfold FinishConstruct; grows_more.
Qed.

Lemma handleLinearOp_grows op : grows (handleLinearOp op).
Proof.
  destruct op; cbn [handleLinearOp];
    try apply handleBeginConstruct_grows; try apply handleEndConstruct_grows;
    unfold AddOrQueueBranch, AddOrQueueCGoto, AddOrQueueIGoto,
      BuildLoopLatchExpression, handleLinearDoIncrement, handleLinearDoCompare,
      CreateRuntimeCall, CreateUnreachable, CreateReturn, CreateExpr,
      CreateLoad, CreateIncrement, CreateDoCondition;
    repeat first [apply handleActionStatement_grows
                 | apply handleLinearSwitch_grows | grows_more].
Qed.

Lemma ConstructFIR_grows ops : grows (ConstructFIR ops).
Proof.
  assert (Hlen : forall n ops, (length ops <= n)%nat ->
            grows (ConstructFIR ops)); [|by apply (Hlen (length ops))].
  clear ops. induction n as [|n IH]; intros [|op rest] Hn;
    cbn [length] in Hn; try lia; try apply grows_ret.
  assert (Hrest : grows (ConstructFIR rest)) by (apply IH; lia).
  destruct op; cbn [ConstructFIR];
    try (apply grows_bind; [apply handleLinearOp_grows|]; intros _;
         exact Hrest).
  apply grows_bind; [apply handleBeginConstruct_grows|]. intros _.
  destruct rest as [|next rest']; [apply mono_die|].
  destruct next; try exact Hrest.
  apply grows_bind; [grows_step|]. intros cursor.
  apply grows_bind; [apply blockMap_insert_grows|]. intros _.
  apply IH. cbn [length] in Hn. lia.
Qed.

Lemma run_closure_grows arc : grows (run_closure arc).
Proof.
  destruct arc; cbn [run_closure]; unfold find_all; grows_more.
Qed.

Lemma DrawRemainingArcs_grows : grows DrawRemainingArcs.
Proof.
  unfold DrawRemainingArcs. apply grows_bind; [grows_step|]. intros arcs.
  apply grows_for_each, run_closure_grows.
Qed.


(** X21.  The lowering only adds.  Whatever [ConstructFIR] and
    [DrawRemainingArcs] do to a state, every block is still there with its
    region, its statements and its predecessors at the front of what it
    holds now, every region is still there, every label bound to a block is
    still bound to that block, and every deferred edge is still queued in
    its place. *)
Theorem lowering_only_extends ops st st' :
  (ConstructFIR ops ;;; DrawRemainingArcs) st = Some (tt, st') ->
  Extends st st'.
Proof.
  apply (grows_bind (ConstructFIR ops) (fun _ => DrawRemainingArcs)).
  - apply ConstructFIR_grows.
  - intros _. apply DrawRemainingArcs_grows.
Qed.

Lemma lowering_only_extends_witness :
  exists st',
    (ConstructFIR [LinearGoto GotoStmt 7; LinearLabel 7;
                   LinearReturn ReturnStmt] ;;; DrawRemainingArcs)
      (initial_lowering empty_AnalysisData) = Some (tt, st')
    /\ Extends (initial_lowering empty_AnalysisData) st'.
Proof.
  set (ops := [LinearGoto GotoStmt 7; LinearLabel 7; LinearReturn ReturnStmt]).
  set (st := initial_lowering empty_AnalysisData).
  set (st' := default st
                (snd <$> (ConstructFIR ops ;;; DrawRemainingArcs) st)).
  assert (Hrun : (ConstructFIR ops ;;; DrawRemainingArcs) st = Some (tt, st'))
    by (vm_compute; reflexivity).
  exists st'. split; [exact Hrun|].
  apply (lowering_only_extends ops st st'). exact Hrun.
Defined.

End ExtendsFacts.

(** ** Statements that the lowering cannot get past *)

Section DoomedFacts.
Import Afforestation.

Abbreviation Doomed := (Exists (fun op => doomed op = true)).
Abbreviation Short := (Exists (fun arc => short_of_values arc = true)).

Ltac inv_run H :=
  repeat (apply bind_Some in H as (? & ? & ? & H));
  unfold ret in H; simplify_eq.

Lemma run_closure_short arc st :
  short_of_values arc = true -> run_closure arc st = None.
Proof.
  destruct arc as [| |kind block d values labels|]; try done.
  cbn [short_of_values run_closure]. intros Hshort%bool_decide_eq_true.
  unfold bind. destruct (SetInsertionPoint block st) as [[[] st1]|]; [|done].
  rewrite bool_decide_false by lia. done.
Qed.

Lemma DrawRemainingArcs_short st :
  Short (controlFlowEdgesToAdd_ st) -> DrawRemainingArcs st = None.
Proof.
  unfold DrawRemainingArcs, bind, gets.
  generalize (controlFlowEdgesToAdd_ st) at 1 2. intros arcs Hshort. revert st.
  induction Hshort as [arc arcs Harc|arc arcs _ IH]; intros st;
    cbn [for_each]; unfold bind.
  - by rewrite run_closure_short.
  - destruct (run_closure arc st) as [[[] st1]|]; [apply IH|done].
Qed.

Lemma grows_keeps_short {A} (m : Lowering A) st a st' :
  mono Extends m -> m st = Some (a, st') ->
  Short (controlFlowEdgesToAdd_ st) -> Short (controlFlowEdgesToAdd_ st').
Proof.
  intros Hm Hrun Hshort. destruct (Hm _ _ _ Hrun) as (_ & _ & _ & [k ->]).
  apply Exists_app. by left.
Qed.

Lemma AddOrQueueSwitch_short kind d values labels st a st' :
  (values < length labels)%nat ->
  AddOrQueueSwitch kind d values labels st = Some (a, st') ->
  Short (controlFlowEdgesToAdd_ st').
Proof.
  intros Hlt Hrun.
  assert (Hq : forall st1 a1 st1',
            enqueue (fun block => SwitchArc kind block d values labels) st1
              = Some (a1, st1') -> Short (controlFlowEdgesToAdd_ st1')).
  { intros st1 a1 st1' Hq. unfold enqueue, modify in Hq. simplify_eq.
    cbn [controlFlowEdgesToAdd_ with_edges]. apply Exists_app. right.
    apply Exists_cons_hd. cbn [short_of_values]. by apply bool_decide_eq_true. }
  unfold AddOrQueueSwitch, blockMap_find in Hrun.
  apply bind_Some in Hrun as (found & st1 & Hfind & Hrun).
  unfold gets in Hfind. simplify_eq.
  destruct (blockMap_ st1 !! d) as [defaultBlock|]; [|by eapply Hq].
  rewrite bool_decide_false in Hrun by lia. done.
Qed.

Lemma handleLinearOp_doomed op st a st' :
  doomed op = true -> handleLinearOp op st = Some (a, st') ->
  Short (controlFlowEdgesToAdd_ st').
Proof.
  assert (Hclear : forall s1 a1 s2,
            ClearInsertionPoint s1 = Some (a1, s2) ->
            controlFlowEdgesToAdd_ s2 = controlFlowEdgesToAdd_ s1).
  { intros s1 a1 s2 H. unfold ClearInsertionPoint, modify in H.
    by simplify_eq. }
  destruct op as [| | | | |u refs|v| | | | |]; try done;
    cbn [doomed handleLinearOp]; intros Hd Hrun.
  - apply bind_Some in Hrun as ([] & st1 & _ & Hrun).
    apply bind_Some in Hrun as ([] & st2 & Hsw & Hrun).
    rewrite (Hclear _ _ _ Hrun).
    destruct u; try done; cbn [handleLinearSwitch] in Hsw.
    + destruct refs as [|r1 [|r2 refs]]; try done.
      apply bind_Some in Hsw as (args & st3 & Hargs & Hsw).
      unfold buildMultiwayDefaultNext in Hargs.
      destruct (last (r1 :: r2 :: refs)); [|done].
      unfold ret in Hargs. simplify_eq.
      eapply AddOrQueueSwitch_short; [|done]. cbn. lia.
    + destruct refs as [|r1 [|r2 refs]]; try done.
      apply bind_Some in Hsw as ([] & st3 & _ & Hsw).
      apply bind_Some in Hsw as (args & st4 & Hargs & Hsw).
      unfold buildMultiwayDefaultNext in Hargs.
      destruct (last (r1 :: r2 :: refs)); [|done].
      unfold ret in Hargs. simplify_eq.
      eapply AddOrQueueSwitch_short; [|done]. cbn. lia.
    + destruct refs as [|r1 refs]; [done|].
      apply bind_Some in Hsw as ([] & st3 & _ & Hsw).
      eapply AddOrQueueSwitch_short; [|done]. cbn. lia.
  - apply bind_Some in Hrun as ([] & st1 & _ & Hrun). by destruct v.
Qed.

Lemma ConstructFIR_doomed ops :
  Doomed ops ->
  forall st a st', ConstructFIR ops st = Some (a, st') ->
                   Short (controlFlowEdgesToAdd_ st').
Proof.
  assert (Hlen : forall n ops, (length ops <= n)%nat -> Doomed ops ->
            forall st a st', ConstructFIR ops st = Some (a, st') ->
                             Short (controlFlowEdgesToAdd_ st'));
    [|by apply (Hlen (length ops))].
  clear ops. induction n as [|n IH]; intros [|op rest] Hn Hd st a st' Hrun;
    cbn [length] in Hn; try lia; try by apply Exists_nil in Hd.
  assert (Hother : forall s1 a1,
            handleLinearOp op st = Some (a1, s1) ->
            ConstructFIR rest s1 = Some (a, st') ->
            Short (controlFlowEdgesToAdd_ st')).
  { intros s1 a1 Hop Hrest. apply Exists_cons in Hd as [Hd|Hd].
    - eapply grows_keeps_short; [apply ConstructFIR_grows|done|].
      by eapply handleLinearOp_doomed.
    - eapply (IH rest); [lia|done|done]. }
  destruct op; cbn [ConstructFIR] in Hrun;
    try (apply bind_Some in Hrun as (a1 & s1 & Hop & Hrest);
         by eapply Hother).
  apply Exists_cons in Hd as [Hd|Hd]; [done|].
  apply bind_Some in Hrun as ([] & s1 & _ & Hrun).
  destruct rest as [|next rest']; [done|].
  assert (Hrest : forall s2 a2, ConstructFIR (next :: rest') s2 = Some (a2, st')
            -> Short (controlFlowEdgesToAdd_ st')).
  { intros s2 a2 Hrest. eapply (IH (next :: rest')); [lia|done|done]. }
  destruct next; try by eapply Hrest.
  apply Exists_cons in Hd as [Hd|Hd]; [done|].
  apply bind_Some in Hrun as (cursor & s2 & _ & Hrun).
  apply bind_Some in Hrun as ([] & s3 & _ & Hrun).
  eapply (IH rest'); [cbn [length] in Hn; lia|done|done].
Qed.

Lemma lowering_doomed ops st :
  Doomed ops -> (ConstructFIR ops ;;; DrawRemainingArcs) st = None.
Proof.
  intros Hd. unfold bind.
  destruct (ConstructFIR ops st) as [[[] st1]|] eqn:Hrun; [|done].
  apply DrawRemainingArcs_short. by eapply ConstructFIR_doomed.
Qed.

(** *** From the statements to the operations *)

Lemma map_each_length {S A B} (f : A -> StateM S B) l : forall st rs st',
  map_each f l st = Some (rs, st') -> length rs = length l.
Proof.
  induction l as [|a l IH]; intros st rs st' Hrun; cbn [map_each] in Hrun.
  - unfold ret in Hrun. by simplify_eq.
  - apply bind_Some in Hrun as (b & st1 & _ & Hrun).
    apply bind_Some in Hrun as (bs & st2 & Hbs & Hrun).
    unfold ret in Hrun. simplify_eq. cbn [length]. f_equal. by eapply IH.
Qed.

Lemma Build_unsupported v ad ops ad' :
  unsupported v = true -> Build v ad = Some (ops, ad') -> Doomed ops.
Proof.
  destruct v; try done; cbn [unsupported Build]; intros Hv Hrun.
  - destruct altReturns as [|l ls]; [done|].
    apply bind_Some in Hrun as (next & st1 & _ & Hrun).
    apply bind_Some in Hrun as (labels & st2 & Hlabels & Hrun).
    apply map_each_length in Hlabels. unfold ret in Hrun. simplify_eq.
    apply Exists_cons_hd. by destruct labels as [|r [|r' labels]].
  - unfold ret in Hrun. simplify_eq. by apply Exists_cons_hd.
  - inv_run Hrun. do 2 apply Exists_cons_tl. by apply Exists_cons_hd.
  - destruct labels as [|l ls]; [done|].
    apply bind_Some in Hrun as (next & st1 & _ & Hrun).
    apply bind_Some in Hrun as (refs & st2 & Hrefs & Hrun).
    apply map_each_length in Hrefs. unfold ret in Hrun. simplify_eq.
    apply Exists_cons_hd. by destruct refs as [|r [|r' refs]].
  - apply bind_Some in Hrun as (refs & st1 & Hrefs & Hrun).
    apply map_each_length in Hrefs. unfold ret in Hrun. simplify_eq.
    apply Exists_cons_hd. by destruct refs.
Qed.


Abbreviation DoomedRuns m :=
  (forall ad ops ad', m ad = Some (ops, ad') -> Doomed ops).

Lemma WalkAll_doomed block c :
  c ∈ block -> DoomedRuns (Walk c) -> DoomedRuns (WalkAll block).
Proof.
  intros Hc Hwalk.
  induction block as [|c0 block IH]; [by apply elem_of_nil in Hc|].
  intros ad ops ad' Hrun. rewrite WalkAll_cons in Hrun.
  apply bind_Some in Hrun as (ops1 & ad1 & Hrun1 & Hrun).
  apply bind_Some in Hrun as (more & ad2 & Hrun2 & Hrun).
  unfold ret in Hrun. simplify_eq. apply Exists_app.
  apply elem_of_cons in Hc as [->|Hc]; [left; by eapply Hwalk|].
  right. by eapply IH.
Qed.

Lemma linear_construct_doomed construct name body :
  DoomedRuns body -> DoomedRuns (linear_construct construct name body).
Proof.
  intros Hbody ad ops ad' Hrun. unfold linear_construct in Hrun.
  apply bind_Some in Hrun as (label & ad1 & _ & Hrun).
  apply bind_Some in Hrun as (ref & ad2 & _ & Hrun).
  apply bind_Some in Hrun as ([] & ad3 & _ & Hrun).
  apply bind_Some in Hrun as (inner & ad4 & Hinner%Hbody & Hrun).
  apply bind_Some in Hrun as ([] & ad5 & _ & Hrun).
  unfold ret in Hrun. simplify_eq.
  apply Exists_cons_tl, Exists_app. by left.
Qed.

Lemma case_blocks_doomed {A} exitLab
  (cases : list (A * list parser.ExecutionPartConstruct)) block :
  block ∈ map snd cases -> DoomedRuns (WalkAll block) ->
  forall toLabels, length toLabels = length cases ->
    DoomedRuns (case_blocks exitLab cases toLabels).
Proof.
  intros Hblock Hwalk.
  induction cases as [|cb cases IH]; [by apply elem_of_nil in Hblock|].
  intros [|toLabel toLabels] Hlen ad ops ad' Hrun; [done|].
  cbn [case_blocks] in Hrun.
  apply bind_Some in Hrun as (ops1 & ad1 & Hrun1 & Hrun).
  apply bind_Some in Hrun as (more & ad2 & Hrun2 & Hrun).
  unfold ret in Hrun. simplify_eq.
  apply Exists_cons_tl, Exists_app.
  cbn [map] in Hblock. apply elem_of_cons in Hblock as [->|Hblock].
  - left. by eapply Hwalk.
  - right. apply Exists_cons_tl. eapply IH; [done| |done].
    cbn [length] in Hlen. lia.
Qed.

Lemma multiway_doomed {A} construct (source : list A -> SwitchSource) name
  (cases : list (A * list parser.ExecutionPartConstruct)) block :
  block ∈ map snd cases -> DoomedRuns (WalkAll block) ->
  DoomedRuns (multiway construct source name cases).
Proof.
  intros Hblock Hwalk ad ops ad' Hrun. unfold multiway in Hrun.
  apply bind_Some in Hrun as (exitLab & ad1 & _ & Hrun).
  apply bind_Some in Hrun as (ref & ad2 & _ & Hrun).
  apply bind_Some in Hrun as ([] & ad3 & _ & Hrun).
  apply bind_Some in Hrun as (body & ad4 & Hbody & Hrun).
  apply bind_Some in Hrun as ([] & ad5 & _ & Hrun).
  unfold ret in Hrun. simplify_eq.
  apply Exists_cons_tl, Exists_app. left.
  destruct cases as [|cb cases'] eqn:Hcases; [by apply elem_of_nil in Hblock|].
  rewrite <- Hcases in *. clear Hcases.
  apply bind_Some in Hbody as (toLabels & ad5 & Hlabels & Hbody).
  apply bind_Some in Hbody as (targets & ad6 & _ & Hbody).
  apply bind_Some in Hbody as (blocks & ad7 & Hblocks & Hbody).
  unfold ret in Hbody. simplify_eq. apply Exists_cons_tl.
  apply map_each_length in Hlabels.
  by eapply case_blocks_doomed.
Qed.

Lemma else_ifs_doomed elseBlock exitOpRef elseIfs block :
  block ∈ elseIfs ++ match elseBlock with Some b => [b] | None => [] end ->
  DoomedRuns (WalkAll block) ->
  forall elseLab, DoomedRuns (else_ifs elseBlock exitOpRef elseIfs elseLab).
Proof.
  intros Hblock Hwalk.
  induction elseIfs as [|b elseIfs IH]; intros elseLab ad ops ad' Hrun;
    cbn [else_ifs] in Hrun.
  - apply bind_Some in Hrun as (ops1 & ad1 & Hrun1 & Hrun).
    unfold ret in Hrun. simplify_eq. apply Exists_cons_tl.
    cbn [app] in Hblock. destruct elseBlock as [b|];
      [|by apply elem_of_nil in Hblock].
    apply list_elem_of_singleton in Hblock as ->. by eapply Hwalk.
  - apply bind_Some in Hrun as (l1 & ad1 & _ & Hrun).
    apply bind_Some in Hrun as (l2 & ad2 & _ & Hrun).
    apply bind_Some in Hrun as (r1 & ad3 & _ & Hrun).
    apply bind_Some in Hrun as (r2 & ad4 & _ & Hrun).
    apply bind_Some in Hrun as (ops1 & ad5 & Hrun1 & Hrun).
    apply bind_Some in Hrun as (more & ad6 & Hrun2 & Hrun).
    unfold ret in Hrun. simplify_eq. cbn [app].
    do 3 apply Exists_cons_tl. apply Exists_app.
    cbn [app] in Hblock. apply elem_of_cons in Hblock as [->|Hblock].
    + left. by eapply Hwalk.
    + right. apply Exists_cons_tl. by eapply IH.
Qed.

Lemma Walk_block_doomed c block :
  block ∈ blocks_of c -> DoomedRuns (WalkAll block) -> DoomedRuns (Walk c).
Proof.
  intros Hblock Hwalk.
  destruct c; cbn [blocks_of] in Hblock;
    try (by apply elem_of_nil in Hblock);
    try (apply list_elem_of_singleton in Hblock as ->).
  - rewrite Walk_AssociateConstruct. by apply linear_construct_doomed.
  - intros ad ops ad' Hrun. rewrite Walk_BlockConstruct in Hrun.
    apply bind_Some in Hrun as (label & ad1 & _ & Hrun).
    apply bind_Some in Hrun as (ref & ad2 & _ & Hrun).
    apply bind_Some in Hrun as ([] & ad3 & _ & Hrun).
    apply bind_Some in Hrun as (inner & ad4 & Hinner%Hwalk & Hrun).
    apply bind_Some in Hrun as ([] & ad5 & _ & Hrun).
    unfold ret in Hrun. simplify_eq.
    apply Exists_cons_tl, Exists_app. by left.
  - rewrite Walk_CaseConstruct. by eapply multiway_doomed.
  - rewrite Walk_ChangeTeamConstruct. by apply linear_construct_doomed.
  - rewrite Walk_CriticalConstruct. by apply linear_construct_doomed.
  - intros ad ops ad' Hrun. rewrite Walk_DoConstruct in Hrun.
    apply bind_Some in Hrun as (backedgeLab & ad1 & _ & Hrun).
    apply bind_Some in Hrun as (incrementLab & ad2 & _ & Hrun).
    apply bind_Some in Hrun as (entryLab & ad3 & _ & Hrun).
    apply bind_Some in Hrun as (exitLab & ad4 & _ & Hrun).
    apply bind_Some in Hrun as (exitOpRef & ad5 & _ & Hrun).
    apply bind_Some in Hrun as (incrementRef & ad6 & _ & Hrun).
    apply bind_Some in Hrun as ([] & ad7 & _ & Hrun).
    apply bind_Some in Hrun as (backedgeRef & ad8 & _ & Hrun).
    apply bind_Some in Hrun as (entryRef & ad9 & _ & Hrun).
    apply bind_Some in Hrun as (inner & ad10 & Hinner%Hwalk & Hrun).
    apply bind_Some in Hrun as (incrementRef' & ad11 & _ & Hrun).
    apply bind_Some in Hrun as ([] & ad12 & _ & Hrun).
    unfold ret in Hrun. simplify_eq. cbn [app].
    do 8 apply Exists_cons_tl. apply Exists_app. by left.
  - intros ad ops ad' Hrun. rewrite Walk_IfConstruct in Hrun.
    apply bind_Some in Hrun as (thenLab & ad1 & _ & Hrun).
    apply bind_Some in Hrun as (elseLab & ad2 & _ & Hrun).
    apply bind_Some in Hrun as (exitLab & ad3 & _ & Hrun).
    apply bind_Some in Hrun as (exitRef & ad4 & _ & Hrun).
    apply bind_Some in Hrun as ([] & ad5 & _ & Hrun).
    apply bind_Some in Hrun as (thenRef & ad6 & _ & Hrun).
    apply bind_Some in Hrun as (elseRef & ad7 & _ & Hrun).
    apply bind_Some in Hrun as (inner & ad8 & Hinner & Hrun).
    apply bind_Some in Hrun as (exitOpRef & ad9 & _ & Hrun).
    apply bind_Some in Hrun as (rest & ad10 & Hrest & Hrun).
    apply bind_Some in Hrun as ([] & ad11 & _ & Hrun).
    unfold ret in Hrun. simplify_eq. cbn [app].
    do 3 apply Exists_cons_tl. apply Exists_app.
    apply elem_of_cons in Hblock as [->|Hblock].
    + left. by eapply Hwalk.
    + right. apply Exists_cons_tl, Exists_app. left.
      by eapply else_ifs_doomed.
  - rewrite Walk_SelectRankConstruct. by eapply multiway_doomed.
  - rewrite Walk_SelectTypeConstruct. by eapply multiway_doomed.
Qed.

Lemma Walk_unsupported c : HasUnsupported c -> DoomedRuns (Walk c).
Proof.
  induction 1 as [label v Hv|c block c' Hblock Hc' _ IH].
  - intros ad ops ad' Hrun. rewrite Walk_Statement in Hrun.
    apply bind_Some in Hrun as (ops1 & ad1 & _ & Hrun).
    apply bind_Some in Hrun as (more & ad2 & Hbuild & Hrun).
    unfold ret in Hrun. simplify_eq. apply Exists_app. right.
    by eapply Build_unsupported.
  - eapply Walk_block_doomed; [done|]. by eapply WalkAll_doomed.
Qed.

(** X22.  A procedure with a CONTINUE statement, an IF statement, an
    arithmetic IF, a computed GOTO with a label or a CALL with an alternate
    return, anywhere in its body, is never lowered: [ProcessRoutine] stops
    at [WRONG_PATH()], at the [CHECK] of [AddOrQueueSwitch] or in the
    deferred switch that runs out of values. *)
Theorem ProcessRoutine_unsupported body :
  Exists HasUnsupported body -> ProcessRoutine body = None.
Proof.
  intros (c & Hc & Hun)%Exists_exists. unfold ProcessRoutine.
  destruct (WalkAll body empty_AnalysisData) as [[ops ad]|] eqn:Hwalk;
    [|done].
  rewrite lowering_doomed; [done|].
  eapply WalkAll_doomed; [done|by apply Walk_unsupported|done].
Qed.

Lemma ProcessRoutine_unsupported_witness :
  ProcessRoutine arithmetic_if_in_block = None.
Proof.
  apply ProcessRoutine_unsupported. apply Exists_cons_hd.
  apply (HasUnsupported_inside _
           [parser.Statement None (parser.ArithmeticIfStmt 10 20 30)]
           (parser.Statement None (parser.ArithmeticIfStmt 10 20 30))).
  - cbn. apply list_elem_of_singleton. reflexivity.
  - apply list_elem_of_singleton. reflexivity.
  - apply HasUnsupported_here. reflexivity.
Defined.

End DoomedFacts.

(** ** Every block gets its terminator *)

Section TerminatorFacts.
Import Afforestation.

Lemma closed_push s c bl b :
  (c < length bl)%nat -> closed bl b ->
  closed (alter (FIR.push_back s) c bl) b.
Proof.
  intros Hc Hb. unfold closed. rewrite stmts_of_push by done.
  destruct (decide (c = b)); [|done]. apply Exists_app. by left.
Qed.

Lemma closed_push_terminator s c bl :
  (c < length bl)%nat -> FIR.isTerminator s = true ->
  closed (alter (FIR.push_back s) c bl) c.
Proof.
  intros Hc Hs. unfold closed. rewrite stmts_of_push by done.
  rewrite decide_True by done. apply Exists_app. right.
  by apply Exists_cons_hd.
Qed.

Lemma closed_addPred c t bl b :
  closed (alter (FIR.addPred c) t bl) b <-> closed bl b.
Proof. unfold closed. by rewrite stmts_of_addPred. Qed.

Lemma closed_new r bl b : closed (bl ++ [FIR.new_block r]) b <-> closed bl b.
Proof. unfold closed. by rewrite stmts_of_new. Qed.

Lemma closed_not_unterminated bl b : closed bl b -> ~ unterminated bl b.
Proof.
  intros Hc [_ Hu]. unfold closed in Hc. unfold nonterminators in Hu.
  apply Exists_exists in Hc as (s & Hs & Ht).
  rewrite Forall_forall in Hu. specialize (Hu s Hs). congruence.
Qed.

Lemma Cov_same_graph open fresh st st' :
  same_graph st st' -> Cov open fresh st -> Cov open fresh st'.
Proof.
  intros (Hb & Hc & He). unfold Cov, pending. by rewrite Hb, Hc, He.
Qed.

Lemma cov_frame {A} open fresh (m : Lowering A) :
  (forall st a st', m st = Some (a, st') -> same_graph st st') ->
  hoare (Cov open fresh) m (fun _ => Cov open fresh).
Proof. intros Hm st a st' HA Hrun. eapply Cov_same_graph; eauto. Qed.

Lemma Cov_weaken open fresh st : Cov false fresh st -> Cov open fresh st.
Proof.
  intros H b Hb. destruct (H b Hb) as [?|[?|[?|[? _]]]]; auto. done.
Qed.

Lemma Cov_no_cursor fresh st :
  cursorBlock_ st = None -> Cov true fresh st -> Cov false fresh st.
Proof.
  intros Hc H b Hb. destruct (H b Hb) as [?|[?|[?|[_ ?]]]]; auto. congruence.
Qed.

Ltac cov_frame_step :=
  first
    [ apply hoare_die
    | apply cov_frame; intros ? ? ? Hrun;
      cbv [blockMap_find blockMap_insert GetInsertionPoint GetCurrentRegion
           SetCurrentRegion Region_Create PushDoContext PopDoContext
           GetBoundsInfo cleanupSwitchPairs buildMultiwayDefaultNext
           bind ret gets modify die] in Hrun;
      repeat case_match; simplify_eq; done ].

Lemma on_analysis_Cov {A} open fresh (m : StateM AnalysisData A) :
  hoare (Cov open fresh) (on_analysis m) (fun _ => Cov open fresh).
Proof.
  apply cov_frame. intros st a st' Hrun. unfold on_analysis in Hrun.
  destruct (m (analysis st)) as [[a' ad]|]; [|done]. by simplify_eq.
Qed.

Lemma Insert_Cov s open fresh :
  hoare (Cov open fresh) (Insert s) (fun _ => Cov open fresh).
Proof.
  intros st [] st' HC Hrun. unfold Insert in Hrun.
  destruct (cursorBlock_ st) as [c|] eqn:Hc; [|done].
  destruct (blocks st !! c) as [blk|] eqn:Hblk; [|done]. simplify_eq.
  apply lookup_lt_Some in Hblk. intros b Hb. unfold pending.
  cbn [blocks controlFlowEdgesToAdd_ cursorBlock_ with_blocks] in *.
  rewrite length_alter in Hb.
  destruct (HC b Hb) as [?|[?|[?|?]]]; auto. left. by apply closed_push.
Qed.

Lemma Insert_terminator_Cov s fresh :
  FIR.isTerminator s = true ->
  hoare (Cov true fresh) (Insert s) (fun _ => Cov false fresh).
Proof.
  intros Hs st [] st' HC Hrun. unfold Insert in Hrun.
  destruct (cursorBlock_ st) as [c|] eqn:Hc; [|done].
  destruct (blocks st !! c) as [blk|] eqn:Hblk; [|done]. simplify_eq.
  apply lookup_lt_Some in Hblk. intros b Hb. unfold pending.
  cbn [blocks controlFlowEdgesToAdd_ cursorBlock_ with_blocks] in *.
  rewrite length_alter in Hb.
  destruct (HC b Hb) as [?|[?|[?|[_ Hcur]]]]; auto.
  - left. by apply closed_push.
  - rewrite Hc in Hcur. simplify_eq. left. by apply closed_push_terminator.
Qed.

Lemma addPred_of_cursor_Cov t open fresh :
  hoare (Cov open fresh) (addPred_of_cursor t) (fun _ => Cov open fresh).
Proof.
  intros st [] st' HC Hrun. unfold addPred_of_cursor in Hrun.
  destruct (cursorBlock_ st) as [c|] eqn:Hc; [|done].
  destruct (blocks st !! t) as [blk|] eqn:Hblk; [|done]. simplify_eq.
  intros b Hb. unfold pending.
  cbn [blocks controlFlowEdgesToAdd_ cursorBlock_ with_blocks] in *.
  rewrite length_alter in Hb. rewrite closed_addPred.
  destruct (HC b Hb) as [?|[?|[?|[? ?]]]]; auto.
Qed.

Lemma InsertTerminator_Cov s fresh :
  FIR.isTerminator s = true ->
  hoare (Cov true fresh) (InsertTerminator s) (fun _ => Cov false fresh).
Proof.
  intros Hs. unfold InsertTerminator.
  eapply hoare_bind; [by apply Insert_terminator_Cov|]. intros [].
  apply (hoare_for_each (Cov false fresh)). intros t.
  apply addPred_of_cursor_Cov.
Qed.

Lemma CreateBlock_Cov open fresh region :
  hoare (Cov open fresh) (CreateBlock region)
    (fun b => Cov open (b :: fresh)).
Proof.
  intros st n st' HC Hrun. unfold CreateBlock in Hrun.
  destruct region as [r|]; [|done]. simplify_eq.
  intros b Hb. unfold pending.
  cbn [blocks controlFlowEdgesToAdd_ cursorBlock_ with_blocks] in *.
  rewrite length_app in Hb. cbn [length] in Hb. rewrite closed_new.
  destruct (decide (b = length (blocks st))) as [->|Hne].
  - right. right. left. by left.
  - destruct (HC b) as [?|[?|[?|?]]]; auto; [lia|].
    right. right. left. by right.
Qed.

Lemma SetInsertionPoint_Cov fresh b :
  hoare (Cov false (b :: fresh)) (SetInsertionPoint (Some b))
    (fun _ => Cov true fresh).
Proof.
  intros st [] st' HC Hrun. unfold SetInsertionPoint in Hrun.
  destruct (blocks st !! b) as [blk|]; [|done]. simplify_eq.
  intros b' Hb'. unfold pending.
  cbn [blocks controlFlowEdgesToAdd_ cursorBlock_ with_cursor] in *.
  destruct (HC b' Hb') as [?|[?|[[->|?]%elem_of_cons|[? _]]]]; auto. done.
Qed.

Lemma ClearInsertionPoint_Cov fresh :
  hoare (Cov false fresh) ClearInsertionPoint (fun _ => Cov true fresh).
Proof.
  apply hoare_modify. intros st HC b Hb.
  destruct (HC b Hb) as [?|[?|[?|[? _]]]]; auto. done.
Qed.

Lemma enqueue_Cov fresh (arc : option nat -> Closure) :
  (forall c, closure_block (arc c) = c) ->
  hoare (Cov true fresh) (enqueue arc) (fun _ => Cov false fresh).
Proof.
  intros Harc. apply hoare_modify. intros st HC b Hb. unfold pending.
  cbn [blocks controlFlowEdgesToAdd_ cursorBlock_ with_edges] in *.
  rewrite omap_app, omap_closure_block_singleton, Harc. fold (pending st).
  rewrite elem_of_app.
  destruct (HC b Hb) as [?|[?|[?|[_ Hcur]]]]; auto.
  rewrite Hcur. right. left. right. by apply list_elem_of_singleton.
Qed.

Lemma GetInsertionPoint_Cov fresh :
  hoare (Cov true fresh) GetInsertionPoint
    (fun cursor => match cursor with
                   | Some _ => Cov true fresh
                   | None => Cov false fresh
                   end).
Proof.
  apply hoare_gets. intros st HC.
  destruct (cursorBlock_ st) eqn:Hc; [done|]. by apply Cov_no_cursor.
Qed.

(** *** The handlers *)

Abbreviation Covered := (Cov true []).
Abbreviation Settled := (Cov false []).

Lemma CheckInsertionPoint_Cov fresh :
  hoare (Cov true fresh) CheckInsertionPoint (fun _ => Cov true fresh).
Proof.
  unfold CheckInsertionPoint.
  eapply hoare_bind; [apply GetInsertionPoint_Cov|].
  intros [c|]; [by apply hoare_ret|].
  eapply hoare_bind; [cov_frame_step|]. intros region.
  eapply hoare_bind; [apply CreateBlock_Cov|]. intros b.
  apply SetInsertionPoint_Cov.
Qed.

Lemma CreateBranch_Cov fresh block :
  hoare (Cov true fresh) (CreateBranch block) (fun _ => Cov false fresh).
Proof. destruct block; [by apply InsertTerminator_Cov|apply hoare_die]. Qed.

Lemma CreateConditionalBranch_Cov fresh t f :
  hoare (Cov true fresh) (CreateConditionalBranch t f)
    (fun _ => Cov false fresh).
Proof.
  destruct t, f; try apply hoare_die. by apply InsertTerminator_Cov.
Qed.

Lemma CreateIndirectBr_Cov fresh targets :
  hoare (Cov true fresh) (CreateIndirectBr targets)
    (fun _ => Cov false fresh).
Proof.
  unfold CreateIndirectBr.
  destruct (non_null targets); [by apply InsertTerminator_Cov|apply hoare_die].
Qed.

Lemma CreateSwitchOf_Cov fresh kind d rest :
  hoare (Cov true fresh) (CreateSwitchOf kind d rest)
    (fun _ => Cov false fresh).
Proof.
  unfold CreateSwitchOf.
  destruct d, (non_null rest); try apply hoare_die.
  by apply InsertTerminator_Cov.
Qed.

Lemma EnterRegion_Cov : hoare Covered EnterRegion (fun _ => Covered).
Proof.
  unfold EnterRegion.
  eapply hoare_bind; [cov_frame_step|]. intros [region|]; [|apply hoare_die].
  eapply hoare_bind; [cov_frame_step|]. intros newRegion.
  eapply hoare_bind; [apply CreateBlock_Cov|]. intros block.
  eapply hoare_bind; [apply CheckInsertionPoint_Cov|]. intros [].
  eapply hoare_bind; [apply CreateBranch_Cov|]. intros [].
  apply SetInsertionPoint_Cov.
Qed.

Lemma ExitRegion_Cov open :
  hoare (Cov open []) ExitRegion (fun _ => Cov open []).
Proof.
  unfold ExitRegion.
  eapply hoare_bind; [cov_frame_step|]. intros [r|]; [|apply hoare_die].
  eapply hoare_bind; [cov_frame_step|]. intros [reg|]; [|apply hoare_die].
  cov_frame_step.
Qed.

Lemma AddOrQueueBranch_Cov dest :
  hoare Covered (AddOrQueueBranch dest) (fun _ => Settled).
Proof.
  unfold AddOrQueueBranch.
  eapply hoare_bind; [cov_frame_step|]. intros [block|].
  - apply CreateBranch_Cov.
  - by apply enqueue_Cov.
Qed.

Lemma AddOrQueueCGoto_Cov t f :
  hoare Covered (AddOrQueueCGoto t f) (fun _ => Settled).
Proof.
  unfold AddOrQueueCGoto.
  eapply hoare_bind; [cov_frame_step|]. intros [tb|];
    (eapply hoare_bind; [cov_frame_step|]; intros [fb|]);
    first [apply CreateConditionalBranch_Cov | by apply enqueue_Cov].
Qed.

Lemma AddOrQueueSwitch_Cov kind d values labels :
  hoare Covered (AddOrQueueSwitch kind d values labels) (fun _ => Settled).
Proof.
  unfold AddOrQueueSwitch.
  eapply hoare_bind; [cov_frame_step|]. intros [defaultBlock|].
  - case_bool_decide; [|apply hoare_die].
    eapply hoare_bind; [cov_frame_step|]. intros m.
    destruct (known_blocks m labels).
    + apply CreateSwitchOf_Cov.
    + by apply enqueue_Cov.
  - by apply enqueue_Cov.
Qed.

Lemma AddOrQueueIGoto_Cov symbol labels :
  hoare Covered (AddOrQueueIGoto symbol labels) (fun _ => Settled).
Proof.
  unfold AddOrQueueIGoto.
  eapply hoare_bind.
  { instantiate (1 := fun _ => Covered).
    destruct labels; [apply on_analysis_Cov|cov_frame_step]. }
  intros useLabels.
  eapply hoare_bind; [cov_frame_step|]. intros m.
  destruct (known_blocks m useLabels).
  - apply CreateIndirectBr_Cov.
  - by apply enqueue_Cov.
Qed.

Ltac cov_inserts :=
  repeat first
    [ apply Insert_Cov
    | eapply hoare_bind; [apply Insert_Cov | intros []]
    | cov_frame_step ].

Lemma handleActionStatement_Cov stmt :
  hoare Covered (handleActionStatement stmt) (fun _ => Covered).
Proof.
  destruct stmt; cbn [handleActionStatement];
    unfold CreateAlloc, CreateDealloc, CreateExpr, CreateAddr, CreateStore,
      CreateCall, CreateIOCall, CreateRuntimeCall, CreateNullify;
    try (apply hoare_repeat_n); cov_inserts.
  eapply hoare_bind; [apply on_analysis_Cov|]. intros ref.
  eapply hoare_bind; [cov_frame_step|]. intros [[block|]|];
    unfold CreateStoreBlock; cov_inserts.
Qed.

Lemma handleLinearSwitch_Cov u refs :
  hoare Covered (handleLinearSwitch u refs) (fun _ => Settled).
Proof.
  destruct u; cbn [handleLinearSwitch]; unfold CreateExpr.
  - eapply hoare_bind; [cov_frame_step|]. intros args.
    apply AddOrQueueSwitch_Cov.
  - eapply hoare_bind; [apply Insert_Cov|]. intros [].
    eapply hoare_bind; [cov_frame_step|]. intros args.
    apply AddOrQueueSwitch_Cov.
  - eapply hoare_bind; [apply Insert_Cov|]. intros [].
    apply AddOrQueueSwitch_Cov.
  - eapply hoare_bind; [apply Insert_Cov|]. intros [].
    eapply hoare_bind.
    { apply hoare_map_each. intros selector. unfold populate_case.
      destruct selector as [ranges|]; [|cov_frame_step].
      apply hoare_bind with (R := fun _ => Covered);
        [|intros []; cov_frame_step].
      apply (hoare_for_each Covered).
      intros [|[|] [|]]; unfold CreateExpr; cov_inserts. }
    intros isDefault.
    eapply hoare_bind; [cov_frame_step|]. intros args.
    apply AddOrQueueSwitch_Cov.
  - eapply hoare_bind; [apply Insert_Cov|]. intros [].
    eapply hoare_bind; [cov_frame_step|]. intros args.
    apply AddOrQueueSwitch_Cov.
  - eapply hoare_bind; [apply Insert_Cov|]. intros [].
    eapply hoare_bind; [cov_frame_step|]. intros args.
    apply AddOrQueueSwitch_Cov.
Qed.

Lemma handleBeginConstruct_Cov u :
  hoare Covered (handleBeginConstruct u) (fun _ => Covered).
Proof.
  destruct u; cbn [handleBeginConstruct]; unfold CreateExpr;
    try apply EnterRegion_Cov; cov_inserts.
  - eapply hoare_bind; [apply EnterRegion_Cov|]. intros [].
    apply hoare_repeat_n. unfold CreateExpr, CreateAddr, CreateStore.
    cov_inserts.
  - eapply hoare_bind; [apply EnterRegion_Cov|]. intros [].
    unfold InitiateConstruct_Do.
    destruct control as [[| |]|]; unfold CreateExpr, CreateAddr, CreateStore;
      cov_inserts.
Qed.

Lemma handleEndConstruct_Cov u :
  hoare Covered (handleEndConstruct u) (fun _ => Covered).
Proof.
  destruct u; cbn [handleEndConstruct];
    try apply ExitRegion_Cov; cov_inserts.
  apply hoare_bind with (R := fun _ => Covered);
    [|intros []; apply ExitRegion_Cov].
  unfold FinishConstruct. destruct control as [[| |]|]; cov_inserts.
Qed.

Lemma handleLinearOp_Cov op :
  hoare Covered (handleLinearOp op) (fun _ => Covered).
Proof.
  destruct op; cbn [handleLinearOp].
  - (* LinearLabel *)
    eapply hoare_bind; [cov_frame_step|]. intros region.
    eapply hoare_bind; [apply CreateBlock_Cov|]. intros newBlock.
    eapply hoare_bind; [cov_frame_step|]. intros [].
    eapply hoare_bind; [apply GetInsertionPoint_Cov|]. intros cursor.
    apply hoare_bind with (R := fun _ => Cov false [newBlock]);
      [|intros []; apply SetInsertionPoint_Cov].
    destruct cursor; [apply CreateBranch_Cov|by apply hoare_ret].
  - (* LinearGoto *)
    eapply hoare_bind; [apply CheckInsertionPoint_Cov|]. intros [].
    eapply hoare_bind; [apply AddOrQueueBranch_Cov|]. intros [].
    apply ClearInsertionPoint_Cov.
  - (* LinearReturn *)
    eapply hoare_bind; [apply CheckInsertionPoint_Cov|]. intros [].
    apply hoare_bind with (R := fun _ => Settled);
      [|intros []; apply ClearInsertionPoint_Cov].
    destruct u; unfold CreateRuntimeCall, CreateExpr, CreateUnreachable,
      CreateReturn;
      (eapply hoare_bind; [apply Insert_Cov|]);
      intros []; by apply InsertTerminator_Cov.
  - (* LinearConditionalGoto *)
    eapply hoare_bind; [apply CheckInsertionPoint_Cov|]. intros [].
    eapply hoare_bind.
    { instantiate (1 := fun _ => Covered).
      destruct u as [| | |doStmt control]; unfold CreateExpr;
        try apply Insert_Cov.
      unfold BuildLoopLatchExpression.
      destruct control as [[| |]|]; unfold CreateExpr;
        first [apply Insert_Cov | cov_frame_step]. }
    intros [].
    eapply hoare_bind; [apply AddOrQueueCGoto_Cov|]. intros [].
    apply ClearInsertionPoint_Cov.
  - (* LinearSwitchingIO *)
    eapply hoare_bind; [apply CheckInsertionPoint_Cov|]. intros [].
    eapply hoare_bind; [apply AddOrQueueSwitch_Cov|]. intros [].
    apply ClearInsertionPoint_Cov.
  - (* LinearSwitch *)
    eapply hoare_bind; [apply CheckInsertionPoint_Cov|]. intros [].
    eapply hoare_bind; [apply handleLinearSwitch_Cov|]. intros [].
    apply ClearInsertionPoint_Cov.
  - (* LinearAction *)
    eapply hoare_bind; [apply CheckInsertionPoint_Cov|]. intros [].
    apply handleActionStatement_Cov.
  - apply handleBeginConstruct_Cov.
  - apply handleEndConstruct_Cov.
  - (* LinearIndirectGoto *)
    eapply hoare_bind; [apply CheckInsertionPoint_Cov|]. intros [].
    eapply hoare_bind; [apply AddOrQueueIGoto_Cov|]. intros [].
    apply ClearInsertionPoint_Cov.
  - (* LinearDoIncrement *)
    eapply hoare_bind; [apply CheckInsertionPoint_Cov|]. intros [].
    unfold handleLinearDoIncrement, CreateLoad, CreateIncrement.
    eapply hoare_bind; [cov_frame_step|]. intros []. cov_inserts.
  - (* LinearDoCompare *)
    eapply hoare_bind; [apply CheckInsertionPoint_Cov|]. intros [].
    unfold handleLinearDoCompare, CreateLoad, CreateDoCondition.
    eapply hoare_bind; [cov_frame_step|]. intros []. cov_inserts.
Qed.

Lemma ConstructFIR_Cov ops :
  hoare Covered (ConstructFIR ops) (fun _ => Covered).
Proof.
  assert (Hlen : forall n ops, (length ops <= n)%nat ->
            hoare Covered (ConstructFIR ops) (fun _ => Covered));
    [|by apply (Hlen (length ops))].
  clear ops. induction n as [|n IH]; intros [|op rest] Hn;
    cbn [length] in Hn; try lia; try (by apply hoare_ret).
  assert (Hrest : hoare Covered (ConstructFIR rest) (fun _ => Covered)).
  { apply IH. lia. }
  destruct op; cbn [ConstructFIR];
    try (eapply hoare_bind; [apply handleLinearOp_Cov|]; intros [];
         exact Hrest).
  eapply hoare_bind; [apply handleBeginConstruct_Cov|]. intros [].
  destruct rest as [|next rest']; [apply hoare_die|].
  destruct next; try exact Hrest.
  eapply hoare_bind; [cov_frame_step|]. intros cursor.
  eapply hoare_bind; [cov_frame_step|]. intros [].
  apply IH. cbn [length] in Hn. lia.
Qed.


(** *** Drawing the deferred edges *)

Lemma CovAt_frame {A} c rest rem (m : Lowering A) :
  (forall st a st', m st = Some (a, st') -> same_graph st st') ->
  hoare (CovAt c rest rem) m (fun _ => CovAt c rest rem).
Proof.
  intros Hm st a st' HA Hrun. destruct (Hm _ _ _ Hrun) as (Hb & Hc & He).
  unfold CovAt. by rewrite Hb, Hc.
Qed.

Lemma SetInsertionPoint_CovAt arc c rest rem :
  closure_block arc = Some c ->
  hoare (CovR rest (arc :: rem)) (SetInsertionPoint (Some c))
    (fun _ => CovAt c rest rem).
Proof.
  intros Harc st [] st' HC Hrun. unfold SetInsertionPoint in Hrun.
  destruct (blocks st !! c) as [blk|]; [|done]. simplify_eq.
  split; [done|]. intros b Hb. cbn [blocks with_cursor] in *.
  destruct (HC b Hb) as [?|[Hin|?]]; auto.
  cbn [omap list_omap] in Hin. rewrite Harc in Hin.
  apply elem_of_cons in Hin as [->|?]; auto.
Qed.

Lemma InsertTerminator_CovAt s c rest rem :
  FIR.isTerminator s = true ->
  hoare (CovAt c rest rem) (InsertTerminator s) (fun _ => CovR rest rem).
Proof.
  intros Hs. unfold InsertTerminator.
  apply hoare_bind with (R := fun _ st =>
    cursorBlock_ st = Some c /\ CovR rest rem st).
  - intros st [] st' [Hc HC] Hrun. unfold Insert in Hrun. rewrite Hc in Hrun.
    destruct (blocks st !! c) as [blk|] eqn:Hblk; [|done]. simplify_eq.
    apply lookup_lt_Some in Hblk. split; [done|]. intros b Hb.
    cbn [blocks with_blocks] in *. rewrite length_alter in Hb.
    destruct (HC b Hb) as [?|[?|[?| ->]]]; auto.
    + left. by apply closed_push.
    + left. by apply closed_push_terminator.
  - intros []. eapply hoare_conseq.
    + apply (hoare_for_each (fun st =>
               cursorBlock_ st = Some c /\ CovR rest rem st)).
      intros t st [] st' [Hc HC] Hrun. unfold addPred_of_cursor in Hrun.
      rewrite Hc in Hrun.
      destruct (blocks st !! t) as [blk|]; [|done]. simplify_eq.
      split; [done|]. intros b Hb. cbn [blocks with_blocks] in *.
      rewrite length_alter in Hb. rewrite closed_addPred. auto.
    + done.
    + by intros [] st [_ ?].
Qed.

Ltac at_frame_step :=
  first
    [ apply hoare_die
    | apply CovAt_frame; intros ? ? ? Hrun;
      cbv [blockMap_find bind ret gets modify die] in Hrun;
      repeat case_match; simplify_eq; done ].

Lemma run_closure_CovR arc rest rem :
  hoare (CovR rest (arc :: rem)) (run_closure arc) (fun _ => CovR rest rem).
Proof.
  destruct (closure_block arc) as [c|] eqn:Harc.
  2:{ intros st a st' _ Hrun.
      by destruct arc; cbn in Harc; subst block. }
  pose proof (SetInsertionPoint_CovAt arc c rest rem Harc) as Hset.
  destruct arc as [block dest|block t f|kind block d values labels
                  |block fixme]; cbn in Harc; subst block;
    cbn [run_closure]; (eapply hoare_bind; [apply Hset|]); intros [].
  - eapply hoare_bind; [at_frame_step|].
    intros [[target|]|]; try apply hoare_die.
    by apply InsertTerminator_CovAt.
  - eapply hoare_bind; [at_frame_step|]. intros [[tb|]|];
      (eapply hoare_bind; [at_frame_step|]; intros [[fb|]|]);
      try apply hoare_die.
    by apply InsertTerminator_CovAt.
  - eapply hoare_bind.
    { instantiate (1 := fun _ => CovAt c rest rem).
      case_bool_decide; [by apply hoare_ret|apply hoare_die]. }
    intros [].
    eapply hoare_bind.
    { instantiate (1 := fun _ => CovAt c rest rem).
      apply hoare_map_each. intros lab.
      eapply hoare_bind; [at_frame_step|].
      intros [block|]; [by apply hoare_ret|apply hoare_die]. }
    intros cases.
    eapply hoare_bind; [at_frame_step|].
    intros [[defaultBlock|]|]; try apply hoare_die.
    unfold CreateSwitchOf. destruct (non_null cases); [|apply hoare_die].
    by apply InsertTerminator_CovAt.
  - by apply InsertTerminator_CovAt.
Qed.

Lemma initial_lowering_Covered ad : Covered (initial_lowering ad).
Proof.
  intros b Hb. cbn [blocks initial_lowering length] in Hb.
  right. right. right. split; [done|].
  cbn [cursorBlock_ initial_lowering]. f_equal. lia.
Qed.

Lemma lowering_CovR ops ad st :
  (ConstructFIR ops ;;; DrawRemainingArcs) (initial_lowering ad)
    = Some (tt, st) ->
  exists rest, CovR rest [] st.
Proof.
  intros Hrun. apply bind_Some in Hrun as ([] & st1 & Hcon & Hdraw).
  pose proof (ConstructFIR_Cov ops _ _ _ (initial_lowering_Covered ad) Hcon)
    as HC.
  exists (cursorBlock_ st1).
  unfold DrawRemainingArcs in Hdraw.
  apply bind_Some in Hdraw as (arcs & st2 & Hgets & Hdraw).
  unfold gets in Hgets. simplify_eq.
  eapply (hoare_for_each_rem (CovR (cursorBlock_ st2)) run_closure);
    [intros arc rem; apply run_closure_CovR| |exact Hdraw].
  intros b Hb. destruct (HC b Hb) as [?|[?|[?%elem_of_nil|[_ ?]]]]; auto.
  done.
Qed.



End TerminatorFacts.

(** ** [ConstructFIR] on a list in two parts, and the current region *)

Section RegionFacts.
Import Afforestation.

Lemma bind_assoc {S A B C} (m : StateM S A) (f : A -> StateM S B)
  (g : B -> StateM S C) st :
  bind (bind m f) g st = bind m (fun a => bind (f a) g) st.
Proof. unfold bind. by destruct (m st) as [[a st1]|]. Qed.

Lemma bind_ext {S A B} (m : StateM S A) (f g : A -> StateM S B) st :
  (forall a st1, f a st1 = g a st1) -> bind m f st = bind m g st.
Proof. intros H. unfold bind. by destruct (m st) as [[a st1]|]. Qed.

Lemma bind_ret_l {S A B} (a : A) (f : A -> StateM S B) st :
  bind (ret a) f st = f a st.
Proof. reflexivity. Qed.

Lemma ConstructFIR_split a b st :
  (forall u, last a <> Some (LinearBeginConstruct u)) ->
  ConstructFIR (a ++ b) st = (ConstructFIR a ;;; ConstructFIR b) st.
Proof.
  assert (Hlen : forall n a, (length a <= n)%nat ->
            (forall u, last a <> Some (LinearBeginConstruct u)) ->
            forall st, ConstructFIR (a ++ b) st
                       = (ConstructFIR a ;;; ConstructFIR b) st).
  2:{ intros Hlast. by apply (Hlen (length a)). }
  clear a st. induction n as [|n IH]; intros [|op rest] Hn Hlast st;
    cbn [length] in Hn; try lia; try reflexivity.
  assert (Hrest : forall u, last rest <> Some (LinearBeginConstruct u)).
  { intros u Hu. apply (Hlast u). by destruct rest. }
  assert (Hother : forall st,
            (handleLinearOp op ;;; ConstructFIR (rest ++ b)) st
            = ((handleLinearOp op ;;; ConstructFIR rest) ;;; ConstructFIR b)
                st).
  { intros st0. rewrite bind_assoc. apply bind_ext. intros _ st1.
    apply IH; [lia|done]. }
  destruct op; cbn [app ConstructFIR]; try apply Hother.
  rewrite bind_assoc. apply bind_ext. intros _ st1.
  destruct rest as [|next rest']; [by destruct (Hlast u)|].
  assert (Hnext : ConstructFIR ((next :: rest') ++ b) st1
                  = (ConstructFIR (next :: rest') ;;; ConstructFIR b) st1).
  { apply IH; [lia|done]. }
  cbn [app] in *. destruct next; try exact Hnext.
  rewrite bind_assoc. apply bind_ext. intros cursor st2.
  rewrite bind_assoc. apply bind_ext. intros _ st3.
  apply IH; [cbn [length] in Hn; lia|].
  intros u0 Hu0. apply (Hrest u0). by destruct rest'.
Qed.

Lemma ConstructFIR_ends_in_begin a u st :
  last a = Some (LinearBeginConstruct u) -> ConstructFIR a st = None.
Proof.
  assert (Hlen : forall n a, (length a <= n)%nat ->
            last a = Some (LinearBeginConstruct u) ->
            forall st, ConstructFIR a st = None).
  2:{ intros Hlast. by apply (Hlen (length a)). }
  clear a st. induction n as [|n IH]; intros [|op rest] Hn Hlast st;
    cbn [length] in Hn; try lia; try done.
  assert (Hnone : forall A (m : Lowering A) (k : A -> Lowering unit) st0,
            (forall a st1, k a st1 = None) -> bind m k st0 = None).
  { intros A m k st0 Hk. unfold bind. by destruct (m st0) as [[a st1]|]. }
  destruct rest as [|next rest'].
  - cbn in Hlast. simplify_eq. cbn [ConstructFIR]. by apply Hnone.
  - rewrite last_cons_cons in Hlast.
    assert (Hrest : forall st1, ConstructFIR (next :: rest') st1 = None).
    { intros st1. apply IH; [lia|done]. }
    destruct op; cbn [ConstructFIR]; try (apply Hnone; intros _; apply Hrest).
    apply Hnone. intros _ st1. destruct next; try apply Hrest.
    apply Hnone. intros cursor st2. apply Hnone. intros _ st3.
    apply IH; [cbn [length] in Hn; lia|].
    destruct rest'; [done|]. by rewrite last_cons_cons in Hlast.
Qed.

(** X25.  [ConstructFIR] on a list in two parts does what it does on the
    first part and then on the second, unless the first part ends in a
    begin-construct marker: the handler of the marker also looks at the
    operation that follows, and a list that ends in the marker makes
    [ConstructFIR] stop. *)
Theorem ConstructFIR_app a b st :
  ((forall u, last a <> Some (LinearBeginConstruct u)) ->
   ConstructFIR (a ++ b) st = (ConstructFIR a ;;; ConstructFIR b) st)
  /\ (forall u, last a = Some (LinearBeginConstruct u) ->
        ConstructFIR a st = None).
Proof.
  split.
  - apply ConstructFIR_split.
  - intros u. apply ConstructFIR_ends_in_begin.
Qed.

Lemma ConstructFIR_app_witness :
  ConstructFIR ([LinearAction parser.AssignmentStmt]
                ++ [LinearReturn ReturnStmt])
    (initial_lowering empty_AnalysisData)
  = (ConstructFIR [LinearAction parser.AssignmentStmt] ;;;
     ConstructFIR [LinearReturn ReturnStmt])
      (initial_lowering empty_AnalysisData).
Proof.
  apply (ConstructFIR_app [LinearAction parser.AssignmentStmt]
           [LinearReturn ReturnStmt]).
  intros u. discriminate.
Defined.


(** *** The current region *)

Abbreviation same_region :=
  (fun st st' : FortranIRLowering => cursorRegion_ st' = cursorRegion_ st).
Abbreviation keeps_region := (mono same_region).

Lemma keeps_region_bind {A B} (m : Lowering A) (f : A -> Lowering B) :
  keeps_region m -> (forall a, keeps_region (f a)) -> keeps_region (bind m f).
Proof. apply mono_bind. intros a b c Hab Hbc. congruence. Qed.

Lemma keeps_region_for_each {A} (f : A -> Lowering unit) l :
  (forall a, keeps_region (f a)) -> keeps_region (for_each f l).
Proof. apply mono_for_each; [done|]. intros a b c Hab Hbc. congruence. Qed.

Lemma keeps_region_map_each {A B} (f : A -> Lowering B) l :
  (forall a, keeps_region (f a)) -> keeps_region (map_each f l).
Proof. apply mono_map_each; [done|]. intros a b c Hab Hbc. congruence. Qed.

Lemma keeps_region_repeat_n (m : Lowering unit) n :
  keeps_region m -> keeps_region (repeat_n n m).
Proof. apply mono_repeat_n; [done|]. intros a b c Hab Hbc. congruence. Qed.

Lemma on_analysis_region {A} (m : StateM AnalysisData A) :
  keeps_region (on_analysis m).
Proof.
  intros st a st' Hrun. unfold on_analysis in Hrun.
  destruct (m (analysis st)) as [[a' ad]|]; by simplify_eq.
Qed.

Ltac region_prim :=
  let H := fresh "Hprim" in
  intros ? ? ? H;
  cbv [GetInsertionPoint GetCurrentRegion ClearInsertionPoint Insert
       addPred_of_cursor CreateBlock Region_Create enqueue
       blockMap_find blockMap_insert PushDoContext PopDoContext GetBoundsInfo
       cleanupSwitchPairs buildMultiwayDefaultNext
       bind ret gets modify die] in H;
  repeat case_match; simplify_eq; done.

Ltac region_step :=
  first
    [ apply keeps_region_bind; [|intros ?]
    | apply keeps_region_for_each; intros ?
    | apply keeps_region_map_each; intros ?
    | apply keeps_region_repeat_n
    | apply on_analysis_region
    | region_prim
    | case_match ].

Lemma InsertTerminator_region s : keeps_region (InsertTerminator s).
Proof. unfold InsertTerminator. repeat region_step. Qed.

Lemma parent_preserved st st' b blk :
  Extends st st' -> blocks st !! b = Some blk ->
  exists blk', blocks st' !! b = Some blk'
               /\ FIR.parent blk' = FIR.parent blk.
Proof.
  intros (Hb & _) Hblk. destruct (Hb b blk Hblk) as (blk' & ? & ? & _).
  by exists blk'.
Qed.

Lemma CheckInsertionPoint_region : keeps_region CheckInsertionPoint.
Proof.
  intros st [] st' Hrun. unfold CheckInsertionPoint in Hrun.
  cbv [GetInsertionPoint GetCurrentRegion CreateBlock SetInsertionPoint
       bind ret gets] in Hrun.
  destruct (cursorBlock_ st); [by simplify_eq|].
  destruct (cursorRegion_ st) as [r|] eqn:Hr; [|done].
  cbn [blocks with_blocks] in Hrun. rewrite list_lookup_middle in Hrun by done.
  by simplify_eq.
Qed.

Lemma CreateBranch_region block : keeps_region (CreateBranch block).
Proof.
  destruct block; [apply InsertTerminator_region|by intros ? ? ?].
Qed.

Lemma CreateConditionalBranch_region t f :
  keeps_region (CreateConditionalBranch t f).
Proof.
  destruct t, f; try (by intros ? ? ?). apply InsertTerminator_region.
Qed.

Lemma CreateIndirectBr_region targets :
  keeps_region (CreateIndirectBr targets).
Proof.
  unfold CreateIndirectBr.
  destruct (non_null targets); [apply InsertTerminator_region|by intros ? ? ?].
Qed.

Lemma CreateSwitchOf_region kind d rest :
  keeps_region (CreateSwitchOf kind d rest).
Proof.
  unfold CreateSwitchOf.
  destruct d, (non_null rest); try (by intros ? ? ?).
  apply InsertTerminator_region.
Qed.

Ltac region_more :=
  repeat first
    [ apply CheckInsertionPoint_region | apply InsertTerminator_region
    | apply CreateBranch_region | apply CreateConditionalBranch_region
    | apply CreateIndirectBr_region | apply CreateSwitchOf_region
    | region_step ].

Lemma handleActionStatement_region stmt :
  keeps_region (handleActionStatement stmt).
Proof.
  destruct stmt; cbn [handleActionStatement];
    unfold CreateAlloc, CreateDealloc, CreateExpr, CreateAddr, CreateLoad,
      CreateStore, CreateStoreBlock, CreateCall, CreateIOCall,
      CreateRuntimeCall, CreateNullify; region_more.
Qed.

Lemma handleLinearSwitch_region u refs :
  keeps_region (handleLinearSwitch u refs).
Proof.
  destruct u; cbn [handleLinearSwitch];
    unfold AddOrQueueSwitch, populate_case, CreateExpr; region_more.
Qed.

Lemma LinearLabel_region label :
  keeps_region (handleLinearOp (LinearLabel label)).
Proof.
  intros st [] st' Hrun. cbn [handleLinearOp] in Hrun.
  apply bind_Some in Hrun as (region & st1 & Hregion & Hrun).
  apply bind_Some in Hrun as (newBlock & st2 & Hnew & Hrun).
  apply bind_Some in Hrun as ([] & st3 & Hmap & Hrun).
  apply bind_Some in Hrun as (cursor & st4 & Hcursor & Hrun).
  apply bind_Some in Hrun as ([] & st5 & Hbranch & Hrun).
  unfold GetCurrentRegion, gets in Hregion. simplify_eq.
  unfold CreateBlock in Hnew.
  destruct (cursorRegion_ st1) as [r|] eqn:Hr; [|done]. simplify_eq.
  assert (Hblk : blocks st5 !! length (blocks st1) = Some (FIR.new_block r)
                 \/ exists blk, blocks st5 !! length (blocks st1) = Some blk
                                /\ FIR.parent blk = r).
  { right.
    assert (Hext : Extends (with_blocks (blocks st1 ++ [FIR.new_block r]) st1)
                     st5).
    { eapply Extends_trans; [by eapply blockMap_insert_grows|].
      eapply Extends_trans.
      - eapply (mono_gets Extends Extends_refl). exact Hcursor.
      - destruct cursor; [by eapply CreateBranch_grows|].
        unfold ret in Hbranch. simplify_eq. apply Extends_refl. }
    eapply parent_preserved in Hext as (blk' & ? & ?);
      [|cbn [blocks with_blocks]; by apply list_lookup_middle].
    by exists blk'. }
  assert (Hreg5 : cursorRegion_ st5 = Some r).
  { assert (H3 : cursorRegion_ st3 = Some r).
    { unfold blockMap_insert, modify in Hmap. simplify_eq.
      by destruct (blockMap_ _ !! label). }
    unfold GetInsertionPoint, gets in Hcursor. simplify_eq.
    destruct (cursorBlock_ st4).
    - by rewrite (CreateBranch_region _ _ _ _ Hbranch).
    - unfold ret in Hbranch. by simplify_eq. }
  unfold SetInsertionPoint in Hrun.
  destruct Hblk as [Hblk|(blk & Hblk & Hparent)]; rewrite Hblk in Hrun;
    simplify_eq; done.
Qed.

Lemma handleLinearOp_region op :
  is_construct_op op = false -> keeps_region (handleLinearOp op).
Proof.
  destruct op; try done; intros _; try apply LinearLabel_region;
    cbn [handleLinearOp];
    unfold AddOrQueueBranch, AddOrQueueCGoto, AddOrQueueIGoto,
      AddOrQueueSwitch, BuildLoopLatchExpression, handleLinearDoIncrement,
      handleLinearDoCompare, CreateRuntimeCall, CreateUnreachable,
      CreateReturn, CreateExpr, CreateLoad, CreateIncrement,
      CreateDoCondition;
    repeat first [apply handleActionStatement_region
                 | apply handleLinearSwitch_region | region_more].
Qed.


Lemma prefix_lookup {A} (l1 l2 : list A) i x :
  l1 `prefix_of` l2 -> l1 !! i = Some x -> l2 !! i = Some x.
Proof. intros [k ->] Hi. by apply lookup_app_l_Some. Qed.

Lemma EnterRegion_region st st' :
  EnterRegion st = Some (tt, st') ->
  exists n, cursorRegion_ st' = Some n
            /\ regions st' !! n = Some {| FIR.enclosing := cursorRegion_ st |}.
Proof.
  intros Hrun. unfold EnterRegion in Hrun.
  apply bind_Some in Hrun as (region & st1 & Hregion & Hrun).
  unfold GetCurrentRegion, gets in Hregion. simplify_eq.
  destruct (cursorRegion_ st1) as [r|] eqn:Hr; [|done].
  apply bind_Some in Hrun as (newRegion & st2 & Hnew & Hrun).
  unfold Region_Create in Hnew. simplify_eq.
  apply bind_Some in Hrun as (block & st3 & Hblock & Hrun).
  unfold CreateBlock in Hblock. simplify_eq.
  apply bind_Some in Hrun as ([] & st4 & Hcheck & Hrun).
  apply bind_Some in Hrun as ([] & st5 & Hbranch & Hrun).
  set (n := length (regions st1)) in *.
  set (b := length (blocks (with_regions
               (regions st1 ++ [{| FIR.enclosing := Some r |}]) st1))) in *.
  assert (Hext : Extends
            (with_blocks
               (blocks (with_regions
                  (regions st1 ++ [{| FIR.enclosing := Some r |}]) st1)
                ++ [FIR.new_block n])
               (with_regions
                  (regions st1 ++ [{| FIR.enclosing := Some r |}]) st1))
            st5).
  { eapply Extends_trans; [by eapply CheckInsertionPoint_grows|].
    by eapply CreateBranch_grows. }
  assert (Hregions : regions st5 !! n = Some {| FIR.enclosing := Some r |}).
  { destruct Hext as (_ & Hpre & _). eapply prefix_lookup; [exact Hpre|].
    cbn [regions with_blocks with_regions]. by apply list_lookup_middle. }
  eapply parent_preserved in Hext as (blk & Hblk & Hparent);
    [|cbn [blocks with_blocks]; by apply list_lookup_middle].
  unfold SetInsertionPoint in Hrun. fold b in Hblk. rewrite Hblk in Hrun.
  simplify_eq. exists n. cbn [cursorRegion_ regions with_cursor].
  split; [by rewrite Hparent|done].
Qed.

Lemma ExitRegion_region st st' n reg :
  cursorRegion_ st = Some n -> regions st !! n = Some reg ->
  ExitRegion st = Some (tt, st') ->
  cursorRegion_ st' = FIR.enclosing reg.
Proof.
  intros Hn Hreg Hrun.
  cbv [ExitRegion GetCurrentRegion SetCurrentRegion bind gets modify]
    in Hrun.
  rewrite Hn, Hreg in Hrun. by simplify_eq.
Qed.

Lemma handleBeginConstruct_tail_grows doStmt control :
  mono Extends (InitiateConstruct_Do doStmt control).
Proof.
  unfold InitiateConstruct_Do, CreateExpr, CreateAddr, CreateStore.
  destruct control as [[| |]|]; try apply grows_ret.
  repeat (apply grows_bind; [apply Insert_grows|intros _]).
  apply grows_same. intros st a st' Hrun.
  unfold PushDoContext, modify in Hrun. by simplify_eq.
Qed.

Lemma handleBeginConstruct_region u st st' :
  handleBeginConstruct u st = Some (tt, st') ->
  if enters_region u then
    exists n, cursorRegion_ st' = Some n
              /\ regions st' !! n
                 = Some {| FIR.enclosing := cursorRegion_ st |}
  else cursorRegion_ st' = cursorRegion_ st.
Proof.
  assert (Htail : forall (tail : Lowering unit),
            keeps_region tail -> mono Extends tail ->
            (EnterRegion ;;; tail) st = Some (tt, st') ->
            exists n, cursorRegion_ st' = Some n
                      /\ regions st' !! n
                         = Some {| FIR.enclosing := cursorRegion_ st |}).
  { intros tail Hkeep Hgrow Hrun.
    apply bind_Some in Hrun as ([] & st1 & Henter & Htail).
    destruct (EnterRegion_region _ _ Henter) as (n & Hn & Hreg).
    exists n. rewrite (Hkeep _ _ _ Htail). split; [done|].
    destruct (Hgrow _ _ _ Htail) as (_ & Hpre & _).
    by eapply prefix_lookup. }
  assert (Hinsert : forall s, keeps_region (Insert s)) by (intros s; region_prim).
  destruct u; cbn [handleBeginConstruct enters_region]; intros Hrun;
    try (by apply EnterRegion_region);
    try (unfold ret in Hrun; by simplify_eq);
    try (by eapply Hinsert).
  - refine (Htail _ _ _ Hrun).
    + unfold CreateExpr, CreateAddr, CreateStore. region_more.
    + apply mono_repeat_n; [apply Extends_refl|apply Extends_trans|].
      repeat (apply grows_bind; [apply Insert_grows|intros _]).
      apply Insert_grows.
  - refine (Htail _ _ _ Hrun).
    + unfold InitiateConstruct_Do, CreateExpr, CreateAddr, CreateStore.
      region_more.
    + apply (handleBeginConstruct_tail_grows doStmt control).
Qed.


Lemma begin_end_region u st st1 st3 st4 :
  u <> SelectRankConstructC ->
  handleBeginConstruct u st = Some (tt, st1) ->
  cursorRegion_ st3 = cursorRegion_ st1 ->
  regions st1 `prefix_of` regions st3 ->
  handleEndConstruct u st3 = Some (tt, st4) ->
  cursorRegion_ st4 = cursorRegion_ st.
Proof.
  intros Hu Hbegin%handleBeginConstruct_region Hsame Hpre Hend.
  assert (Hexit : (exists n, cursorRegion_ st1 = Some n
                     /\ regions st1 !! n
                        = Some {| FIR.enclosing := cursorRegion_ st |}) ->
                  forall st3', cursorRegion_ st3' = cursorRegion_ st3 ->
                               regions st3' = regions st3 ->
                  ExitRegion st3' = Some (tt, st4) ->
                  cursorRegion_ st4 = cursorRegion_ st).
  { intros (n & Hn & Hreg) st3' Hc3 Hr3 Hexit.
    assert (Hx : cursorRegion_ st3' = Some n) by (by rewrite Hc3, Hsame).
    assert (Hy : regions st3' !! n
                 = Some {| FIR.enclosing := cursorRegion_ st |}).
    { rewrite Hr3. by eapply prefix_lookup. }
    by rewrite (ExitRegion_region st3' st4 n _ Hx Hy Hexit). }
  destruct u; cbn [enters_region handleEndConstruct] in *; try done;
    try (by apply (Hexit Hbegin st3));
    try (unfold ret in Hend; simplify_eq; congruence).
  apply bind_Some in Hend as ([] & st3' & Hfinish & Hend).
  eapply (Hexit Hbegin st3'); [| |done];
    unfold FinishConstruct, PopDoContext, modify, ret in Hfinish;
    by destruct control as [[| |]|]; simplify_eq.
Qed.

Lemma Balanced_inv_cons op l :
  Balanced (op :: l) ->
  (is_construct_op op = false /\ Balanced l)
  \/ exists u inner ops,
       op = LinearBeginConstruct u /\ l = inner ++ LinearEndConstruct u :: ops
       /\ Balanced inner /\ Balanced ops.
Proof.
  inversion 1 as [|op' ops Hop Hops|u inner ops Hinner Hops]; subst.
  - by left.
  - right. by exists u, inner, ops.
Qed.

Lemma Balanced_last l u :
  Balanced l -> last l <> Some (LinearBeginConstruct u).
Proof.
  induction 1 as [|op ops Hop Hops IH|u' inner ops _ _ Hops IH]; [done| |].
  - rewrite last_cons. destruct (last ops); [done|].
    intros [= ->]. done.
  - rewrite last_cons, last_app_cons, last_cons. by destruct (last ops).
Qed.



End RegionFacts.

(** ** I/O statements with ERR=, EOR= and END= *)

Section IoLabelFacts.
Import Afforestation.

Lemma FetchLabel_run l ad :
  exists r ad',
    FetchLabel l ad = Some (r, ad')
    /\ labelMap ad' !! l = Some r
    /\ labelMap ad ⊆ labelMap ad'
    /\ nameStack ad' = nameStack ad.
Proof.
  destruct (labelMap ad !! l) as [r|] eqn:Hl.
  - exists r, ad. by rewrite (FetchLabel_bound l r ad Hl).
  - eexists _, _. split; [by apply FetchLabel_new|].
    cbn [labelMap with_labelMap with_labelBuilder nameStack].
    split; [by rewrite lookup_insert_eq|]. split; [|done].
    by apply insert_subseteq.
Qed.

Lemma fetch_if_present_run lab ad :
  exists ref ad',
    fetch_if_present lab ad = Some (ref, ad')
    /\ ref = (if lab =? 0 then None else labelMap ad' !! lab)
    /\ (lab <> 0 -> is_Some ref)
    /\ labelMap ad ⊆ labelMap ad'
    /\ nameStack ad' = nameStack ad.
Proof.
  unfold fetch_if_present. destruct (lab =? 0) eqn:Hlab.
  - exists None, ad. apply N.eqb_eq in Hlab. by repeat split.
  - destruct (FetchLabel_run lab ad) as (r & ad' & Hrun & Hr & Hsub & Hs).
    exists (Some r), ad'. unfold bind. rewrite Hrun.
    split; [done|]. split; [done|]. split; [by eexists|done].
Qed.


End IoLabelFacts.

(** ** The labels that [ConstructFIR] binds *)

Section BindingFacts.
Import Afforestation.

Lemma bound_grows {A} (m : Lowering A) l st a st' :
  mono Extends m -> m st = Some (a, st') ->
  is_Some (blockMap_ st !! l) -> is_Some (blockMap_ st' !! l).
Proof.
  intros Hm Hrun [block Hl]. destruct (Hm _ _ _ Hrun) as (_ & _ & Hsub & _).
  exists block. by eapply lookup_weaken.
Qed.

Lemma blockMap_insert_binds l block st a st' :
  blockMap_insert l block st = Some (a, st') -> is_Some (blockMap_ st' !! l).
Proof.
  unfold blockMap_insert, modify. intros Hrun. simplify_eq.
  destruct (blockMap_ st !! l) eqn:Hl; [by rewrite Hl|].
  cbn [blockMap_ with_blockMap]. by rewrite lookup_insert_eq.
Qed.

Lemma LinearLabel_binds l st a st' :
  handleLinearOp (LinearLabel l) st = Some (a, st') ->
  is_Some (blockMap_ st' !! l)
  /\ (blockMap_ st !! l = None ->
      exists b, blockMap_ st' !! l = Some (Some b)
                /\ (length (blocks st) <= b)%nat).
Proof.
  intros Hrun. cbn [handleLinearOp] in Hrun.
  apply bind_Some in Hrun as (region & st1 & Hregion & Hrun).
  apply bind_Some in Hrun as (newBlock & st2 & Hnew & Hrun).
  apply bind_Some in Hrun as ([] & st3 & Hmap & Hrun).
  assert (Htail : Extends st3 st').
  { apply bind_Some in Hrun as (cursor & st4 & Hcursor & Hrun).
    apply bind_Some in Hrun as ([] & st5 & Hbranch & Hrun).
    eapply Extends_trans; [by eapply (mono_gets Extends Extends_refl)|].
    eapply Extends_trans; [|by eapply SetInsertionPoint_grows].
    destruct cursor; [by eapply CreateBranch_grows|].
    unfold ret in Hbranch. simplify_eq. apply Extends_refl. }
  destruct Htail as (_ & _ & Hsub & _).
  unfold GetCurrentRegion, gets in Hregion. simplify_eq.
  unfold CreateBlock in Hnew. destruct (cursorRegion_ st1); [|done].
  simplify_eq. unfold blockMap_insert, modify in Hmap. simplify_eq.
  cbn [blockMap_ with_blocks] in *. split.
  - destruct (blockMap_ st1 !! l) as [block|] eqn:Hl.
    + exists block. by eapply lookup_weaken.
    + eexists. eapply lookup_weaken; [|done].
      cbn [blockMap_ with_blockMap]. apply lookup_insert_eq.
  - intros Hl. rewrite Hl in Hsub. exists (length (blocks st1)).
    split; [|done]. eapply lookup_weaken; [|done].
    cbn [blockMap_ with_blockMap]. apply lookup_insert_eq.
Qed.



End BindingFacts.

(** ** SELECT constructs without a default are not lowered *)

Section SelectFacts.
Import Afforestation.

Abbreviation same_binding l :=
  (fun st st' : FortranIRLowering => blockMap_ st' !! l = blockMap_ st !! l).
Abbreviation keeps_binding l := (mono (same_binding l)).

Section Binding.
Variable l : N.

Lemma keeps_binding_bind {A B} (m : Lowering A) (f : A -> Lowering B) :
  keeps_binding l m -> (forall a, keeps_binding l (f a)) ->
  keeps_binding l (bind m f).
Proof. apply mono_bind. intros a b c Hab Hbc. congruence. Qed.

Lemma keeps_binding_for_each {A} (f : A -> Lowering unit) xs :
  (forall a, keeps_binding l (f a)) -> keeps_binding l (for_each f xs).
Proof. apply mono_for_each; [done|]. intros a b c Hab Hbc. congruence. Qed.

Lemma keeps_binding_map_each {A B} (f : A -> Lowering B) xs :
  (forall a, keeps_binding l (f a)) -> keeps_binding l (map_each f xs).
Proof. apply mono_map_each; [done|]. intros a b c Hab Hbc. congruence. Qed.

Lemma keeps_binding_repeat_n (m : Lowering unit) n :
  keeps_binding l m -> keeps_binding l (repeat_n n m).
Proof. apply mono_repeat_n; [done|]. intros a b c Hab Hbc. congruence. Qed.

Lemma on_analysis_binding {A} (m : StateM AnalysisData A) :
  keeps_binding l (on_analysis m).
Proof.
  intros st a st' Hrun. unfold on_analysis in Hrun.
  destruct (m (analysis st)) as [[a' ad]|]; by simplify_eq.
Qed.

Lemma blockMap_insert_binding label block :
  label <> l -> keeps_binding l (blockMap_insert label block).
Proof.
  intros Hne st a st' Hrun. unfold blockMap_insert, modify in Hrun.
  simplify_eq. destruct (blockMap_ st !! label); [done|].
  cbn [blockMap_ with_blockMap]. by rewrite lookup_insert_ne.
Qed.

Ltac binding_prim :=
  let H := fresh "Hprim" in
  intros ? ? ? H;
  cbv [GetInsertionPoint GetCurrentRegion SetCurrentRegion ClearInsertionPoint
       SetInsertionPoint Insert addPred_of_cursor CreateBlock Region_Create
       enqueue blockMap_find PushDoContext PopDoContext GetBoundsInfo
       cleanupSwitchPairs buildMultiwayDefaultNext
       bind ret gets modify die] in H;
  repeat case_match; simplify_eq; done.

Ltac binding_step :=
  first
    [ apply keeps_binding_bind; [|intros ?]
    | apply keeps_binding_for_each; intros ?
    | apply keeps_binding_map_each; intros ?
    | apply keeps_binding_repeat_n
    | apply on_analysis_binding
    | binding_prim
    | case_match ].

Lemma InsertTerminator_binding s : keeps_binding l (InsertTerminator s).
Proof. unfold InsertTerminator. repeat binding_step. Qed.

Lemma CheckInsertionPoint_binding : keeps_binding l CheckInsertionPoint.
Proof. unfold CheckInsertionPoint. repeat binding_step. Qed.

Lemma CreateBranch_binding block : keeps_binding l (CreateBranch block).
Proof.
  destruct block; [apply InsertTerminator_binding|by intros ? ? ?].
Qed.

Lemma CreateConditionalBranch_binding t f :
  keeps_binding l (CreateConditionalBranch t f).
Proof.
  destruct t, f; try (by intros ? ? ?). apply InsertTerminator_binding.
Qed.

Lemma CreateIndirectBr_binding targets :
  keeps_binding l (CreateIndirectBr targets).
Proof.
  unfold CreateIndirectBr.
  destruct (non_null targets);
    [apply InsertTerminator_binding|by intros ? ? ?].
Qed.

Lemma CreateSwitchOf_binding kind d rest :
  keeps_binding l (CreateSwitchOf kind d rest).
Proof.
  unfold CreateSwitchOf.
  destruct d, (non_null rest); try (by intros ? ? ?).
  apply InsertTerminator_binding.
Qed.

Ltac binding_more :=
  repeat first
    [ apply CheckInsertionPoint_binding | apply InsertTerminator_binding
    | apply CreateBranch_binding | apply CreateConditionalBranch_binding
    | apply CreateIndirectBr_binding | apply CreateSwitchOf_binding
    | binding_step ].

Lemma EnterRegion_binding : keeps_binding l EnterRegion.
Proof. unfold EnterRegion. binding_more. Qed.

Lemma ExitRegion_binding : keeps_binding l ExitRegion.
Proof. unfold ExitRegion. binding_more. Qed.

Lemma handleActionStatement_binding stmt :
  keeps_binding l (handleActionStatement stmt).
Proof.
  destruct stmt; cbn [handleActionStatement];
    unfold CreateAlloc, CreateDealloc, CreateExpr, CreateAddr, CreateLoad,
      CreateStore, CreateStoreBlock, CreateCall, CreateIOCall,
      CreateRuntimeCall, CreateNullify; binding_more.
Qed.

Lemma AddOrQueueSwitch_binding kind d values labels :
  keeps_binding l (AddOrQueueSwitch kind d values labels).
Proof. unfold AddOrQueueSwitch. binding_more. Qed.

Lemma handleLinearSwitch_binding u refs :
  keeps_binding l (handleLinearSwitch u refs).
Proof.
  destruct u; cbn [handleLinearSwitch]; unfold populate_case, CreateExpr;
    repeat first [apply AddOrQueueSwitch_binding | binding_more].
Qed.

Lemma handleBeginConstruct_binding u :
  keeps_binding l (handleBeginConstruct u).
Proof.
  destruct u; cbn [handleBeginConstruct];
    unfold InitiateConstruct_Do, CreateExpr, CreateAddr, CreateStore;
    repeat first [apply EnterRegion_binding | binding_more].
Qed.

Lemma handleEndConstruct_binding u : keeps_binding l (handleEndConstruct u).
Proof.
  destruct u; cbn [handleEndConstruct]; unfold FinishConstruct;
    repeat first [apply ExitRegion_binding | binding_more].
Qed.

Lemma handleLinearOp_binding op :
  op <> LinearLabel l -> keeps_binding l (handleLinearOp op).
Proof.
  intros Hop.
  destruct op; cbn [handleLinearOp];
    try apply handleBeginConstruct_binding;
    try apply handleEndConstruct_binding;
    unfold AddOrQueueBranch, AddOrQueueCGoto, AddOrQueueIGoto,
      BuildLoopLatchExpression, handleLinearDoIncrement,
      handleLinearDoCompare, CreateRuntimeCall, CreateUnreachable,
      CreateReturn, CreateExpr, CreateLoad, CreateIncrement,
      CreateDoCondition;
    repeat first
      [ apply blockMap_insert_binding; congruence
      | apply handleActionStatement_binding
      | apply handleLinearSwitch_binding
      | apply AddOrQueueSwitch_binding
      | binding_more ].
Qed.

Lemma ConstructFIR_binding ops :
  LinearLabel l ∉ ops -> keeps_binding l (ConstructFIR ops).
Proof.
  assert (Hlen : forall n ops, (length ops <= n)%nat ->
            LinearLabel l ∉ ops -> keeps_binding l (ConstructFIR ops));
    [|by apply (Hlen (length ops))].
  clear ops. induction n as [|n IH]; intros [|op rest] Hn Hno;
    cbn [length] in Hn; try lia;
    try (intros ? ? ? Heq; cbn [ConstructFIR] in Heq; unfold ret in Heq;
         by simplify_eq).
  assert (Hrest : keeps_binding l (ConstructFIR rest)).
  { apply IH; [lia|]. intros Hin. apply Hno. by right. }
  assert (Hop : op <> LinearLabel l).
  { intros ->. apply Hno. by left. }
  destruct op; cbn [ConstructFIR];
    try (apply keeps_binding_bind; [by apply handleLinearOp_binding|];
         intros _; exact Hrest).
  apply keeps_binding_bind;
    [by apply (handleLinearOp_binding (LinearBeginConstruct u))|].
  intros _. destruct rest as [|next rest']; [by intros ? ? ?|].
  destruct next; try exact Hrest.
  apply keeps_binding_bind; [binding_prim|]. intros cursor.
  apply keeps_binding_bind.
  - apply blockMap_insert_binding. intros ->. apply Hno. right. by left.
  - intros _. apply IH; [cbn [length] in Hn; lia|].
    intros Hin. apply Hno. right. by right.
Qed.

Lemma run_closure_binding arc : keeps_binding l (run_closure arc).
Proof.
  destruct arc; cbn [run_closure]; unfold find_all; binding_more.
Qed.

End Binding.


Abbreviation Unbound st := (blockMap_ st !! unspecifiedLabel = None).
Abbreviation Nowhere arcs :=
  (Exists (fun arc => defaults_nowhere arc = true) arcs).

Lemma run_closure_nowhere arc st :
  defaults_nowhere arc = true -> Unbound st -> run_closure arc st = None.
Proof.
  destruct arc as [| |kind block d values labels|]; try done.
  cbn [defaults_nowhere run_closure]. intros ->%bool_decide_eq_true Hun.
  match goal with
  | |- ?m = None => destruct m as [[[] st']|] eqn:Hrun; [|done]
  end.
  exfalso.
  apply bind_Some in Hrun as ([] & st1 & Hset & Hrun).
  apply bind_Some in Hrun as ([] & st2 & Hcheck & Hrun).
  apply bind_Some in Hrun as (cases & st3 & Hfind & Hrun).
  apply bind_Some in Hrun as (found & st4 & Hdefault & Hrun).
  assert (H1 : blockMap_ st1 = blockMap_ st).
  { unfold SetInsertionPoint in Hset. repeat case_match; by simplify_eq. }
  assert (H2 : st2 = st1).
  { case_bool_decide; unfold ret in Hcheck; by simplify_eq. }
  assert (H3 : blockMap_ st3 !! unspecifiedLabel
               = blockMap_ st2 !! unspecifiedLabel).
  { revert Hfind. apply (keeps_binding_map_each unspecifiedLabel).
    intros lab st5 a st5' H5. unfold blockMap_find, bind, gets in H5.
    destruct (blockMap_ st5 !! lab); unfold ret in H5; by simplify_eq. }
  unfold blockMap_find, gets in Hdefault. simplify_eq.
  rewrite H3, H1, Hun in Hrun. done.
Qed.

Lemma DrawRemainingArcs_nowhere st :
  Nowhere (controlFlowEdgesToAdd_ st) -> Unbound st ->
  DrawRemainingArcs st = None.
Proof.
  unfold DrawRemainingArcs, bind, gets.
  generalize (controlFlowEdgesToAdd_ st). intros arcs Hnowhere. revert st.
  induction Hnowhere as [arc arcs Harc|arc arcs _ IH]; intros st Hun;
    cbn [for_each]; unfold bind.
  - by rewrite run_closure_nowhere.
  - destruct (run_closure arc st) as [[[] st1]|] eqn:Hrun; [|done].
    apply IH. by rewrite (run_closure_binding _ _ _ _ _ Hrun).
Qed.

Lemma enqueue_nowhere kind values labels st a st' :
  enqueue (fun block => SwitchArc kind block unspecifiedLabel values labels)
    st = Some (a, st') ->
  Nowhere (controlFlowEdgesToAdd_ st').
Proof.
  unfold enqueue, modify. intros Hrun. simplify_eq.
  cbn [controlFlowEdgesToAdd_ with_edges]. apply Exists_app. right.
  apply Exists_cons_hd. cbn. by apply bool_decide_eq_true.
Qed.

Lemma AddOrQueueSwitch_nowhere kind values labels st a st' :
  Unbound st ->
  AddOrQueueSwitch kind unspecifiedLabel values labels st = Some (a, st') ->
  Nowhere (controlFlowEdgesToAdd_ st').
Proof.
  intros Hun Hrun. unfold AddOrQueueSwitch, blockMap_find in Hrun.
  apply bind_Some in Hrun as (found & st1 & Hfind & Hrun).
  unfold gets in Hfind. simplify_eq. rewrite Hun in Hrun.
  by eapply enqueue_nowhere.
Qed.

Lemma remove_default_none isDefault labels :
  Forall (fun d => d = false) isDefault ->
  remove_default isDefault labels = None.
Proof.
  intros Hall. revert labels.
  induction Hall as [|d ds -> _ IH]; intros [|lab labels]; try done.
  cbn [remove_default]. by rewrite IH.
Qed.

Lemma cleanupSwitchPairs_none isDefault labels st args st' :
  Forall (fun d => d = false) isDefault ->
  cleanupSwitchPairs isDefault labels st = Some (args, st') ->
  args.1.1 = unspecifiedLabel /\ st' = st.
Proof.
  intros Hall Hrun. unfold cleanupSwitchPairs in Hrun.
  case_bool_decide; [|done]. rewrite remove_default_none in Hrun by done.
  unfold ret in Hrun. by simplify_eq.
Qed.

Lemma populate_cases_flags selectors : forall st isDefault st',
  forallb (fun s => match s with parser.CaseDefault => false | _ => true end)
    selectors = true ->
  map_each populate_case selectors st = Some (isDefault, st') ->
  Forall (fun d => d = false) isDefault
  /\ blockMap_ st' !! unspecifiedLabel = blockMap_ st !! unspecifiedLabel.
Proof.
  induction selectors as [|s selectors IH]; intros st isDefault st' Hall Hrun;
    cbn [map_each] in Hrun.
  - unfold ret in Hrun. simplify_eq. by split.
  - cbn [forallb] in Hall. apply andb_true_iff in Hall as [Hs Hall].
    apply bind_Some in Hrun as (d & st1 & Hd & Hrun).
    apply bind_Some in Hrun as (ds & st2 & Hds & Hrun).
    unfold ret in Hrun. simplify_eq.
    destruct (IH _ _ _ Hall Hds) as [Hfalse Hmap].
    destruct s as [ranges|]; [|done]. cbn [populate_case] in Hd.
    apply bind_Some in Hd as ([] & st3 & Hranges & Hd).
    unfold ret in Hd. simplify_eq. split; [by constructor|].
    rewrite Hmap. revert Hranges.
    apply (keeps_binding_for_each unspecifiedLabel). intros r.
    destruct r as [|[|] [|]]; unfold CreateExpr;
      repeat first
        [ apply keeps_binding_bind; [|intros ?]
        | (let H := fresh "Hprim" in
           intros ? ? ? H; cbv [Insert bind ret die] in H;
           repeat case_match; simplify_eq; done) ].
Qed.

Lemma flags_without_default {A} (f g : A -> bool) (xs : list A) :
  (forall x, g x = true -> f x = false) ->
  forallb g xs = true -> Forall (fun d => d = false) (map f xs).
Proof.
  intros Hfg. induction xs as [|x xs IH]; cbn [forallb map]; [constructor|].
  intros [Hx Hxs]%andb_true_iff. constructor; [by apply Hfg|by apply IH].
Qed.

Lemma handleLinearSwitch_nowhere u refs st a st' :
  without_default (LinearSwitch u refs) = true -> Unbound st ->
  handleLinearSwitch u refs st = Some (a, st') ->
  Nowhere (controlFlowEdgesToAdd_ st').
Proof.
  intros Hno Hun Hrun.
  assert (Hexpr : forall s1 a1 s2, CreateExpr s1 = Some (a1, s2) ->
            blockMap_ s2 = blockMap_ s1).
  { intros s1 a1 s2 H. unfold CreateExpr, Insert in H.
    repeat case_match; by simplify_eq. }
  destruct u; try done; cbn [without_default handleLinearSwitch] in *.
  - apply bind_Some in Hrun as ([] & st1 & Hins & Hrun).
    apply bind_Some in Hrun as (isDefault & st2 & Hflags & Hrun).
    apply bind_Some in Hrun as (args & st3 & Hargs & Hrun).
    destruct (populate_cases_flags _ _ _ _ Hno Hflags) as [Hfalse Hmap].
    destruct (cleanupSwitchPairs_none _ _ _ _ _ Hfalse Hargs) as [Hd ->].
    rewrite Hd in Hrun. eapply AddOrQueueSwitch_nowhere; [|done].
    by rewrite Hmap, (Hexpr _ _ _ Hins).
  - apply bind_Some in Hrun as ([] & st1 & Hins & Hrun).
    apply bind_Some in Hrun as (args & st3 & Hargs & Hrun).
    assert (Hfalse : Forall (fun d => d = false)
              (map (fun r => match r with parser.RankDefault => true
                                        | _ => false end) ranks)).
    { eapply flags_without_default; [|exact Hno]. by intros []. }
    destruct (cleanupSwitchPairs_none _ _ _ _ _ Hfalse Hargs) as [Hd ->].
    rewrite Hd in Hrun. eapply AddOrQueueSwitch_nowhere; [|done].
    by rewrite (Hexpr _ _ _ Hins).
  - apply bind_Some in Hrun as ([] & st1 & Hins & Hrun).
    apply bind_Some in Hrun as (args & st3 & Hargs & Hrun).
    assert (Hfalse : Forall (fun d => d = false)
              (map (fun g => match g with parser.GuardDefault => true
                                        | _ => false end) guards)).
    { eapply flags_without_default; [|exact Hno]. by intros []. }
    destruct (cleanupSwitchPairs_none _ _ _ _ _ Hfalse Hargs) as [Hd ->].
    rewrite Hd in Hrun. eapply AddOrQueueSwitch_nowhere; [|done].
    by rewrite (Hexpr _ _ _ Hins).
Qed.

Lemma CheckInsertionPoint_Unbound st a st' :
  CheckInsertionPoint st = Some (a, st') -> Unbound st -> Unbound st'.
Proof.
  intros Hrun Hun.
  by rewrite (CheckInsertionPoint_binding unspecifiedLabel _ _ _ Hrun).
Qed.

Lemma ConstructFIR_nowhere ops :
  Exists (fun op => without_default op = true) ops ->
  LinearLabel unspecifiedLabel ∉ ops ->
  forall st a st',
    Unbound st -> ConstructFIR ops st = Some (a, st') ->
    Nowhere (controlFlowEdgesToAdd_ st') /\ Unbound st'.
Proof.
  assert (Hlen : forall n ops, (length ops <= n)%nat ->
            Exists (fun op => without_default op = true) ops ->
            LinearLabel unspecifiedLabel ∉ ops ->
            forall st a st',
              Unbound st -> ConstructFIR ops st = Some (a, st') ->
              Nowhere (controlFlowEdgesToAdd_ st') /\ Unbound st').
  2:{ intros Hex Hno. by apply (Hlen (length ops)). }
  clear ops. induction n as [|n IH];
    intros [|op rest] Hn Hex Hno st a st' Hun Hrun;
    cbn [length] in Hn; try lia; try by apply Exists_nil in Hex.
  assert (Hno' : LinearLabel unspecifiedLabel ∉ rest).
  { intros Hin. apply Hno. by right. }
  assert (Hne : op <> LinearLabel unspecifiedLabel).
  { intros ->. apply Hno. by left. }
  assert (Hkeep : forall ops' s1 a1 s2,
            LinearLabel unspecifiedLabel ∉ ops' ->
            ConstructFIR ops' s1 = Some (a1, s2) ->
            Nowhere (controlFlowEdgesToAdd_ s1) -> Unbound s1 ->
            Nowhere (controlFlowEdgesToAdd_ s2) /\ Unbound s2).
  { intros ops' s1 a1 s2 Hnol Hr Hnw Hu. split.
    - destruct (ConstructFIR_grows ops' _ _ _ Hr) as (_ & _ & _ & [k ->]).
      apply Exists_app. by left.
    - by rewrite (ConstructFIR_binding unspecifiedLabel ops' Hnol _ _ _ Hr). }
  assert (Hother : forall s1 a1,
            handleLinearOp op st = Some (a1, s1) ->
            ConstructFIR rest s1 = Some (a, st') ->
            Nowhere (controlFlowEdgesToAdd_ st') /\ Unbound st').
  { intros s1 a1 Hop Hrest.
    assert (Hu1 : Unbound s1).
    { by rewrite (handleLinearOp_binding unspecifiedLabel op Hne _ _ _ Hop). }
    apply Exists_cons in Hex as [Hex|Hex].
    - eapply Hkeep; [done|done| |done].
      destruct op as [| | | | |u refs| | | | | |]; try done.
      cbn [handleLinearOp] in Hop.
      apply bind_Some in Hop as ([] & s2 & Hcheck & Hop).
      apply bind_Some in Hop as ([] & s3 & Hsw & Hop).
      unfold ClearInsertionPoint, modify in Hop. simplify_eq.
      cbn [controlFlowEdgesToAdd_ with_cursor].
      eapply handleLinearSwitch_nowhere; [done| |done].
      by eapply CheckInsertionPoint_Unbound.
    - eapply (IH rest); [lia|done|done|done|done]. }
  destruct op; cbn [ConstructFIR] in Hrun;
    try (apply bind_Some in Hrun as (a1 & s1 & Hop & Hrest);
         by eapply Hother).
  apply Exists_cons in Hex as [Hex|Hex]; [done|].
  apply bind_Some in Hrun as ([] & s1 & Hbegin & Hrun).
  assert (Hu1 : Unbound s1).
  { by rewrite (handleLinearOp_binding unspecifiedLabel
                  (LinearBeginConstruct u) Hne _ _ _ Hbegin). }
  destruct rest as [|next rest']; [done|].
  assert (Hrest : ConstructFIR (next :: rest') s1 = Some (a, st') ->
            Nowhere (controlFlowEdgesToAdd_ st') /\ Unbound st').
  { intros Hrest. eapply (IH (next :: rest')); [lia|done|done|done|done]. }
  destruct next; try by apply Hrest.
  apply Exists_cons in Hex as [Hex|Hex]; [done|].
  apply bind_Some in Hrun as (cursor & s2 & Hcursor & Hrun).
  apply bind_Some in Hrun as ([] & s3 & Hmap & Hrun).
  eapply (IH rest'); [cbn [length] in Hn; lia|done| | |done].
  - intros Hin. apply Hno'. by right.
  - unfold GetInsertionPoint, gets in Hcursor. simplify_eq.
    rewrite (blockMap_insert_binding unspecifiedLabel label_ _
               ltac:(intros ->; apply Hno'; by left) _ _ _ Hmap).
    done.
Qed.

(** X29.  A SELECT CASE, SELECT RANK or SELECT TYPE construct without a
    default case is not lowered.  Its switch is queued with
    [unspecifiedLabel] for the default; as long as no label operation
    carries that number, nothing binds it in [blockMap_], and the deferred
    switch stops [DrawRemainingArcs] when it looks the default up. *)
Theorem select_without_default_stops ops st :
  Exists (fun op => without_default op = true) ops ->
  LinearLabel unspecifiedLabel ∉ ops ->
  blockMap_ st !! unspecifiedLabel = None ->
  (ConstructFIR ops ;;; DrawRemainingArcs) st = None.
Proof.
  intros Hex Hno Hun. unfold bind.
  destruct (ConstructFIR ops st) as [[[] st1]|] eqn:Hrun; [|done].
  destruct (ConstructFIR_nowhere ops Hex Hno _ _ _ Hun Hrun) as [Hnw Hu1].
  by apply DrawRemainingArcs_nowhere.
Qed.

Lemma select_without_default_stops_witness :
  (ConstructFIR select_one_case ;;; DrawRemainingArcs)
    (initial_lowering empty_AnalysisData) = None.
Proof.
  apply (select_without_default_stops select_one_case).
  - apply Exists_cons_tl, Exists_cons_hd. reflexivity.
  - unfold select_one_case. rewrite !elem_of_cons, elem_of_nil.
    intros [H|[H|[H|[H|[H|[H|[H|[]]]]]]]]; discriminate H.
  - reflexivity.
Defined.

End SelectFacts.
